(** * SegmentedObjectPool: a shallow embedding of the three pool headers

    The repository ships three revisions of [SegmentedObjectPool.hpp] that share the
    segment-sizing code and differ in the free-slot tracker:

    - [FreeList]  : SegmentedObjectPool.hpp, an intrusive singly linked list threaded
                    through the vacated slots ([FreeNode* free_list_]);
    - [FreeFlags] : the revision with a [free_flags] byte vector and a [free_hint]
                    cursor per segment;
    - [FreeStack] : the revision with [std::stack<T*> free_stack_] and the
                    [atomic_*] entry points.

    [std::size_t] and [std::uintptr_t] are 64-bit: every arithmetic result of the
    source is reduced with [wrap].  Addresses are integers, the null pointer is 0. *)

From Stdlib Require Import ZArith QArith Lia List Bool Sorted.
From stdpp Require Import base option list gmap.

Local Open Scope Z_scope.

(** ** Machine integers *)

Definition SIZE_MOD : Z := 2 ^ 64.

Definition wrap (z : Z) : Z := z mod SIZE_MOD.

Definition in_size_t (z : Z) : Prop := 0 <= z < SIZE_MOD.

(** ** namespace detail *)

Module detail.

(** [while (b != 0) { auto t = a % b; a = b; b = t; } return a;]
    The loop variable [b] strictly decreases, so [b + 1] iterations are enough. *)
Fixpoint gcd_loop (fuel : nat) (a b : Z) : Z :=
  match fuel with
  | O => a
  | S fuel' => if b =? 0 then a else gcd_loop fuel' b (a mod b)
  end.

Definition gcd (a b : Z) : Z := gcd_loop (S (Z.to_nat b)) a b.

(** [return (a / gcd(a,b)) * b;] *)
Definition lcm (a b : Z) : Z := wrap ((a / gcd a b) * b).

(** [if (align == 0) return x; r = x % align; return r ? (x + (align - r)) : x;] *)
Definition round_up (x align : Z) : Z :=
  if align =? 0 then x
  else
    let r := x mod align in
    if r =? 0 then x else wrap (x + (align - r)).

End detail.

(** ** The growth factor

    [growth_factor_] is a [double].  The pool uses it in exactly two places: the
    comparison [growth > 1.0] of the constructor and the expression
    [static_cast<std::size_t>(static_cast<double>(n) * growth_factor_)] of
    [add_segment_].  The model keeps the factor's value as a rational and carries that
    expression as a function of [n]; the theorems below quantify over every such
    function, so they do not depend on how the floating-point unit rounds. *)

Record Growth : Type := {
  factor : Q;
  scale : Z -> Z
}.

(** [static_cast<double>(n)] for [0 <= n]: round to nearest, ties to even, on a
    53-bit significand. *)
Definition to_double (n : Z) : Z :=
  if n <? 2 ^ 53 then n
  else
    let e := Z.log2 n - 52 in
    let q := n / 2 ^ e in
    let r := n mod 2 ^ e in
    let half := 2 ^ (e - 1) in
    if r <? half then q * 2 ^ e
    else if half <? r then (q + 1) * 2 ^ e
    else if Z.even q then q * 2 ^ e else (q + 1) * 2 ^ e.

(** The literal [1.0]: multiplying a double by 1.0 is exact. *)
Definition growth_one : Growth := {| factor := 1; scale := to_double |}.

(** An integral factor [k] applied to page counts whose product stays below 2^53:
    both conversions and the product are exact there. *)
Definition growth_int (k : Z) : Growth :=
  {| factor := inject_Z k; scale := fun n => to_double (to_double n * k) |}.

(** [growth > 1.0 ? growth : 1.0] *)
Definition clamp_growth (growth : Growth) : Growth :=
  if Qlt_le_dec 1 (factor growth) then growth else growth_one.

(** ** Sizing policy: the constructor's members *)

Record Policy : Type := {
  page_size_ : Z;
  slot_size_ : Z;
  pages_per_segment_base_ : Z;
  growth_factor_ : Growth
}.

(** [compute_min_pages], a member function reading [page_size_] and [slot_size_]. *)
Definition compute_min_pages (ps ss user_min_pages : Z) : Z :=
  let l := detail.lcm ps ss in
  let min_pages := l / ps in
  if 0 <? user_min_pages then
    let k := wrap (wrap (user_min_pages + min_pages) - 1) / min_pages in
    wrap (min_pages * k)
  else min_pages.

(** [sizeof(void* )] on the 64-bit targets the header supports. *)
Definition sizeof_ptr : Z := 8.

(** The member initialiser list of the constructor; [os_page] is what
    [detail::os_page_size()] returned, [sizeof_T] and [alignof_T] describe [T]. *)
Definition make_policy (os_page sizeof_T alignof_T min_pages_per_segment : Z)
    (growth : Growth) : Policy :=
  let ss := detail.round_up (Z.max sizeof_T sizeof_ptr) alignof_T in
  {| page_size_ := os_page;
     slot_size_ := ss;
     pages_per_segment_base_ := compute_min_pages os_page ss min_pages_per_segment;
     growth_factor_ := clamp_growth growth |}.

(** The [else] branch of [add_segment_]: the page count of a segment that is not the
    first one. *)
Definition grown_pages (pol : Policy) (next_pages_hint : Z) : Z :=
  let base := pages_per_segment_base_ pol in
  let pages := wrap (scale (growth_factor_ pol) next_pages_hint) in
  let pages :=
    if pages <? wrap (next_pages_hint + base) then wrap (next_pages_hint + base)
    else pages in
  let rem := pages mod base in
  if rem =? 0 then pages else wrap (pages + (base - rem)).

(** The value [add_segment_] stores into [next_pages_hint_]. *)
Definition next_pages (pol : Policy) (no_segments : bool) (next_pages_hint : Z) : Z :=
  if no_segments then pages_per_segment_base_ pol
  else grown_pages pol next_pages_hint.

(** [seg_bytes = next_pages_hint_ * page_size_] *)
Definition seg_bytes (pol : Policy) (pages : Z) : Z := wrap (pages * page_size_ pol).

(** [capacity = seg_bytes / slot_size_] *)
Definition seg_capacity (pol : Policy) (pages : Z) : Z :=
  seg_bytes pol pages / slot_size_ pol.

(** One growth step stays inside [size_t]: the larger of the scaled count and
    [hint + base], rounded up to the next multiple of [base]. *)
Definition growth_fits (pol : Policy) (hint : Z) : Prop :=
  Z.max (wrap (scale (growth_factor_ pol) hint)) (hint + pages_per_segment_base_ pol)
    + pages_per_segment_base_ pol <= SIZE_MOD.

(** The same bound in bytes, for the block [add_segment_] is about to reserve; the
    first segment has [pages_per_segment_base_] pages. *)
Definition segment_fits (pol : Policy) (no_segments : bool) (hint : Z) : Prop :=
  if no_segments then pages_per_segment_base_ pol * page_size_ pol < SIZE_MOD
  else
    (Z.max (wrap (scale (growth_factor_ pol) hint)) (hint + pages_per_segment_base_ pol)
       + pages_per_segment_base_ pol) * page_size_ pol <= SIZE_MOD.

(** The constructor's inputs stay inside [size_t]: rounding the slot size, the least
    common multiple of page and slot size, and scaling to the requested minimum. *)
Definition params_fit (os_page sizeof_T alignof_T min_pages_per_segment : Z) : Prop :=
  0 < os_page /\ 0 < sizeof_T /\ 0 < alignof_T /\
  Z.max sizeof_T sizeof_ptr + alignof_T <= SIZE_MOD /\
  Z.lcm os_page (detail.round_up (Z.max sizeof_T sizeof_ptr) alignof_T) < SIZE_MOD /\
  0 <= min_pages_per_segment /\
  min_pages_per_segment + detail.round_up (Z.max sizeof_T sizeof_ptr) alignof_T < SIZE_MOD.

(** ** Slot storage and the system allocator

    What the pool touches outside its own members: the storage of the slots (an object
    of type [T] is built there by placement new and ended by [~T()]), and the blocks
    obtained from [::operator new[]]. *)

(** [T(std::forward<Args>(args)...)], as far as the pool can tell: the value of
    [PooledObject::recycled_] in the object the constructor of [T] builds from the
    argument pack.  The default member initialiser gives [false]; the implicit copy
    constructor of [PooledObject] gives the flag of the object it reads. *)
Class Constructor (Args : Type) : Type := recycled_after : Args -> bool.

Section Memory.
Context {Args : Type}.

(** Content of one slot.  [Live a r] is a constructed [T] built from the argument
    pack [a], with [PooledObject::recycled_ = r]; [Dead] is storage whose object was
    destroyed; [Node next] is storage reused as a [FreeNode]. *)
Inductive cell : Type :=
| Live (a : Args) (recycled : bool)
| Dead
| Node (next : Z).

Record Memory : Type := {
  cells : gmap Z cell;
  blocks : gmap Z Z;          (* base address of a live block ↦ its byte size *)
  destroyed : list Z          (* addresses on which ~T() ran, most recent first *)
}.

Definition empty_memory : Memory :=
  {| cells := ∅; blocks := ∅; destroyed := [] |}.

Definition set_cell (addr : Z) (c : cell) (m : Memory) : Memory :=
  {| cells := <[addr := c]> (cells m); blocks := blocks m; destroyed := destroyed m |}.

(** [new (obj) T(std::forward<Args>(args)...)]: the slot holds the object the
    constructor builds, with the flag that constructor leaves. *)
Definition placement_new `{!Constructor Args} (obj : Z) (args : Args) (m : Memory)
    : Memory :=
  set_cell obj (Live args (recycled_after args)) m.

(** [obj->mark_in_use()], i.e. [recycled_ = false]. *)
Definition mark_in_use (obj : Z) (m : Memory) : Memory :=
  match cells m !! obj with
  | Some (Live a _) => set_cell obj (Live a false) m
  | _ => m
  end.

(** [p->~T()] *)
Definition destroy (p : Z) (m : Memory) : Memory :=
  {| cells := <[p := Dead]> (cells m);
     blocks := blocks m;
     destroyed := p :: destroyed m |}.

(** [::operator new[](bytes, align)] returning [raw]. *)
Definition operator_new (raw bytes : Z) (m : Memory) : Memory :=
  {| cells := cells m; blocks := <[raw := bytes]> (blocks m); destroyed := destroyed m |}.

Definition outside (base bytes : Z) (addr : Z) : Prop :=
  ¬ (base <= addr < base + bytes).

(** [::operator delete[](data, align)]: the block and everything stored in it are
    gone.  Deleting the null pointer does nothing. *)
Definition operator_delete (data : Z) (m : Memory) : Memory :=
  match blocks m !! data with
  | Some bytes =>
      {| cells := filter (fun kv => outside data bytes (fst kv)) (cells m);
         blocks := delete data (blocks m);
         destroyed := destroyed m |}
  | None => m
  end.

(** The object stored at [addr], if one is alive there. *)
Definition object_at (m : Memory) (addr : Z) : option (Args * bool) :=
  match cells m !! addr with
  | Some (Live a r) => Some (a, r)
  | _ => None
  end.

Definition is_live (c : cell) : bool :=
  match c with Live _ _ => true | _ => false end.

(** The slots that hold a constructed [T]. *)
Definition alive (m : Memory) : gmap Z cell :=
  filter (fun kv => is_live (snd kv) = true) (cells m).

End Memory.

Arguments cell : clear implicits.
Arguments Memory : clear implicits.

(** [struct Segment] of SegmentedObjectPool.hpp and of the stack revision. *)
Record Segment : Type := {
  data : Z;
  capacity : Z;
  next_uninit : Z
}.

(** [Segment(d, cap)] *)
Definition new_segment (d cap : Z) : Segment :=
  {| data := d; capacity := cap; next_uninit := 0 |}.

(** [seg.data + i * slot_size_] *)
Definition slot_addr (ss d i : Z) : Z := wrap (d + wrap (i * ss)).

(** [++seg.next_uninit] on the segment [segments_.back()]. *)
Definition bump_last (segs : list Segment) : list Segment :=
  match last segs with
  | Some seg =>
      <[pred (length segs) :=
          {| data := data seg; capacity := capacity seg;
             next_uninit := wrap (next_uninit seg + 1) |}]> segs
  | None => segs
  end.

(** ** SegmentedObjectPool.hpp: the intrusive free list *)

Module FreeList.
Section WithArgs.
Context {Args : Type} `{!Constructor Args}.

Record Pool : Type := {
  segments_ : list Segment;
  free_list_ : Z;
  policy : Policy;
  next_pages_hint_ : Z;
  live_count_ : Z;
  mem : Memory Args
}.

(** The constructor; the members without an initialiser keep their defaults. *)
Definition make (os_page sizeof_T alignof_T min_pages_per_segment : Z)
    (growth : Growth) : Pool :=
  {| segments_ := [];
     free_list_ := 0;
     policy := make_policy os_page sizeof_T alignof_T min_pages_per_segment growth;
     next_pages_hint_ := 0;
     live_count_ := 0;
     mem := empty_memory |}.

(** [add_segment_]; [raw] is the pointer [::operator new[]] returns. *)
Definition add_segment_ (raw : Z) (p : Pool) : Pool :=
  let hint :=
    next_pages (policy p) (bool_decide (segments_ p = [])) (next_pages_hint_ p) in
  let bytes := seg_bytes (policy p) hint in
  let cap := seg_capacity (policy p) hint in
  {| segments_ := segments_ p ++ [new_segment raw cap];
     free_list_ := free_list_ p;
     policy := policy p;
     next_pages_hint_ := hint;
     live_count_ := live_count_ p;
     mem := operator_new raw bytes (mem p) |}.

(** The tail shared by the second and third exits of [allocate]: take the slot at
    [next_uninit] of [segments_.back()], construct, mark, count. *)
Definition claim_uninit (args : Args) (p : Pool) : option (Pool * Z) :=
  seg ← last (segments_ p);
  let ptr := slot_addr (slot_size_ (policy p)) (data seg) (next_uninit seg) in
  Some ({| segments_ := bump_last (segments_ p);
           free_list_ := free_list_ p;
           policy := policy p;
           next_pages_hint_ := next_pages_hint_ p;
           live_count_ := wrap (live_count_ p + 1);
           mem := mark_in_use ptr (placement_new ptr args (mem p)) |}, ptr).

Definition last_has_room (p : Pool) : bool :=
  match last (segments_ p) with
  | Some seg => next_uninit seg <? capacity seg
  | None => false
  end.

(** [allocate].  Reading [node->next] from storage that holds no [FreeNode] has no
    defined result: [None]. *)
Definition allocate (args : Args) (raw : Z) (p : Pool) : option (Pool * Z) :=
  if negb (free_list_ p =? 0) then
    let node := free_list_ p in
    match cells (mem p) !! node with
    | Some (Node next) =>
        Some ({| segments_ := segments_ p;
                 free_list_ := next;
                 policy := policy p;
                 next_pages_hint_ := next_pages_hint_ p;
                 live_count_ := wrap (live_count_ p + 1);
                 mem := mark_in_use node (placement_new node args (mem p)) |}, node)
    | _ => None
    end
  else if last_has_room p then claim_uninit args p
  else claim_uninit args (add_segment_ raw p).

(** [deallocate] *)
Definition deallocate (ptr : Z) (p : Pool) : Pool :=
  if ptr =? 0 then p
  else
    {| segments_ := segments_ p;
       free_list_ := ptr;
       policy := policy p;
       next_pages_hint_ := next_pages_hint_ p;
       live_count_ := wrap (live_count_ p - 1);
       mem := set_cell ptr (Node (free_list_ p)) (destroy ptr (mem p)) |}.

(** [clear] *)
Definition clear (p : Pool) : Pool :=
  {| segments_ := [];
     free_list_ := 0;
     policy := policy p;
     next_pages_hint_ := pages_per_segment_base_ (policy p);
     live_count_ := 0;
     mem := foldl (fun m seg => operator_delete (data seg) m) (mem p) (segments_ p) |}.

Definition live (p : Pool) : Z := live_count_ p.
Definition segments (p : Pool) : Z := Z.of_nat (length (segments_ p)).
Definition capacity_total (p : Pool) : Z :=
  foldl (fun c s => wrap (c + capacity s)) 0 (segments_ p).

(** *** Call sequences *)

Inductive op : Type :=
| Allocate (args : Args) (raw : Z)
| Deallocate (ptr : Z)
| Clear.

(** One call, with the pointer [allocate] returned. *)
Definition step (o : op) (p : Pool) : option (Pool * option Z) :=
  match o with
  | Allocate args raw => '(p', a) ← allocate args raw p; Some (p', Some a)
  | Deallocate ptr => Some (deallocate ptr p, None)
  | Clear => Some (clear p, None)
  end.

Fixpoint exec (ops : list op) (p : Pool) : option Pool :=
  match ops with
  | [] => Some p
  | o :: rest => '(p', _) ← step o p; exec rest p'
  end.

(** The pool a call sequence ends in ([p] itself where [exec] has no result). *)
Definition run (ops : list op) (p : Pool) : Pool := default p (exec ops p).

Definition completes (ops : list op) (p : Pool) : bool :=
  match exec ops p with Some _ => true | None => false end.

(** The page counts [add_segment_] leaves in [next_pages_hint_] over successive
    growths, [raws] being the blocks the system hands out. *)
Fixpoint growths (raws : list Z) (p : Pool) : list Z :=
  match raws with
  | [] => []
  | raw :: rest =>
      let p' := add_segment_ raw p in
      next_pages_hint_ p' :: growths rest p'
  end.

(** Every one of these growths stays inside [size_t]. *)
Fixpoint growths_fit (raws : list Z) (p : Pool) : Prop :=
  match raws with
  | [] => True
  | raw :: rest =>
      (segments_ p <> [] -> growth_fits (policy p) (next_pages_hint_ p)) /\
      growths_fit rest (add_segment_ raw p)
  end.

Definition is_clear (o : op) : bool :=
  match o with Clear => true | _ => false end.

(** The calls after the last [clear]. *)
Fixpoint since_clear (ops : list op) : list op :=
  match ops with
  | [] => []
  | o :: rest => if existsb is_clear ops then since_clear rest else ops
  end.

Definition is_allocate (o : op) : bool :=
  match o with Allocate _ _ => true | _ => false end.
Definition is_deallocate (o : op) : bool :=
  match o with Deallocate _ => true | _ => false end.
Definition is_effective_deallocate (o : op) : bool :=
  match o with Deallocate ptr => negb (ptr =? 0) | _ => false end.

Definition count (f : op -> bool) (ops : list op) : Z :=
  Z.of_nat (length (filter (fun o => f o = true) ops)).

(** Sum of the high-water marks. *)
Definition high_water_total (p : Pool) : Z :=
  foldr (fun seg acc => next_uninit seg + acc) 0 (segments_ p).

(** The addresses on the free list, following [next] from [head] for at most [fuel]
    nodes. *)
Fixpoint free_chain (fuel : nat) (cs : gmap Z (cell Args)) (head : Z) : list Z :=
  match fuel with
  | O => []
  | S fuel' =>
      if head =? 0 then []
      else match cs !! head with
           | Some (Node next) => head :: free_chain fuel' cs next
           | _ => [head]
           end
  end.

(** The vacant slots the tracker holds. *)
Definition vacant (p : Pool) : list Z :=
  free_chain (size (cells (mem p))) (cells (mem p)) (free_list_ p).

(** *** The caller's contract and the states it leads to *)

(** [l] is the sequence of nodes reached from [head] through [next], ending at the
    null pointer. *)
Fixpoint chain (cs : gmap Z (cell Args)) (head : Z) (l : list Z) : Prop :=
  match l with
  | [] => head = 0
  | a :: l' =>
      a = head /\ a <> 0 /\ exists next, cs !! a = Some (Node next) /\ chain cs next l'
  end.

(** Step 1 of [allocate] finds nothing and the newest segment is full (or there is
    none): the call goes on to [add_segment_]. *)
Definition needs_growth (p : Pool) : bool :=
  (free_list_ p =? 0) && negb (last_has_room p).

(** The byte size [add_segment_] would ask [::operator new[]] for. *)
Definition upcoming_bytes (p : Pool) : Z :=
  seg_bytes (policy p)
    (next_pages (policy p) (bool_decide (segments_ p = [])) (next_pages_hint_ p)).

(** What [::operator new[]] guarantees about the block it returns: not null, inside
    the address space, and disjoint from every block not yet deleted. *)
Definition fresh_block (m : Memory Args) (raw bytes : Z) : Prop :=
  0 < raw /\ raw + bytes <= SIZE_MOD /\
  forall d b, blocks m !! d = Some b -> raw + bytes <= d \/ d + b <= raw.

(** A call the contract allows: [deallocate] gets the null pointer or a pointer to an
    object of this pool that is alive; a growth stays inside [size_t] and is served
    with a fresh block. *)
Definition admissible (o : op) (p : Pool) : Prop :=
  match o with
  | Allocate _ raw =>
      needs_growth p = true ->
      segment_fits (policy p) (bool_decide (segments_ p = [])) (next_pages_hint_ p) /\
      fresh_block (mem p) raw (upcoming_bytes p)
  | Deallocate ptr => ptr = 0 \/ is_Some (object_at (mem p) ptr)
  | Clear => True
  end.

Inductive reachable : Pool -> Prop :=
| reach_make os_page sizeof_T alignof_T min_pages growth :
    params_fit os_page sizeof_T alignof_T min_pages ->
    reachable (make os_page sizeof_T alignof_T min_pages growth)
| reach_step o p p' r :
    reachable p -> admissible o p -> step o p = Some (p', r) -> reachable p'.

(** *** The representation invariant *)

Definition seg_ok (ss : Z) (m : Memory Args) (seg : Segment) : Prop :=
  0 < data seg /\ 0 <= next_uninit seg <= capacity seg /\ 0 < capacity seg /\
  data seg + capacity seg * ss <= SIZE_MOD /\
  blocks m !! data seg = Some (capacity seg * ss).

Definition apart (ss : Z) (s s' : Segment) : Prop :=
  data s + capacity s * ss <= data s' \/ data s' + capacity s' * ss <= data s.

(** [addr] is the slot [i] of a segment, below its high-water mark. *)
Definition used_slot (ss : Z) (segs : list Segment) (addr : Z) : Prop :=
  exists seg i, seg ∈ segs /\ 0 <= i < next_uninit seg /\ addr = data seg + i * ss.

Record wf (p : Pool) : Prop := {
  wf_page : 0 < page_size_ (policy p);
  wf_slot : 0 < slot_size_ (policy p);
  wf_base : 0 < pages_per_segment_base_ (policy p);
  wf_whole :
    (slot_size_ (policy p) | pages_per_segment_base_ (policy p) * page_size_ (policy p));
  wf_hint : 0 <= next_pages_hint_ p;
  wf_segments : Forall (seg_ok (slot_size_ (policy p)) (mem p)) (segments_ p);
  wf_apart : forall i j s s',
    segments_ p !! i = Some s -> segments_ p !! j = Some s' -> i <> j ->
    apart (slot_size_ (policy p)) s s';
  wf_blocks : forall d b,
    blocks (mem p) !! d = Some b -> exists seg, seg ∈ segments_ p /\ data seg = d;
  wf_cells : forall a c,
    cells (mem p) !! a = Some c ->
    c <> Dead /\ used_slot (slot_size_ (policy p)) (segments_ p) a;
  wf_free : exists l,
    chain (cells (mem p)) (free_list_ p) l /\ NoDup l /\
    forall a next, cells (mem p) !! a = Some (Node next) -> a ∈ l
}.

(** The bookkeeping behind the live count: one stored cell per slot below a
    high-water mark, and the live count is their number less the length of the free
    list. *)
Definition counted (p : Pool) : Prop :=
  exists fl,
    chain (cells (mem p)) (free_list_ p) fl /\
    Z.of_nat (size (cells (mem p))) = high_water_total p /\
    live_count_ p = high_water_total p - Z.of_nat (length fl) /\
    0 <= live_count_ p.

(** *** Histories

    [handed h p]: the contract leads to [p], and [h] lists the addresses [allocate]
    has returned since the last [clear] (or since construction), newest first. *)
Inductive handed : list Z -> Pool -> Prop :=
| handed_make os_page sizeof_T alignof_T min_pages growth :
    params_fit os_page sizeof_T alignof_T min_pages ->
    handed [] (make os_page sizeof_T alignof_T min_pages growth)
| handed_allocate h p args raw p' a :
    handed h p -> admissible (Allocate args raw) p ->
    allocate args raw p = Some (p', a) -> handed (a :: h) p'
| handed_deallocate h p ptr :
    handed h p -> admissible (Deallocate ptr) p -> handed h (deallocate ptr p)
| handed_clear h p :
    handed h p -> handed [] (clear p).

(** The pointers the [allocate] calls of a call sequence return, in call order. *)
Fixpoint returned (ops : list op) (p : Pool) : option (list Z) :=
  match ops with
  | [] => Some []
  | o :: rest =>
      '(p', r) ← step o p;
      l ← returned rest p';
      Some (match r with Some a => a :: l | None => l end)
  end.

(** The number of slots of all segments, as an integer. *)
Definition slots_total (p : Pool) : Z :=
  foldr (fun seg acc => capacity seg + acc) 0 (segments_ p).

(** Every call of a call sequence is one the contract allows, in the state the
    calls before it lead to. *)
Fixpoint allowed (ops : list op) (p : Pool) : Prop :=
  match ops with
  | [] => True
  | o :: rest =>
      admissible o p /\ forall p' r, step o p = Some (p', r) -> allowed rest p'
  end.

End WithArgs.
Arguments Pool : clear implicits.
Arguments op : clear implicits.
End FreeList.

(** ** The revision with [std::stack<T*> free_stack_] and the spin lock *)

Module FreeStack.
Section WithArgs.
Context {Args : Type} `{!Constructor Args}.

Record Pool : Type := {
  free_stack_ : list Z;             (* top of the stack first *)
  segments_ : list Segment;
  policy : Policy;
  next_pages_hint_ : Z;
  live_count_ : Z;
  lock_ : bool;                     (* SpinLock::flag *)
  mem : Memory Args
}.

Definition make (os_page sizeof_T alignof_T min_pages_per_segment : Z)
    (growth : Growth) : Pool :=
  {| free_stack_ := [];
     segments_ := [];
     policy := make_policy os_page sizeof_T alignof_T min_pages_per_segment growth;
     next_pages_hint_ := 0;
     live_count_ := 0;
     lock_ := false;
     mem := empty_memory |}.

Definition add_segment_ (raw : Z) (p : Pool) : Pool :=
  let hint :=
    next_pages (policy p) (bool_decide (segments_ p = [])) (next_pages_hint_ p) in
  let bytes := seg_bytes (policy p) hint in
  let cap := seg_capacity (policy p) hint in
  {| free_stack_ := free_stack_ p;
     segments_ := segments_ p ++ [new_segment raw cap];
     policy := policy p;
     next_pages_hint_ := hint;
     live_count_ := live_count_ p;
     lock_ := lock_ p;
     mem := operator_new raw bytes (mem p) |}.

(** Steps 2 and 3 of [allocate] end the same way.  [segments_.back()] on an empty
    vector does not occur: step 3 has just appended a segment. *)
Definition claim_uninit (args : Args) (p : Pool) : Pool * Z :=
  match last (segments_ p) with
  | Some seg =>
      let ptr := slot_addr (slot_size_ (policy p)) (data seg) (next_uninit seg) in
      ({| free_stack_ := free_stack_ p;
          segments_ := bump_last (segments_ p);
          policy := policy p;
          next_pages_hint_ := next_pages_hint_ p;
          live_count_ := wrap (live_count_ p + 1);
          lock_ := lock_ p;
          mem := mark_in_use ptr (placement_new ptr args (mem p)) |}, ptr)
  | None => (p, 0)
  end.

Definition last_has_room (p : Pool) : bool :=
  match last (segments_ p) with
  | Some seg => next_uninit seg <? capacity seg
  | None => false
  end.

(** [allocate] *)
Definition allocate (args : Args) (raw : Z) (p : Pool) : Pool * Z :=
  match free_stack_ p with
  | obj :: rest =>
      ({| free_stack_ := rest;
          segments_ := segments_ p;
          policy := policy p;
          next_pages_hint_ := next_pages_hint_ p;
          live_count_ := wrap (live_count_ p + 1);
          lock_ := lock_ p;
          mem := mark_in_use obj (placement_new obj args (mem p)) |}, obj)
  | [] =>
      if last_has_room p then claim_uninit args p
      else claim_uninit args (add_segment_ raw p)
  end.

(** [deallocate] *)
Definition deallocate (ptr : Z) (p : Pool) : Pool :=
  if ptr =? 0 then p
  else
    {| free_stack_ := ptr :: free_stack_ p;
       segments_ := segments_ p;
       policy := policy p;
       next_pages_hint_ := next_pages_hint_ p;
       live_count_ := wrap (live_count_ p - 1);
       lock_ := lock_ p;
       mem := destroy ptr (mem p) |}.

(** [clear]: [free_stack_] is not among the members it resets. *)
Definition clear (p : Pool) : Pool :=
  {| free_stack_ := free_stack_ p;
     segments_ := [];
     policy := policy p;
     next_pages_hint_ := pages_per_segment_base_ (policy p);
     live_count_ := 0;
     lock_ := lock_ p;
     mem := foldl (fun m seg => operator_delete (data seg) m) (mem p) (segments_ p) |}.

Definition live (p : Pool) : Z := live_count_ p.

Definition set_lock (b : bool) (p : Pool) : Pool :=
  {| free_stack_ := free_stack_ p;
     segments_ := segments_ p;
     policy := policy p;
     next_pages_hint_ := next_pages_hint_ p;
     live_count_ := live_count_ p;
     lock_ := b;
     mem := mem p |}.

(** [LockGuard g(lock_); body].  [SpinLock::lock] loops while the flag is set; with
    one thread nobody clears it, so the call does not return: [None]. *)
Definition with_lock {R : Type} (body : Pool -> Pool * R) (p : Pool) : option (Pool * R) :=
  if lock_ p then None
  else
    let '(p', r) := body (set_lock true p) in
    Some (set_lock false p', r).

Definition atomic_allocate (args : Args) (raw : Z) (p : Pool) : option (Pool * Z) :=
  with_lock (allocate args raw) p.

(** [if (!p) return;] comes before the guard. *)
Definition atomic_deallocate (ptr : Z) (p : Pool) : option Pool :=
  if ptr =? 0 then Some p
  else fst <$> with_lock (fun q => (deallocate ptr q, tt)) p.

Definition atomic_clear (p : Pool) : option Pool :=
  fst <$> with_lock (fun q => (clear q, tt)) p.

(** Sum of the high-water marks. *)
Definition high_water_total (p : Pool) : Z :=
  foldr (fun seg acc => next_uninit seg + acc) 0 (segments_ p).

(** The vacant slots the tracker holds. *)
Definition vacant (p : Pool) : list Z := free_stack_ p.

(** One call of a call sequence, with the pointer [allocate] returned. *)
Definition step (o : FreeList.op Args) (p : Pool) : Pool * option Z :=
  match o with
  | FreeList.Allocate args raw => let '(p', a) := allocate args raw p in (p', Some a)
  | FreeList.Deallocate ptr => (deallocate ptr p, None)
  | FreeList.Clear => (clear p, None)
  end.

(** The pointers the [allocate] calls of a call sequence return, in call order. *)
Fixpoint returned (ops : list (FreeList.op Args)) (p : Pool) : list Z :=
  match ops with
  | [] => []
  | o :: rest =>
      let '(p', r) := step o p in
      match r with
      | Some a => a :: returned rest p'
      | None => returned rest p'
      end
  end.

(** A pool of this revision and a pool of SegmentedObjectPool.hpp that have the same
    segments and sizing state and track the same vacant slots in the same order. *)
Definition mirrors (pl : FreeList.Pool Args) (ps : Pool) : Prop :=
  segments_ ps = FreeList.segments_ pl /\
  policy ps = FreeList.policy pl /\
  next_pages_hint_ ps = FreeList.next_pages_hint_ pl /\
  live_count_ ps = FreeList.live_count_ pl /\
  free_stack_ ps = FreeList.vacant pl.

(** [deallocate] called on each pointer of a list, in order. *)
Definition deallocate_each (ptrs : list Z) (p : Pool) : Pool :=
  foldl (fun q ptr => deallocate ptr q) p ptrs.

(** [allocate] called once per entry, in order; an entry holds the arguments and the
    block the system would hand out should that call grow the pool.  The result is
    the pool and the pointers returned. *)
Fixpoint allocate_each (calls : list (Args * Z)) (p : Pool) : Pool * list Z :=
  match calls with
  | [] => (p, [])
  | (args, raw) :: rest =>
      let '(p1, a) := allocate args raw p in
      let '(p2, l) := allocate_each rest p1 in
      (p2, a :: l)
  end.

End WithArgs.
Arguments Pool : clear implicits.
End FreeStack.

(** ** The revision with per-segment [free_flags] and [free_hint] *)

Module FreeFlags.

Record Segment : Type := {
  data : Z;
  capacity : Z;
  next_uninit : Z;
  free_flags : list Z;       (* std::vector<uint8_t>: 0 = used, 1 = free *)
  free_hint : Z
}.

(** [Segment(d, cap)]: [free_flags(cap, 0)], [free_hint(0)]. *)
Definition new_segment (d cap : Z) : Segment :=
  {| data := d; capacity := cap; next_uninit := 0;
     free_flags := replicate (Z.to_nat cap) 0; free_hint := 0 |}.

(** [seg.free_flags[i]] *)
Definition flag_at (flags : list Z) (i : Z) : Z := default 0 (flags !! Z.to_nat i).

(** [for (i = seg.free_hint; i < seg.capacity; ++i) if (seg.free_flags[i] == 1) ...]:
    the index the inner loop stops at, [n] being the iterations left. *)
Fixpoint scan (flags : list Z) (i : Z) (n : nat) : option Z :=
  match n with
  | O => None
  | S n' => if flag_at flags i =? 1 then Some i else scan flags (i + 1) n'
  end.

Definition find_free (seg : Segment) : option Z :=
  scan (free_flags seg) (free_hint seg) (Z.to_nat (capacity seg - free_hint seg)).

(** [seg.free_flags[i] = 0; seg.free_hint = i + 1;] *)
Definition take_slot (i : Z) (seg : Segment) : Segment :=
  {| data := data seg; capacity := capacity seg; next_uninit := next_uninit seg;
     free_flags := <[Z.to_nat i := 0]> (free_flags seg);
     free_hint := wrap (i + 1) |}.

(** [seg.free_hint = 0;] *)
Definition reset_hint (seg : Segment) : Segment :=
  {| data := data seg; capacity := capacity seg; next_uninit := next_uninit seg;
     free_flags := free_flags seg; free_hint := 0 |}.

(** Step 1 of [allocate], the loop over [segments_]: the segments as the loop leaves
    them, and the address of the slot it found, if any. *)
Fixpoint reuse (ss : Z) (segs : list Segment) : list Segment * option Z :=
  match segs with
  | [] => ([], None)
  | seg :: rest =>
      match find_free seg with
      | Some i => (take_slot i seg :: rest, Some (slot_addr ss (data seg) i))
      | None =>
          let '(rest', found) := reuse ss rest in
          (reset_hint seg :: rest', found)
      end
  end.

(** [seg.free_flags[index] = 1; if (index < seg.free_hint) seg.free_hint = index;] *)
Definition mark_free (index : Z) (seg : Segment) : Segment :=
  {| data := data seg; capacity := capacity seg; next_uninit := next_uninit seg;
     free_flags := <[Z.to_nat index := 1]> (free_flags seg);
     free_hint := if index <? free_hint seg then index else free_hint seg |}.

(** [addr >= base && addr < end] with [end = base + seg.capacity * slot_size_]. *)
Definition owns (ss : Z) (seg : Segment) (addr : Z) : bool :=
  let base := data seg in
  let end_ := wrap (base + wrap (capacity seg * ss)) in
  (base <=? addr) && (addr <? end_).

(** The loop of [deallocate]: the segments after marking the slot of [addr] in the
    first segment that owns it; [None] when the loop ends without a match. *)
Fixpoint release (ss addr : Z) (segs : list Segment) : option (list Segment) :=
  match segs with
  | [] => None
  | seg :: rest =>
      if owns ss seg addr then
        Some (mark_free (wrap (addr - data seg) / ss) seg :: rest)
      else cons seg <$> release ss addr rest
  end.

Definition bump_last (segs : list Segment) : list Segment :=
  match last segs with
  | Some seg =>
      <[pred (length segs) :=
          {| data := data seg; capacity := capacity seg;
             next_uninit := wrap (next_uninit seg + 1);
             free_flags := free_flags seg; free_hint := free_hint seg |}]> segs
  | None => segs
  end.

(** The address range of a segment: [base, base + capacity * slot_size). *)
Definition within (ss : Z) (seg : Segment) (addr : Z) : Prop :=
  data seg <= addr < data seg + capacity seg * ss.

(** The slots of a segment whose flag is 1. *)
Definition flagged (seg : Segment) (i : Z) : Prop :=
  0 <= i < capacity seg /\ flag_at (free_flags seg) i = 1.

Definition no_vacancy (segs : list Segment) : Prop :=
  Forall (fun seg => forall i, ~ flagged seg i) segs.

(** What every call keeps true of a segment: one flag per slot, and no flag set
    below [free_hint]. *)
Definition shape_ok (seg : Segment) : Prop :=
  length (free_flags seg) = Z.to_nat (capacity seg) /\
  0 <= free_hint seg /\
  forall i, 0 <= i < free_hint seg -> flag_at (free_flags seg) i <> 1.

(** What a call may change in a segment while the slot at [addr] changes hands: the
    high-water mark may rise, [free_hint] may move, the flags of the other slots
    stay. *)
Definition carries (ss addr : Z) (s s' : Segment) : Prop :=
  data s' = data s /\ capacity s' = capacity s /\
  next_uninit s <= next_uninit s' <= capacity s' /\
  forall i, 0 <= i -> data s + i * ss <> addr ->
    flag_at (free_flags s') i = flag_at (free_flags s) i.

Section WithArgs.
Context {Args : Type} `{!Constructor Args}.

Record Pool : Type := {
  segments_ : list Segment;
  policy : Policy;
  next_pages_hint_ : Z;
  live_count_ : Z;
  mem : Memory Args
}.

Definition make (os_page sizeof_T alignof_T min_pages_per_segment : Z)
    (growth : Growth) : Pool :=
  {| segments_ := [];
     policy := make_policy os_page sizeof_T alignof_T min_pages_per_segment growth;
     next_pages_hint_ := 0;
     live_count_ := 0;
     mem := empty_memory |}.

Definition add_segment_ (raw : Z) (p : Pool) : Pool :=
  let hint :=
    next_pages (policy p) (bool_decide (segments_ p = [])) (next_pages_hint_ p) in
  let bytes := seg_bytes (policy p) hint in
  let cap := seg_capacity (policy p) hint in
  {| segments_ := segments_ p ++ [new_segment raw cap];
     policy := policy p;
     next_pages_hint_ := hint;
     live_count_ := live_count_ p;
     mem := operator_new raw bytes (mem p) |}.

Definition with_segments (segs : list Segment) (p : Pool) : Pool :=
  {| segments_ := segs;
     policy := policy p;
     next_pages_hint_ := next_pages_hint_ p;
     live_count_ := live_count_ p;
     mem := mem p |}.

(** [new (obj) T(args...); obj->mark_in_use(); ++live_count_; return obj;] *)
Definition construct_at (obj : Z) (args : Args) (p : Pool) : Pool * Z :=
  ({| segments_ := segments_ p;
      policy := policy p;
      next_pages_hint_ := next_pages_hint_ p;
      live_count_ := wrap (live_count_ p + 1);
      mem := mark_in_use obj (placement_new obj args (mem p)) |}, obj).

Definition claim_uninit (args : Args) (p : Pool) : Pool * Z :=
  match last (segments_ p) with
  | Some seg =>
      let ptr := slot_addr (slot_size_ (policy p)) (data seg) (next_uninit seg) in
      construct_at ptr args (with_segments (bump_last (segments_ p)) p)
  | None => (p, 0)
  end.

Definition last_has_room (p : Pool) : bool :=
  match last (segments_ p) with
  | Some seg => next_uninit seg <? capacity seg
  | None => false
  end.

(** [allocate] *)
Definition allocate (args : Args) (raw : Z) (p : Pool) : Pool * Z :=
  let '(segs, found) := reuse (slot_size_ (policy p)) (segments_ p) in
  let p1 := with_segments segs p in
  match found with
  | Some obj => construct_at obj args p1
  | None =>
      if last_has_room p1 then claim_uninit args p1
      else claim_uninit args (add_segment_ raw p1)
  end.

(** [deallocate] *)
Definition deallocate (ptr : Z) (p : Pool) : Pool :=
  if ptr =? 0 then p
  else
    match release (slot_size_ (policy p)) ptr (segments_ p) with
    | Some segs =>
        {| segments_ := segs;
           policy := policy p;
           next_pages_hint_ := next_pages_hint_ p;
           live_count_ := wrap (live_count_ p - 1);
           mem := destroy ptr (mem p) |}
    | None => p
    end.

(** [clear] *)
Definition clear (p : Pool) : Pool :=
  {| segments_ := [];
     policy := policy p;
     next_pages_hint_ := pages_per_segment_base_ (policy p);
     live_count_ := 0;
     mem := foldl (fun m seg => operator_delete (data seg) m) (mem p) (segments_ p) |}.

Definition live (p : Pool) : Z := live_count_ p.

(** The states the pool can be in: whatever is called on it after construction. *)
Inductive reachable : Pool -> Prop :=
| reach_make os_page sizeof_T alignof_T min_pages growth :
    params_fit os_page sizeof_T alignof_T min_pages ->
    reachable (make os_page sizeof_T alignof_T min_pages growth)
| reach_allocate p args raw : reachable p -> reachable (fst (allocate args raw p))
| reach_deallocate p ptr : reachable p -> reachable (deallocate ptr p)
| reach_clear p : reachable p -> reachable (clear p).

(** *** The caller's contract and the states it leads to *)

(** Step 1 of [allocate] finds no flagged slot and the newest segment is full (or
    there is none): the call goes on to [add_segment_]. *)
Definition needs_growth (p : Pool) : bool :=
  match snd (reuse (slot_size_ (policy p)) (segments_ p)) with
  | Some _ => false
  | None => negb (last_has_room p)
  end.

(** The byte size [add_segment_] would ask [::operator new[]] for. *)
Definition upcoming_bytes (p : Pool) : Z :=
  seg_bytes (policy p)
    (next_pages (policy p) (bool_decide (segments_ p = [])) (next_pages_hint_ p)).

(** A growth stays inside [size_t] and is served with a fresh block whose end is an
    address as well. *)
Definition admissible_allocate (raw : Z) (p : Pool) : Prop :=
  needs_growth p = true ->
  segment_fits (policy p) (bool_decide (segments_ p = [])) (next_pages_hint_ p) /\
  FreeList.fresh_block (mem p) raw (upcoming_bytes p) /\
  raw + upcoming_bytes p < SIZE_MOD.

(** [deallocate] gets the null pointer or a pointer to an object of this pool that
    is alive. *)
Definition admissible_deallocate (ptr : Z) (p : Pool) : Prop :=
  ptr = 0 \/ is_Some (object_at (mem p) ptr).

(** The states the pool is in as long as its callers keep the contract. *)
Inductive kept : Pool -> Prop :=
| kept_make os_page sizeof_T alignof_T min_pages growth :
    params_fit os_page sizeof_T alignof_T min_pages ->
    kept (make os_page sizeof_T alignof_T min_pages growth)
| kept_allocate p args raw :
    kept p -> admissible_allocate raw p -> kept (fst (allocate args raw p))
| kept_deallocate p ptr :
    kept p -> admissible_deallocate ptr p -> kept (deallocate ptr p)
| kept_clear p : kept p -> kept (clear p).

(** *** The representation invariant *)

Definition seg_ok (ss : Z) (m : Memory Args) (seg : Segment) : Prop :=
  0 < data seg /\ 0 <= next_uninit seg <= capacity seg /\ 0 < capacity seg /\
  data seg + capacity seg * ss < SIZE_MOD /\
  blocks m !! data seg = Some (capacity seg * ss) /\
  (forall i, 0 <= i -> flag_at (free_flags seg) i = 1 -> i < next_uninit seg).

Definition apart (ss : Z) (s s' : Segment) : Prop :=
  data s + capacity s * ss <= data s' \/ data s' + capacity s' * ss <= data s.

(** The content [c] of the slot at [addr] agrees with the flags: the slot is below
    the high-water mark of a segment, and its flag is set exactly when the object in
    it has been destroyed. *)
Definition slot_agrees (ss : Z) (segs : list Segment) (addr : Z) (c : cell Args) : Prop :=
  exists seg i,
    seg ∈ segs /\ 0 <= i < next_uninit seg /\ addr = data seg + i * ss /\
    (flag_at (free_flags seg) i = 1 <-> c = Dead) /\
    (forall next, c <> Node next).

Record sound (p : Pool) : Prop := {
  sound_page : 0 < page_size_ (policy p);
  sound_slot : 0 < slot_size_ (policy p);
  sound_base : 0 < pages_per_segment_base_ (policy p);
  sound_whole :
    (slot_size_ (policy p) | pages_per_segment_base_ (policy p) * page_size_ (policy p));
  sound_hint : 0 <= next_pages_hint_ p;
  sound_shape : Forall shape_ok (segments_ p);
  sound_segments : Forall (seg_ok (slot_size_ (policy p)) (mem p)) (segments_ p);
  sound_apart : forall i j s s',
    segments_ p !! i = Some s -> segments_ p !! j = Some s' -> i <> j ->
    apart (slot_size_ (policy p)) s s';
  sound_blocks : forall d b,
    blocks (mem p) !! d = Some b -> exists seg, seg ∈ segments_ p /\ data seg = d;
  sound_cells : forall a c,
    cells (mem p) !! a = Some c -> slot_agrees (slot_size_ (policy p)) (segments_ p) a c;
  sound_live : live_count_ p = Z.of_nat (size (alive (mem p)))
}.

End WithArgs.
Arguments Pool : clear implicits.
End FreeFlags.

(** The members a segment of the free-flags revision shares with [Segment]. *)
Definition plain (seg : FreeFlags.Segment) : Segment :=
  {| data := FreeFlags.data seg;
     capacity := FreeFlags.capacity seg;
     next_uninit := FreeFlags.next_uninit seg |}.


(** ** Scenarios

    The README's [Bullet]: two [int]s, a vtable pointer and the [recycled_] flag, 24
    bytes aligned to 8, on a host with 4096-byte pages.  The argument pack of
    [Bullet::create] is the list of its integers. *)

(** [Bullet(int, int)] and [Bullet()] leave [recycled_] at its default. *)
#[global] Instance bullet_constructor : Constructor (list Z) := fun _ => false.

(** [Bullet(const Bullet&)], the implicit copy constructor: the argument is the
    [Bullet] read, given by its integers and its [recycled_] flag, and the copy has
    the same flag. *)
#[global] Instance bullet_copy_constructor : Constructor (list Z * bool) := snd.

Definition bullet_pool (min_pages_per_segment : Z) (growth : Growth)
    : FreeList.Pool (list Z) :=
  FreeList.make 4096 24 8 min_pages_per_segment growth.

Definition bullet_stack_pool : FreeStack.Pool (list Z) :=
  FreeStack.make 4096 24 8 0 growth_one.

Definition bullet_flags_pool : FreeFlags.Pool (list Z) :=
  FreeFlags.make 4096 24 8 0 growth_one.

(** [n] calls [Bullet::create()]; were call [i] to grow the pool, the system would
    hand out the block at [(i + 1) * 2^32]. *)
Definition create_n (n : nat) : list (FreeList.op (list Z)) :=
  (fun i => FreeList.Allocate [] (Z.of_nat (S i) * 2 ^ 32)) <$> seq 0 n.

(** What the growth claims look at: the capacities of the segments, the byte sizes of
    their blocks, and the page count of the newest one. *)
Definition sizes (p : FreeList.Pool (list Z)) : list (Z * option Z) * Z :=
  ((fun seg => (capacity seg, blocks (FreeList.mem p) !! data seg)) <$> FreeList.segments_ p,
   FreeList.next_pages_hint_ p).

(** The README's walk-through on SegmentedObjectPool.hpp: [b1 = create(10, 20)],
    [b2 = create()], the first growth being served at [2^32]. *)
Definition readme_created : FreeList.Pool (list Z) :=
  FreeList.run [FreeList.Allocate [10; 20] (2 ^ 32); FreeList.Allocate [] 0]
    (bullet_pool 0 growth_one).

(** ... followed by [b1->recycle()]. *)
Definition readme_recycled : FreeList.Pool (list Z) :=
  FreeList.deallocate (2 ^ 32) readme_created.

(** The same two [create] calls on the free-flags revision, then [b1->recycle()] and
    [b2->recycle()]. *)
Definition readme_flags_created : FreeFlags.Pool (list Z) :=
  fst (FreeFlags.allocate [] 0
         (fst (FreeFlags.allocate [10; 20] (2 ^ 32) bullet_flags_pool))).

Definition readme_flags_recycled : FreeFlags.Pool (list Z) :=
  FreeFlags.deallocate (2 ^ 32 + 24) (FreeFlags.deallocate (2 ^ 32) readme_flags_created).
(** * Arithmetic of the sizing code *)

Lemma SIZE_MOD_pos : 0 < SIZE_MOD.
Proof. reflexivity. Qed.

Lemma wrap_small z : 0 <= z < SIZE_MOD -> wrap z = z.
Proof. intros H. unfold wrap. now apply Z.mod_small. Qed.

Lemma wrap_range z : 0 <= wrap z < SIZE_MOD.
Proof. unfold wrap. apply Z.mod_pos_bound, SIZE_MOD_pos. Qed.

Lemma wrap_le z : 0 <= z -> wrap z <= z.
Proof. intros H. unfold wrap. apply Z.mod_le; [exact H | exact SIZE_MOD_pos]. Qed.

Lemma gcd_loop_spec fuel : forall a b,
  0 <= a -> 0 <= b -> (Z.to_nat b < fuel)%nat -> detail.gcd_loop fuel a b = Z.gcd a b.
Proof.
  induction fuel as [|fuel IH]; intros a b Ha Hb Hfuel; [lia|].
  simpl. destruct (Z.eqb_spec b 0) as [->|Hnz].
  - rewrite Z.gcd_0_r. lia.
  - pose proof (Z.mod_pos_bound a b ltac:(lia)) as Hm.
    rewrite IH by lia.
    rewrite (Z.gcd_comm b), Z.gcd_mod by lia. apply Z.gcd_comm.
Qed.

Lemma gcd_spec a b : 0 <= a -> 0 <= b -> detail.gcd a b = Z.gcd a b.
Proof. intros Ha Hb. unfold detail.gcd. apply gcd_loop_spec; lia. Qed.

Lemma lcm_spec a b :
  0 < a -> 0 < b -> Z.lcm a b < SIZE_MOD -> detail.lcm a b = Z.lcm a b.
Proof.
  intros Ha Hb Hfit. unfold detail.lcm. rewrite gcd_spec by lia.
  assert (Hg : Z.gcd a b <> 0) by (intros E; apply Z.gcd_eq_0_l in E; lia).
  assert (E : a / Z.gcd a b * b = Z.lcm a b).
  { unfold Z.lcm. rewrite Z.lcm_equiv2, <- Z.lcm_equiv1 by exact Hg.
    symmetry. apply Z.abs_eq.
    apply Z.mul_nonneg_nonneg; [lia | apply Z.div_pos; [lia|]].
    pose proof (Z.gcd_nonneg a b). lia. }
  rewrite E. apply wrap_small. split; [apply Z.lcm_nonneg | exact Hfit].
Qed.

Lemma round_up_spec x align :
  0 <= x -> 0 < align -> x + align <= SIZE_MOD ->
  x <= detail.round_up x align < x + align /\ (align | detail.round_up x align).
Proof.
  intros Hx Ha Hfit. unfold detail.round_up.
  destruct (Z.eqb_spec align 0); [lia|].
  pose proof (Z.mod_pos_bound x align Ha) as Hm.
  destruct (Z.eqb_spec (x mod align) 0) as [E|E].
  - split; [lia|]. apply Z.mod_divide; [lia | exact E].
  - rewrite wrap_small by lia. split; [lia|].
    exists (x / align + 1). pose proof (Z.div_mod x align ltac:(lia)). lia.
Qed.

(** The base page count: positive, at least the requested minimum, and its byte size
    is a whole number of slots. *)
Lemma compute_min_pages_spec ps ss user :
  0 < ps -> 0 < ss -> Z.lcm ps ss < SIZE_MOD -> 0 <= user -> user + ss < SIZE_MOD ->
  let base := compute_min_pages ps ss user in
  0 < base /\ user <= base /\ base < user + ss + 1 /\ (ss | base * ps).
Proof.
  intros Hps Hss Hfit Hu Hus base. subst base. unfold compute_min_pages.
  rewrite lcm_spec by lia.
  assert (Hg : 0 < Z.gcd ps ss).
  { pose proof (Z.gcd_nonneg ps ss).
    assert (Z.gcd ps ss <> 0) by (intros E; apply Z.gcd_eq_0_l in E; lia). lia. }
  destruct (Z.gcd_divide_l ps ss) as [P HP], (Z.gcd_divide_r ps ss) as [S HS].
  remember (Z.gcd ps ss) as g eqn:Eg.
  assert (HPpos : 0 < P) by nia. assert (HSpos : 0 < S) by nia.
  assert (Hl : Z.lcm ps ss = S * ps).
  { unfold Z.lcm. rewrite <- Eg.
    replace (ss / g) with S by (apply Z.div_unique_exact; lia).
    rewrite Z.abs_eq by nia. lia. }
  rewrite Hl, Z.div_mul by lia.
  assert (HSle : S <= ss) by nia.
  assert (Hdiv : (ss | S * ps)).
  { exists P. nia. }
  destruct (Z.ltb_spec 0 user) as [Hpos|Hzero].
  - rewrite (wrap_small (user + S)) by lia.
    rewrite (wrap_small (user + S - 1)) by lia.
    set (k := (user + S - 1) / S).
    pose proof (Z.div_mod (user + S - 1) S ltac:(lia)) as Hdm.
    pose proof (Z.mod_pos_bound (user + S - 1) S HSpos) as Hmb.
    fold k in Hdm.
    assert (Hk : 1 <= k) by (apply Z.div_le_lower_bound; lia).
    rewrite wrap_small by nia.
    repeat split; try nia.
    destruct Hdiv as [c Hc]. exists (c * k). nia.
  - repeat split; try lia. exact Hdiv.
Qed.


Lemma grown_pages_spec pol hint :
  0 < pages_per_segment_base_ pol -> 0 <= hint -> growth_fits pol hint ->
  let n := grown_pages pol hint in
  hint + pages_per_segment_base_ pol <= n /\
  wrap (scale (growth_factor_ pol) hint) <= n /\
  n < Z.max (wrap (scale (growth_factor_ pol) hint)) (hint + pages_per_segment_base_ pol)
        + pages_per_segment_base_ pol /\
  (pages_per_segment_base_ pol | n).
Proof.
  intros Hb Hh Hfit n. subst n. unfold grown_pages, growth_fits in *.
  set (base := pages_per_segment_base_ pol) in *.
  set (s := wrap (scale (growth_factor_ pol) hint)) in *.
  pose proof (wrap_range (scale (growth_factor_ pol) hint)) as Hs. fold s in Hs.
  rewrite (wrap_small (hint + base)) by lia.
  set (pages := if s <? hint + base then hint + base else s).
  assert (Hp : pages = Z.max s (hint + base)).
  { subst pages. destruct (Z.ltb_spec s (hint + base)); lia. }
  pose proof (Z.mod_pos_bound pages base Hb) as Hm.
  pose proof (Z.div_mod pages base ltac:(lia)) as Hdm.
  destruct (Z.eqb_spec (pages mod base) 0) as [E|E].
  - repeat split; try lia. apply Z.mod_divide; [lia | exact E].
  - rewrite wrap_small by lia. repeat split; try lia.
    exists (pages / base + 1). lia.
Qed.

(** A page count that is a multiple of the base gives a block that is a whole number
    of slots: nothing is left over at its tail. *)
Lemma seg_capacity_exact pol pages :
  0 < slot_size_ pol -> 0 <= pages ->
  (slot_size_ pol | pages_per_segment_base_ pol * page_size_ pol) ->
  (pages_per_segment_base_ pol | pages) ->
  0 <= page_size_ pol -> pages * page_size_ pol < SIZE_MOD ->
  seg_bytes pol pages = pages * page_size_ pol /\
  slot_size_ pol * seg_capacity pol pages = seg_bytes pol pages /\
  (page_size_ pol | seg_capacity pol pages * slot_size_ pol).
Proof.
  intros Hss Hp [c Hc] [k Hk] Hps Hfit.
  unfold seg_capacity, seg_bytes. rewrite wrap_small by nia.
  assert (Hd : (slot_size_ pol | pages * page_size_ pol)).
  { exists (k * c). rewrite Hk, <- Z.mul_assoc, Hc. ring. }
  destruct Hd as [q Hq]. rewrite Hq, Z.div_mul by lia.
  repeat split; [lia|]. exists pages. lia.
Qed.

(** * The policy the constructor computes *)

Lemma make_policy_spec os_page sizeof_T alignof_T min_pages growth :
  params_fit os_page sizeof_T alignof_T min_pages ->
  let pol := make_policy os_page sizeof_T alignof_T min_pages growth in
  0 < page_size_ pol /\ sizeof_ptr <= slot_size_ pol /\ sizeof_T <= slot_size_ pol /\
  (alignof_T | slot_size_ pol) /\
  0 < pages_per_segment_base_ pol /\ min_pages <= pages_per_segment_base_ pol /\
  (slot_size_ pol | pages_per_segment_base_ pol * page_size_ pol).
Proof.
  intros (Hps & Hsz & Hal & Hru & Hlcm & Hmin & Hminfit) pol. subst pol. simpl.
  pose proof (round_up_spec (Z.max sizeof_T sizeof_ptr) alignof_T) as Hr.
  unfold sizeof_ptr in *.
  destruct Hr as [[Hlo Hhi] Hdiv]; [lia | lia | lia |].
  set (ss := detail.round_up (Z.max sizeof_T 8) alignof_T) in *.
  destruct (compute_min_pages_spec os_page ss min_pages) as (Hb & Hm & _ & Hd); try lia.
  repeat split; try lia; assumption.
Qed.

Lemma clamp_growth_le_one growth :
  (factor growth <= 1)%Q -> clamp_growth growth = growth_one.
Proof.
  intros Hle. unfold clamp_growth.
  destruct (Qlt_le_dec 1 (factor growth)) as [Hlt|_]; [|reflexivity].
  exfalso. exact (Qlt_not_le _ _ Hlt Hle).
Qed.

Lemma clamp_growth_gt_one growth :
  (1 < factor growth)%Q -> clamp_growth growth = growth.
Proof.
  intros Hlt. unfold clamp_growth.
  destruct (Qlt_le_dec 1 (factor growth)) as [_|Hle]; [reflexivity|].
  exfalso. exact (Qlt_not_le _ _ Hlt Hle).
Qed.

Lemma to_double_exact n : n < 2 ^ 53 -> to_double n = n.
Proof. intros H. unfold to_double. destruct (Z.ltb_spec n (2 ^ 53)); [reflexivity | lia]. Qed.

(** With the factor 1.0 a growth step adds exactly one base. *)
Lemma grown_pages_one pol j :
  growth_factor_ pol = growth_one ->
  0 < pages_per_segment_base_ pol -> 0 <= j ->
  (j + 1) * pages_per_segment_base_ pol < 2 ^ 53 ->
  grown_pages pol (j * pages_per_segment_base_ pol) = (j + 1) * pages_per_segment_base_ pol.
Proof.
  intros Hg Hb Hj Hfit. unfold grown_pages. rewrite Hg. simpl.
  set (base := pages_per_segment_base_ pol) in *.
  assert (H64 : 2 ^ 53 < SIZE_MOD) by reflexivity.
  rewrite to_double_exact by nia.
  rewrite (wrap_small (j * base)) by nia.
  rewrite (wrap_small (j * base + base)) by nia.
  destruct (Z.ltb_spec (j * base) (j * base + base)); [|lia].
  replace (j * base + base) with ((j + 1) * base) by ring.
  rewrite Z.mod_mul by lia. reflexivity.
Qed.

Section FreeListGrowth.
Context {Args : Type} `{!Constructor Args}.
Implicit Types p : FreeList.Pool Args.

Lemma add_segment_policy raw p :
  FreeList.policy (FreeList.add_segment_ raw p) = FreeList.policy p.
Proof. reflexivity. Qed.

Lemma add_segment_segments raw p :
  FreeList.segments_ (FreeList.add_segment_ raw p) <> [].
Proof. simpl. intros E. symmetry in E. exact (app_cons_not_nil _ _ _ E). Qed.

Lemma growths_cons raw rest p :
  FreeList.growths (raw :: rest) p =
    FreeList.next_pages_hint_ (FreeList.add_segment_ raw p)
      :: FreeList.growths rest (FreeList.add_segment_ raw p).
Proof. reflexivity. Qed.

Lemma growths_length raws : forall p, length (FreeList.growths raws p) = length raws.
Proof. induction raws as [|raw rest IH]; intros p; simpl; [|rewrite IH]; reflexivity. Qed.

(** Successive growths from a pool that has segments: each page count exceeds the
    previous one by at least one base and is a multiple of the base. *)
Lemma growths_from_nonempty raws : forall p,
  FreeList.segments_ p <> [] ->
  0 < pages_per_segment_base_ (FreeList.policy p) ->
  0 <= FreeList.next_pages_hint_ p ->
  FreeList.growths_fit raws p ->
  Forall (fun n => FreeList.next_pages_hint_ p <= n) (FreeList.growths raws p) /\
  StronglySorted Z.le (FreeList.growths raws p) /\
  Forall (fun n => exists k, 0 < k /\ n = k * pages_per_segment_base_ (FreeList.policy p))
    (FreeList.growths raws p).
Proof.
  induction raws as [|raw rest IH]; intros p Hne Hb Hh Hfit.
  { simpl. repeat split; constructor. }
  simpl in Hfit. destruct Hfit as [Hstep Hrest].
  rewrite growths_cons.
  assert (Ehint : FreeList.next_pages_hint_ (FreeList.add_segment_ raw p)
                  = grown_pages (FreeList.policy p) (FreeList.next_pages_hint_ p)).
  { simpl. rewrite bool_decide_eq_false_2 by exact Hne. reflexivity. }
  pose proof (grown_pages_spec (FreeList.policy p) (FreeList.next_pages_hint_ p) Hb Hh
                (Hstep Hne)) as Hspec.
  cbv zeta in Hspec. destruct Hspec as (Hge & _ & _ & [k Hk]).
  destruct (IH (FreeList.add_segment_ raw p)) as (Hall & Hsorted & Hmult).
  - apply add_segment_segments.
  - exact Hb.
  - rewrite Ehint. lia.
  - exact Hrest.
  - rewrite Ehint in *. repeat split.
    + constructor; [lia|]. eapply Forall_impl; [exact Hall|]. simpl. intros; lia.
    + constructor; assumption.
    + constructor; [|exact Hmult]. exists k. split; [nia | exact Hk].
Qed.

(** With the factor 1.0, growths from a pool whose hint is [j] bases add one base
    each. *)
Lemma growths_one raws : forall p j,
  FreeList.segments_ p <> [] ->
  growth_factor_ (FreeList.policy p) = growth_one ->
  0 < pages_per_segment_base_ (FreeList.policy p) -> 0 <= j ->
  FreeList.next_pages_hint_ p = j * pages_per_segment_base_ (FreeList.policy p) ->
  (j + Z.of_nat (length raws)) * pages_per_segment_base_ (FreeList.policy p) < 2 ^ 53 ->
  FreeList.growths raws p =
    (fun i => (j + Z.of_nat (S i)) * pages_per_segment_base_ (FreeList.policy p))
      <$> seq 0 (length raws).
Proof.
  induction raws as [|raw rest IH]; intros p j Hne Hg Hb Hj Hh Hfit; [reflexivity|].
  simpl length in *. rewrite growths_cons.
  assert (Ehint : FreeList.next_pages_hint_ (FreeList.add_segment_ raw p)
                  = (j + 1) * pages_per_segment_base_ (FreeList.policy p)).
  { simpl. rewrite bool_decide_eq_false_2 by exact Hne. rewrite Hh.
    apply grown_pages_one; [exact Hg | exact Hb | exact Hj | nia]. }
  rewrite (IH (FreeList.add_segment_ raw p) (j + 1)); try assumption.
  - rewrite Ehint. simpl seq. rewrite fmap_cons. f_equal.
    rewrite <- seq_shift, <- list_fmap_compose. apply list_fmap_ext.
    intros _ i _. simpl. f_equal. lia.
  - apply add_segment_segments.
  - lia.
  - rewrite add_segment_policy, Nat2Z.inj_succ in *.
    replace (j + 1 + Z.of_nat (length rest)) with (j + Z.succ (Z.of_nat (length rest))) by lia.
    exact Hfit.
Qed.

End FreeListGrowth.

(** * Segment sizing: the growth claims *)

(** C4, as the code has it: when the growth factor is the default 1.0, or a supplied
    value at most 1.0 (which the constructor replaces by 1.0), every growth adds
    exactly one base page count, so the i-th segment appended has i times the base
    page count (as long as these counts stay below 2^53, where the conversion to
    double is exact). *)
Theorem C4_unit_growth_is_linear (Args : Type)
    (os_page sizeof_T alignof_T min_pages : Z) (growth : Growth) (raws : list Z) :
  (factor growth <= 1)%Q ->
  let p := @FreeList.make Args os_page sizeof_T alignof_T min_pages growth in
  let base := pages_per_segment_base_ (FreeList.policy p) in
  0 < base ->
  Z.of_nat (length raws) * base < 2 ^ 53 ->
  growth_factor_ (FreeList.policy p) = growth_one /\
  FreeList.growths raws p = (fun i => Z.of_nat (S i) * base) <$> seq 0 (length raws).
Proof.
  intros Hle p base Hb Hfit.
  assert (Hg : growth_factor_ (FreeList.policy p) = growth_one)
    by (apply clamp_growth_le_one; exact Hle).
  split; [exact Hg|].
  destruct raws as [|raw rest]; [reflexivity|].
  rewrite growths_cons.
  assert (Ehint : FreeList.next_pages_hint_ (FreeList.add_segment_ raw p) = 1 * base)
    by (subst base p; simpl; lia).
  simpl length in *. rewrite Nat2Z.inj_succ in Hfit.
  rewrite (growths_one rest (FreeList.add_segment_ raw p) 1);
    [|apply add_segment_segments | exact Hg | exact Hb | lia | exact Ehint
     | rewrite add_segment_policy; fold base; lia].
  rewrite Ehint. simpl seq. rewrite fmap_cons. f_equal.
  rewrite <- seq_shift, <- list_fmap_compose. apply list_fmap_ext.
  intros _ i _. cbv beta. rewrite add_segment_policy. fold base.
  unfold compose. f_equal. lia.
Qed.

Lemma C4_unit_growth_is_linear_witness :
  (factor growth_one <= 1)%Q /\
  FreeList.growths [2 ^ 32; 2 ^ 33; 2 ^ 34] (bullet_pool 0 growth_one) = [3; 6; 9].
Proof.
  split; [discriminate|].
  apply (C4_unit_growth_is_linear (list Z) 4096 24 8 0 growth_one [2 ^ 32; 2 ^ 33; 2 ^ 34]);
    [discriminate | reflexivity | reflexivity].
Defined.

(** C4 as stated fails: with the default factor the second segment of a [Bullet] pool
    has 6 pages where the first has 3 (1024 slots against 512); the 513th allocation
    is the one that appends it. *)
Lemma C4_counterexample :
  FreeList.growths [2 ^ 32; 2 ^ 33] (bullet_pool 0 growth_one) = [3; 6] /\
  sizes <$> FreeList.exec (create_n 513) (bullet_pool 0 growth_one)
    = Some ([(512, Some 12288); (1024, Some 24576)], 6).
Proof. split; vm_compute; reflexivity. Qed.




(** C6, as the code has it: across successive growths of one pool the page counts are
    non-decreasing and each is a positive multiple of the base page count, provided
    no growth step leaves the 64-bit [size_t]. *)
Theorem C6_growth_is_monotone (Args : Type) (p : FreeList.Pool Args) (raws : list Z) :
  0 < pages_per_segment_base_ (FreeList.policy p) ->
  0 <= FreeList.next_pages_hint_ p ->
  FreeList.growths_fit raws p ->
  StronglySorted Z.le (FreeList.growths raws p) /\
  Forall (fun n => exists k, 0 < k /\ n = k * pages_per_segment_base_ (FreeList.policy p))
    (FreeList.growths raws p).
Proof.
  intros Hb Hh Hfit.
  destruct (decide (FreeList.segments_ p = [])) as [Hempty|Hne].
  - destruct raws as [|raw rest]; [simpl; split; constructor|].
    simpl in Hfit. destruct Hfit as [_ Hrest]. rewrite growths_cons.
    assert (Ehint : FreeList.next_pages_hint_ (FreeList.add_segment_ raw p)
                    = pages_per_segment_base_ (FreeList.policy p)).
    { simpl. rewrite bool_decide_eq_true_2 by exact Hempty. reflexivity. }
    destruct (growths_from_nonempty rest (FreeList.add_segment_ raw p))
      as (Hall & Hsorted & Hmult).
    + apply add_segment_segments.
    + exact Hb.
    + rewrite Ehint. lia.
    + exact Hrest.
    + rewrite Ehint in *. split.
      * constructor; assumption.
      * constructor; [|exact Hmult]. exists 1. lia.
  - destruct (growths_from_nonempty raws p Hne Hb Hh Hfit) as (_ & Hs & Hm).
    split; assumption.
Qed.

Lemma C6_growth_is_monotone_witness :
  FreeList.growths [2 ^ 32; 2 ^ 33; 2 ^ 34] (bullet_pool 0 (growth_int 3)) = [3; 9; 27] /\
  StronglySorted Z.le (FreeList.growths [2 ^ 32; 2 ^ 33; 2 ^ 34] (bullet_pool 0 (growth_int 3))) /\
  Forall (fun n => exists k, 0 < k /\ n = k * 3)
    (FreeList.growths [2 ^ 32; 2 ^ 33; 2 ^ 34] (bullet_pool 0 (growth_int 3))).
Proof.
  split; [reflexivity|].
  apply (C6_growth_is_monotone (list Z) (bullet_pool 0 (growth_int 3)) [2 ^ 32; 2 ^ 33; 2 ^ 34]).
  - reflexivity.
  - discriminate.
  - cbn [FreeList.growths_fit]. repeat split; intros;
      unfold growth_fits; apply Z.leb_le; vm_compute; reflexivity.
Defined.

(** C6 as stated fails where a growth step leaves [size_t]: a pool of 4096-byte
    elements asked for at least 2^63 + 1025 pages per segment gets that many in its
    first segment (1025 slots, the byte size having wrapped) and 2050 in its
    second. *)
Lemma C6_counterexample :
  sizes <$> FreeList.exec (create_n 1025) (FreeList.make 4096 4096 8 (2 ^ 63 + 1025) growth_one)
    = Some ([(1025, Some 4198400)], 2 ^ 63 + 1025) /\
  sizes <$> FreeList.exec (create_n 1026) (FreeList.make 4096 4096 8 (2 ^ 63 + 1025) growth_one)
    = Some ([(1025, Some 4198400); (2050, Some 8396800)], 2050) /\
  FreeList.growths [2 ^ 32; 2 ^ 33]
    (@FreeList.make (list Z) 4096 4096 8 (2 ^ 63 + 1025) growth_one)
    = [2 ^ 63 + 1025; 2050] /\
  ~ StronglySorted Z.le [2 ^ 63 + 1025; 2050] /\
  ~ (exists k, 0 < k /\ 2050 = k * (2 ^ 63 + 1025)).
Proof.
  split; [vm_compute; reflexivity|]. split; [vm_compute; reflexivity|].
  split; [vm_compute; reflexivity|]. split.
  - intros H. inversion H as [|? ? _ Hall]; subst. inversion Hall; subst. lia.
  - intros (k & Hk & E). lia.
Qed.

(** * Deallocating what the pool does not hold *)

(** C9: [deallocate] and [atomic_deallocate] called with a null pointer return at
    once; the pool is left as it was in every revision: same live count, segments and
    free-slot tracker, same slot storage, and no destructor call logged. *)
Theorem C9_null_deallocate_is_noop (Args : Type)
    (pl : FreeList.Pool Args) (pf : FreeFlags.Pool Args) (ps : FreeStack.Pool Args) :
  FreeList.deallocate 0 pl = pl /\
  FreeFlags.deallocate 0 pf = pf /\
  FreeStack.deallocate 0 ps = ps /\
  FreeStack.atomic_deallocate 0 ps = Some ps.
Proof. repeat split. Qed.

Section FreeFlagsRelease.
Import FreeFlags.

(** The range test of [deallocate] accepts only addresses inside the segment. *)
Lemma owns_within ss seg addr :
  0 <= ss -> 0 <= data seg -> 0 <= capacity seg ->
  owns ss seg addr = true -> within ss seg addr.
Proof.
  intros Hss Hd Hc H. unfold owns in H. apply andb_prop in H as [Hlo Hhi].
  apply Z.leb_le in Hlo. apply Z.ltb_lt in Hhi. unfold within. split; [exact Hlo|].
  pose proof (wrap_le (capacity seg * ss) ltac:(nia)) as H1.
  pose proof (wrap_range (capacity seg * ss)) as H2.
  pose proof (wrap_le (data seg + wrap (capacity seg * ss)) ltac:(lia)) as H3.
  lia.
Qed.

Lemma release_foreign ss addr segs :
  0 <= ss ->
  Forall (fun seg => 0 <= data seg /\ 0 <= capacity seg) segs ->
  Forall (fun seg => ~ within ss seg addr) segs ->
  release ss addr segs = None.
Proof.
  intros Hss Hwf Hout. induction segs as [|seg rest IH]; [reflexivity|].
  inversion Hwf as [|? ? [Hd Hc] Hwf']; subst.
  inversion Hout as [|? ? Hn Hout']; subst. simpl.
  destruct (owns ss seg addr) eqn:E.
  - exfalso. apply Hn. apply owns_within; assumption.
  - rewrite IH by assumption. reflexivity.
Qed.
End FreeFlagsRelease.

(** C10: in the free-flags revision, [deallocate] called with a non-null pointer
    that lies in no segment's address range returns with the pool exactly as it was:
    no destructor call, no flag set, live count not decremented. *)
Theorem C10_foreign_pointer_is_ignored (Args : Type) (p : FreeFlags.Pool Args) (ptr : Z) :
  0 <= slot_size_ (FreeFlags.policy p) ->
  Forall (fun seg => 0 <= FreeFlags.data seg /\ 0 <= FreeFlags.capacity seg)
    (FreeFlags.segments_ p) ->
  ptr <> 0 ->
  Forall (fun seg => ~ FreeFlags.within (slot_size_ (FreeFlags.policy p)) seg ptr)
    (FreeFlags.segments_ p) ->
  FreeFlags.deallocate ptr p = p.
Proof.
  intros Hss Hwf Hnz Hout. unfold FreeFlags.deallocate.
  destruct (Z.eqb_spec ptr 0); [contradiction|].
  rewrite (release_foreign _ _ _ Hss Hwf Hout). reflexivity.
Qed.

Lemma C10_foreign_pointer_is_ignored_witness :
  let p := fst (FreeFlags.allocate [10; 20] (2 ^ 32) bullet_flags_pool) in
  FreeFlags.live p = 1 /\ FreeFlags.deallocate (2 ^ 32 + 12288) p = p.
Proof.
  split; [reflexivity|].
  apply (C10_foreign_pointer_is_ignored (list Z)
           (fst (FreeFlags.allocate [10; 20] (2 ^ 32) bullet_flags_pool)) (2 ^ 32 + 12288)).
  - discriminate.
  - set (segs := FreeFlags.segments_ _). vm_compute in segs. subst segs.
    repeat constructor; discriminate.
  - discriminate.
  - set (segs := FreeFlags.segments_ _). vm_compute in segs. subst segs.
    set (ss := slot_size_ _). vm_compute in ss. subst ss.
    constructor; [|constructor]. unfold FreeFlags.within. simpl. lia.
Defined.

(** * The stack revision: [clear] leaves [free_stack_] alone *)

(** C1, evaluated on the stack revision: create a [Bullet], recycle it, [clear] the
    pool, create again.  After [clear] there is no segment and no block, yet the
    address of the recycled slot is still on [free_stack_]; the next [allocate]
    returns it, a slot below no high-water mark.  If the system hands the released
    block out again for the segment the following [allocate] appends, that call
    returns the same address, for a second object alive at the same time. *)
Theorem C1_stack_clear_keeps_vacated_slots :
  let '(p1, a) := FreeStack.allocate [10; 20] (2 ^ 32) bullet_stack_pool in
  let p2 := FreeStack.deallocate a p1 in
  let p3 := FreeStack.clear p2 in
  let '(p4, b) := FreeStack.allocate [30; 40] (2 ^ 33) p3 in
  let '(p5, c) := FreeStack.allocate [50; 60] (2 ^ 32) p4 in
  a = 2 ^ 32 /\
  FreeStack.segments_ p3 = [] /\ blocks (FreeStack.mem p3) = ∅ /\
  FreeStack.free_stack_ p3 = [a] /\
  b = a /\ FreeStack.segments_ p4 = [] /\ blocks (FreeStack.mem p4) = ∅ /\
  object_at (FreeStack.mem p4) b = Some ([30; 40], false) /\
  c = b /\ FreeStack.live p5 = 2.
Proof. vm_compute. repeat split; reflexivity. Qed.

(** C2, evaluated on the stack revision: after create, recycle, [clear] the live
    count is 0 and there is no segment, so the high-water marks sum to 0, but the
    tracker still holds one vacant slot: 0 is not 0 - 1. *)
Theorem C2_stack_clear_breaks_live_count :
  let '(p1, a) := FreeStack.allocate [10; 20] (2 ^ 32) bullet_stack_pool in
  let p3 := FreeStack.clear (FreeStack.deallocate a p1) in
  FreeStack.live p3 = 0 /\
  FreeStack.high_water_total p3 = 0 /\
  Z.of_nat (length (FreeStack.vacant p3)) = 1 /\
  FreeStack.live p3 <>
    FreeStack.high_water_total p3 - Z.of_nat (length (FreeStack.vacant p3)).
Proof. vm_compute. repeat split; try reflexivity. discriminate. Qed.

(** * Conservation of the live count *)

Lemma wrap_add_l x y : wrap (wrap x + y) = wrap (x + y).
Proof. unfold wrap. apply Z.add_mod_idemp_l. discriminate. Qed.

Section FreeListCount.
Context {Args : Type} `{!Constructor Args}.
Implicit Types (p : FreeList.Pool Args) (o : FreeList.op Args).
Import FreeList.

Lemma claim_uninit_live args p p' a :
  claim_uninit args p = Some (p', a) -> live_count_ p' = wrap (live_count_ p + 1).
Proof.
  unfold claim_uninit. destruct (last (segments_ p)); simpl; [|discriminate].
  intros [= <- _]. reflexivity.
Qed.

Lemma allocate_live args raw p p' a :
  allocate args raw p = Some (p', a) -> live_count_ p' = wrap (live_count_ p + 1).
Proof.
  unfold allocate. destruct (negb (free_list_ p =? 0)).
  - destruct (cells (mem p) !! free_list_ p) as [[| |next]|]; try discriminate.
    intros [= <- _]. reflexivity.
  - destruct (last_has_room p); intros H; apply claim_uninit_live in H; exact H.
Qed.

Lemma deallocate_live ptr p :
  live_count_ (deallocate ptr p)
  = if ptr =? 0 then live_count_ p else wrap (live_count_ p - 1).
Proof. unfold deallocate. destruct (ptr =? 0); reflexivity. Qed.

Lemma count_cons (f : op Args -> bool) o (ops : list (op Args)) :
  count f (o :: ops) = (if f o then 1 else 0) + count f ops.
Proof.
  unfold count. rewrite filter_cons.
  case_decide as H; destruct (f o); try congruence; simpl length; lia.
Qed.

Lemma since_clear_id (ops : list (op Args)) :
  existsb is_clear ops = false -> since_clear ops = ops.
Proof. destruct ops as [|o rest]; [reflexivity|]. intros H. simpl in *. now rewrite H. Qed.

Lemma step_live o p p' r :
  in_size_t (live_count_ p) ->
  step o p = Some (p', r) ->
  live_count_ p' =
    if is_clear o then 0
    else wrap (live_count_ p + (if is_allocate o then 1 else 0)
               - (if is_effective_deallocate o then 1 else 0)).
Proof.
  intros Hr. destruct o as [args raw|ptr|]; simpl.
  - destruct (allocate args raw p) as [[q a]|] eqn:E; simpl; [|discriminate].
    intros [= <- _]. rewrite (allocate_live _ _ _ _ _ E). f_equal. lia.
  - intros [= <- _]. rewrite deallocate_live.
    destruct (ptr =? 0); simpl; [|f_equal; lia].
    rewrite Z.add_0_r, Z.sub_0_r. symmetry. apply wrap_small. exact Hr.
  - intros [= <- _]. reflexivity.
Qed.

Lemma step_live_range o p p' r :
  in_size_t (live_count_ p) -> step o p = Some (p', r) -> in_size_t (live_count_ p').
Proof.
  intros Hr Hs. rewrite (step_live _ _ _ _ Hr Hs).
  destruct (is_clear o); [split; [lia | reflexivity] | apply wrap_range].
Qed.

(** The live count after a call sequence, from the calls made since the last
    [clear]. *)
Lemma exec_live (ops : list (op Args)) : forall p p',
  in_size_t (live_count_ p) ->
  exec ops p = Some p' ->
  live_count_ p' =
    wrap ((if existsb is_clear ops then 0 else live_count_ p)
          + count is_allocate (since_clear ops)
          - count is_effective_deallocate (since_clear ops)).
Proof.
  induction ops as [|o rest IH]; intros p p' Hr Hexec.
  - simpl in *. injection Hexec as <-. unfold count. simpl.
    rewrite Z.add_0_r, Z.sub_0_r. symmetry. apply wrap_small. exact Hr.
  - cbn [exec] in Hexec.
    destruct (step o p) as [[p1 r]|] eqn:Hstep; simpl in Hexec; [|discriminate].
    pose proof (step_live _ _ _ _ Hr Hstep) as Hlive.
    pose proof (step_live_range _ _ _ _ Hr Hstep) as Hr1.
    rewrite (IH p1 p' Hr1 Hexec).
    cbn [since_clear existsb].
    destruct (existsb is_clear rest) eqn:Hcl.
    + rewrite orb_true_r. reflexivity.
    + rewrite orb_false_r, (since_clear_id rest Hcl).
      destruct (is_clear o) eqn:Ho.
      * rewrite Hlive. reflexivity.
      * rewrite !count_cons, Hlive, <- Z.add_sub_assoc, wrap_add_l.
        f_equal. lia.
Qed.
End FreeListCount.

Lemma exec_run {Args : Type} `{!Constructor Args}
    (ops : list (FreeList.op Args)) (p : FreeList.Pool Args) :
  FreeList.completes ops p = true -> FreeList.exec ops p = Some (FreeList.run ops p).
Proof.
  unfold FreeList.completes, FreeList.run.
  destruct (FreeList.exec ops p); [reflexivity | discriminate].
Qed.

(** C7, as the code has it: in single-threaded use, after any sequence of calls,
    [live()] is the number of [allocate] calls minus the number of [deallocate]
    calls with a non-null pointer made since the last [clear] (or since
    construction), as a [size_t]; a [deallocate] call with a null pointer does not
    count. *)
Theorem C7_live_count_conservation (Args : Type) `{!Constructor Args}
    (os_page sizeof_T alignof_T min_pages : Z) (growth : Growth)
    (ops : list (FreeList.op Args)) (p : FreeList.Pool Args) :
  FreeList.exec ops (FreeList.make os_page sizeof_T alignof_T min_pages growth) = Some p ->
  FreeList.live p =
    wrap (FreeList.count FreeList.is_allocate (FreeList.since_clear ops)
          - FreeList.count FreeList.is_effective_deallocate (FreeList.since_clear ops)).
Proof.
  intros Hexec. unfold FreeList.live.
  assert (Hr : in_size_t (FreeList.live_count_
                 (@FreeList.make Args os_page sizeof_T alignof_T min_pages growth)))
    by (split; [simpl; lia | reflexivity]).
  rewrite (exec_live ops _ _ Hr Hexec).
  simpl FreeList.live_count_. destruct (existsb FreeList.is_clear ops); reflexivity.
Qed.

Lemma C7_live_count_conservation_witness :
  let ops := [FreeList.Allocate [10; 20] (2 ^ 32); FreeList.Allocate [] 0;
              FreeList.Deallocate (2 ^ 32); FreeList.Clear;
              FreeList.Allocate [50; 60] (2 ^ 32); FreeList.Allocate [] 0;
              FreeList.Allocate [] 0; FreeList.Deallocate 0;
              FreeList.Deallocate (2 ^ 32 + 24)] in
  FreeList.exec ops (bullet_pool 0 growth_one)
    = Some (FreeList.run ops (bullet_pool 0 growth_one)) /\
  FreeList.live (FreeList.run ops (bullet_pool 0 growth_one)) = wrap (3 - 1).
Proof.
  intros ops.
  assert (E : FreeList.exec ops (bullet_pool 0 growth_one)
              = Some (FreeList.run ops (bullet_pool 0 growth_one)))
    by (apply exec_run; vm_compute; reflexivity).
  split; [exact E|].
  exact (C7_live_count_conservation (list Z) 4096 24 8 0 growth_one ops _ E).
Defined.

(** C7 as stated fails on a [deallocate] call with a null pointer, which the pool
    accepts and ignores: after one [allocate] and one [deallocate(nullptr)] the live
    count is 1, not 1 - 1. *)
Lemma C7_counterexample :
  let ops := [FreeList.Allocate [10; 20] (2 ^ 32); FreeList.Deallocate 0] in
  FreeList.live <$> FreeList.exec ops (bullet_pool 0 growth_one) = Some 1 /\
  FreeList.count FreeList.is_allocate ops - FreeList.count FreeList.is_deallocate ops = 0.
Proof. split; vm_compute; reflexivity. Qed.

(** The page count [add_segment_] settles on, when the step stays inside [size_t]. *)
Lemma next_pages_spec pol (no_segments : bool) hint :
  0 < page_size_ pol -> 0 < pages_per_segment_base_ pol -> 0 <= hint ->
  segment_fits pol no_segments hint ->
  let n := next_pages pol no_segments hint in
  0 < n /\ (pages_per_segment_base_ pol | n) /\ n * page_size_ pol < SIZE_MOD /\
  (no_segments = false -> hint + pages_per_segment_base_ pol <= n).
Proof.
  intros Hps Hb Hh Hfit n. subst n. unfold next_pages, segment_fits in *.
  destruct no_segments.
  - repeat split; [lia | exists 1; lia | exact Hfit | discriminate].
  - assert (Hgf : growth_fits pol hint) by (unfold growth_fits; nia).
    pose proof (grown_pages_spec pol hint Hb Hh Hgf) as Hg.
    cbv zeta in Hg. destruct Hg as (Hge & _ & Hlt & Hmul).
    repeat split; [lia | exact Hmul | nia | intros _; lia].
Qed.
(** * The free-list pool keeps its invariant *)

Section MemoryFacts.
Context {Args : Type} `{!Constructor Args}.
Implicit Types m : Memory Args.

Lemma cells_construct a args m :
  cells (mark_in_use a (placement_new a args m)) = <[a := Live args false]> (cells m).
Proof.
  unfold mark_in_use, placement_new, set_cell. simpl.
  rewrite lookup_insert_eq. simpl. apply insert_insert_eq.
Qed.

Lemma blocks_construct a args m :
  blocks (mark_in_use a (placement_new a args m)) = blocks m.
Proof.
  unfold mark_in_use, placement_new, set_cell. simpl.
  rewrite lookup_insert_eq. reflexivity.
Qed.

Lemma destroyed_construct a args m :
  destroyed (mark_in_use a (placement_new a args m)) = destroyed m.
Proof.
  unfold mark_in_use, placement_new, set_cell. simpl.
  rewrite lookup_insert_eq. reflexivity.
Qed.

Lemma object_at_construct a args m :
  object_at (mark_in_use a (placement_new a args m)) a = Some (args, false).
Proof. unfold object_at. rewrite cells_construct, lookup_insert_eq. reflexivity. Qed.

End MemoryFacts.

Lemma slot_addr_exact ss d i cap :
  0 < ss -> 0 < d -> 0 <= i < cap -> d + cap * ss <= SIZE_MOD ->
  slot_addr ss d i = d + i * ss.
Proof.
  intros Hss Hd Hi Hfit. unfold slot_addr.
  rewrite (wrap_small (i * ss)) by nia. apply wrap_small. nia.
Qed.

Lemma bump_last_snoc l seg :
  bump_last (l ++ [seg]) =
    l ++ [{| data := data seg; capacity := capacity seg;
             next_uninit := wrap (next_uninit seg + 1) |}].
Proof.
  unfold bump_last. rewrite last_snoc, length_app. simpl length.
  replace (pred (length l + 1)) with (length l + 0)%nat by lia.
  rewrite insert_app_r. reflexivity.
Qed.

Section FreeListInvariant.
Context {Args : Type} `{!Constructor Args}.
Import FreeList.
Implicit Types (p : Pool Args) (m : Memory Args) (seg : Segment).

Lemma seg_ok_blocks ss m m' seg :
  blocks m' = blocks m -> seg_ok ss m seg -> seg_ok ss m' seg.
Proof. unfold seg_ok. intros ->. tauto. Qed.

Lemma make_wf os_page sizeof_T alignof_T min_pages growth :
  params_fit os_page sizeof_T alignof_T min_pages ->
  wf (@make Args os_page sizeof_T alignof_T min_pages growth).
Proof.
  intros Hfit.
  pose proof (make_policy_spec os_page sizeof_T alignof_T min_pages growth Hfit) as Hpol.
  cbv zeta in Hpol. destruct Hpol as (Hps & Hptr & _ & _ & Hb & _ & Hdiv).
  unfold sizeof_ptr in Hptr.
  split; simpl policy; simpl segments_; simpl next_pages_hint_; try assumption; try lia.
  - constructor.
  - intros i j s s' H. rewrite lookup_nil in H. discriminate.
  - intros d b H. simpl in H. rewrite lookup_empty in H. discriminate.
  - intros a c H. simpl in H. rewrite lookup_empty in H. discriminate.
  - exists []. simpl. repeat split; [constructor|].
    intros a next H. rewrite lookup_empty in H. discriminate.
Qed.

(** A slot address determines its segment and index. *)
Lemma used_slot_unique p l seg a i :
  wf p -> segments_ p = l ++ [seg] ->
  0 <= i < capacity seg ->
  a = data seg + i * slot_size_ (policy p) ->
  used_slot (slot_size_ (policy p)) (segments_ p) a ->
  i < next_uninit seg.
Proof.
  intros Hwf Hsegs Hi Ha (seg0 & i0 & Hin & Hi0 & Ha0).
  pose proof (wf_slot p Hwf) as Hss.
  pose proof (wf_segments p Hwf) as Hok. rewrite Forall_forall in Hok.
  rewrite Hsegs in Hin. apply elem_of_app in Hin as [Hin|Hin].
  - exfalso. apply list_elem_of_lookup in Hin as [k Hk].
    pose proof (lookup_lt_Some _ _ _ Hk) as Hlt.
    assert (Hapart : apart (slot_size_ (policy p)) seg0 seg).
    { apply (wf_apart p Hwf k (length l)); rewrite ?Hsegs.
      - rewrite lookup_app_l by exact Hlt. exact Hk.
      - rewrite lookup_app_r by lia. rewrite Nat.sub_diag. reflexivity.
      - lia. }
    assert (Hok0 : seg_ok (slot_size_ (policy p)) (mem p) seg0).
    { apply Hok. rewrite Hsegs. apply elem_of_app. left.
      apply list_elem_of_lookup. eauto. }
    destruct Hok0 as (_ & Hhw0 & _ & _ & _).
    unfold apart in Hapart. nia.
  - apply list_elem_of_singleton in Hin. subst seg0. nia.
Qed.

Lemma snoc_same_extent l seg seg' s (i : nat) :
  data seg' = data seg -> capacity seg' = capacity seg ->
  (l ++ [seg']) !! i = Some s ->
  exists s0, (l ++ [seg]) !! i = Some s0 /\ data s0 = data s /\ capacity s0 = capacity s.
Proof.
  intros Hd Hc H. apply lookup_app_Some in H as [H|[Hge H]].
  - exists s. rewrite lookup_app_l by (eapply lookup_lt_Some; exact H). auto.
  - exists seg. rewrite lookup_app_r by exact Hge.
    destruct (i - length l)%nat; simpl in *; [|rewrite lookup_nil in H; discriminate].
    injection H as <-. auto.
Qed.

Lemma snoc_raised l seg seg' s :
  data seg' = data seg -> capacity seg' = capacity seg ->
  next_uninit seg <= next_uninit seg' ->
  s ∈ l ++ [seg] ->
  exists s', s' ∈ l ++ [seg'] /\ data s' = data s /\ next_uninit s <= next_uninit s'.
Proof.
  intros Hd Hc Hn H. apply elem_of_app in H as [H|H].
  - exists s. split; [apply elem_of_app; auto | split; [reflexivity | lia]].
  - apply list_elem_of_singleton in H. subst s. exists seg'.
    split; [apply elem_of_app; right; apply list_elem_of_singleton; reflexivity | auto].
Qed.

Lemma chain_insert_other (cs : gmap Z (cell Args)) a c head l :
  a ∉ l -> chain cs head l -> chain (<[a := c]> cs) head l.
Proof.
  revert head. induction l as [|b l IH]; intros head Hnot Hch; [exact Hch|].
  destruct Hch as (-> & Hnz & next & Hnext & Hrest).
  apply not_elem_of_cons in Hnot as [Hne Hnot].
  split; [reflexivity|]. split; [exact Hnz|]. exists next. split.
  - rewrite lookup_insert_ne by congruence. exact Hnext.
  - apply IH; assumption.
Qed.

Lemma chain_nodes (cs : gmap Z (cell Args)) head l a :
  chain cs head l -> a ∈ l -> exists next, cs !! a = Some (Node next).
Proof.
  revert head. induction l as [|b l IH]; intros head Hch Hin.
  - apply elem_of_nil in Hin. contradiction.
  - destruct Hch as (-> & _ & next & Hnext & Hrest).
    apply elem_of_cons in Hin as [->|Hin]; [eauto | eapply IH; eauto].
Qed.

(** Taking the slot at the high-water mark of the newest segment. *)
Lemma claim_uninit_wf args p l seg :
  wf p -> segments_ p = l ++ [seg] -> next_uninit seg < capacity seg ->
  let a := data seg + next_uninit seg * slot_size_ (policy p) in
  let p' :=
    {| segments_ :=
         l ++ [{| data := data seg; capacity := capacity seg;
                  next_uninit := next_uninit seg + 1 |}];
       free_list_ := free_list_ p;
       policy := policy p;
       next_pages_hint_ := next_pages_hint_ p;
       live_count_ := wrap (live_count_ p + 1);
       mem := mark_in_use a (placement_new a args (mem p)) |} in
  cells (mem p) !! a = None /\ claim_uninit args p = Some (p', a) /\ wf p'.
Proof.
  intros Hwf Hsegs Hroom a p'.
  pose proof (wf_slot p Hwf) as Hss.
  pose proof (wf_segments p Hwf) as Hok.
  assert (Hseg : seg_ok (slot_size_ (policy p)) (mem p) seg).
  { rewrite Forall_forall in Hok. apply Hok. rewrite Hsegs.
    apply elem_of_app. right. apply list_elem_of_singleton. reflexivity. }
  destruct Hseg as (Hd & Hhw & Hcap & Hfit & Hblk).
  assert (Hnone : cells (mem p) !! a = None).
  { destruct (cells (mem p) !! a) as [c|] eqn:E; [|reflexivity]. exfalso.
    destruct (wf_cells p Hwf a c E) as [_ Hused].
    pose proof (used_slot_unique p l seg a (next_uninit seg) Hwf Hsegs
                  ltac:(lia) eq_refl Hused). lia. }
  split; [exact Hnone|]. split.
  - unfold claim_uninit. rewrite Hsegs, last_snoc. simpl.
    rewrite (slot_addr_exact _ _ _ (capacity seg)) by lia.
    rewrite bump_last_snoc, (wrap_small (next_uninit seg + 1)) by nia.
    reflexivity.
  - destruct (wf_free p Hwf) as (fl & Hchain & Hnodup & Hall).
    subst p'.
    split; simpl policy; simpl segments_; simpl next_pages_hint_; simpl free_list_;
      simpl mem; try (apply Hwf).
    + rewrite Hsegs in Hok. apply Forall_app in Hok as [Hl _].
      apply Forall_app. split.
      * eapply Forall_impl; [exact Hl|]. intros s Hs.
        eapply seg_ok_blocks; [|exact Hs]. apply blocks_construct.
      * constructor; [|constructor]. unfold seg_ok. simpl.
        rewrite blocks_construct. repeat split; try lia. exact Hblk.
    + intros i j s s' Hi Hj Hne.
      destruct (snoc_same_extent l seg
                  {| data := data seg; capacity := capacity seg;
                     next_uninit := next_uninit seg + 1 |} s i eq_refl eq_refl Hi)
        as (s0 & Hi0 & Hd0 & Hc0).
      destruct (snoc_same_extent l seg
                  {| data := data seg; capacity := capacity seg;
                     next_uninit := next_uninit seg + 1 |} s' j eq_refl eq_refl Hj)
        as (s1 & Hj0 & Hd1 & Hc1).
      rewrite <- Hsegs in Hi0, Hj0.
      pose proof (wf_apart p Hwf i j s0 s1 Hi0 Hj0 Hne) as Hap.
      unfold apart in *. rewrite <- Hd0, <- Hc0, <- Hd1, <- Hc1. exact Hap.
    + intros d b Hb. rewrite blocks_construct in Hb.
      destruct (wf_blocks p Hwf d b Hb) as (s & Hin & Hds). rewrite Hsegs in Hin.
      destruct (snoc_raised l seg
                  {| data := data seg; capacity := capacity seg;
                     next_uninit := next_uninit seg + 1 |} s eq_refl eq_refl
                  ltac:(simpl; lia) Hin) as (s' & Hin' & Hd' & _).
      exists s'. split; [exact Hin' | congruence].
    + intros b c Hc. rewrite cells_construct in Hc.
      destruct (decide (b = a)) as [->|Hne].
      * rewrite lookup_insert_eq in Hc. injection Hc as <-. split; [discriminate|].
        exists {| data := data seg; capacity := capacity seg;
                  next_uninit := next_uninit seg + 1 |}, (next_uninit seg).
        split; [apply elem_of_app; right; apply list_elem_of_singleton; reflexivity|].
        simpl. split; [lia | reflexivity].
      * rewrite lookup_insert_ne in Hc by congruence.
        destruct (wf_cells p Hwf b c Hc) as [Hdead (s & i & Hin & Hi & Hb)].
        split; [exact Hdead|]. rewrite Hsegs in Hin.
        destruct (snoc_raised l seg
                    {| data := data seg; capacity := capacity seg;
                       next_uninit := next_uninit seg + 1 |} s eq_refl eq_refl
                    ltac:(simpl; lia) Hin) as (s' & Hin' & Hd' & Hn').
        exists s', i. split; [exact Hin'|]. split; [lia | congruence].
    + exists fl. rewrite cells_construct. split; [|split; [exact Hnodup|]].
      * apply chain_insert_other; [|exact Hchain].
        intros Hin. destruct (chain_nodes _ _ _ _ Hchain Hin) as [next Hn]. congruence.
      * intros b next Hb. destruct (decide (b = a)) as [->|Hne].
        -- rewrite lookup_insert_eq in Hb. discriminate.
        -- rewrite lookup_insert_ne in Hb by congruence. eapply Hall; exact Hb.
Qed.

Lemma used_slot_snoc ss segs seg a :
  used_slot ss segs a -> used_slot ss (segs ++ [seg]) a.
Proof.
  intros (s & i & Hin & Hi & Ha). exists s, i.
  split; [apply elem_of_app; auto | auto].
Qed.

(** Appending a segment. *)
Lemma add_segment_wf raw p :
  wf p ->
  segment_fits (policy p) (bool_decide (segments_ p = [])) (next_pages_hint_ p) ->
  fresh_block (mem p) raw (upcoming_bytes p) ->
  let cap := seg_capacity (policy p)
               (next_pages (policy p) (bool_decide (segments_ p = []))
                  (next_pages_hint_ p)) in
  wf (add_segment_ raw p) /\ 0 < cap /\
  upcoming_bytes p = slot_size_ (policy p) * cap /\
  (page_size_ (policy p) | cap * slot_size_ (policy p)).
Proof.
  intros Hwf Hfit (Hraw & Hspace & Hfresh) cap.
  pose proof (wf_page p Hwf) as Hps. pose proof (wf_slot p Hwf) as Hss.
  pose proof (wf_base p Hwf) as Hb. pose proof (wf_hint p Hwf) as Hh.
  pose proof (next_pages_spec (policy p) _ _ Hps Hb Hh Hfit) as Hn. cbv zeta in Hn.
  set (n := next_pages (policy p) (bool_decide (segments_ p = [])) (next_pages_hint_ p))
    in *.
  destruct Hn as (Hn0 & Hmul & Hbytes & _).
  destruct (seg_capacity_exact (policy p) n) as (Hsb & Hexact & Hpage);
    [lia | lia | apply Hwf | exact Hmul | lia | exact Hbytes |].
  fold cap in Hexact, Hpage. unfold upcoming_bytes in *. fold n in Hspace, Hfresh |- *.
  assert (Hcap : 0 < cap) by nia.
  split; [|repeat split; [exact Hcap | lia | exact Hpage]].
  pose proof (wf_segments p Hwf) as Hok. rewrite Forall_forall in Hok.
  assert (Hold : forall s, s ∈ segments_ p ->
            raw + seg_bytes (policy p) n <= data s \/
            data s + capacity s * slot_size_ (policy p) <= raw).
  { intros s Hs. destruct (Hok s Hs) as (_ & _ & _ & _ & Hblk). exact (Hfresh _ _ Hblk). }
  split; simpl policy; simpl segments_; simpl next_pages_hint_; simpl free_list_;
    simpl mem; try (apply Hwf).
  - fold n. lia.
  - apply Forall_app. split.
    + apply Forall_forall. intros s Hs.
      destruct (Hok s Hs) as (H1 & H2 & H3 & H4 & H5).
      unfold seg_ok. simpl. repeat split; try assumption; try lia.
      rewrite lookup_insert_ne; [exact H5|]. specialize (Hold s Hs). nia.
    + constructor; [|constructor]. unfold seg_ok. simpl. fold n cap.
      rewrite lookup_insert_eq. repeat split; try lia. f_equal. lia.
  - intros i j s s' Hi Hj Hne. fold n cap in Hi, Hj.
    apply lookup_app_Some in Hi as [Hi|[Hgi Hi]];
      apply lookup_app_Some in Hj as [Hj|[Hgj Hj]].
    + exact (wf_apart p Hwf i j s s' Hi Hj Hne).
    + destruct (j - length (segments_ p))%nat;
        [|simpl in Hj; rewrite lookup_nil in Hj; discriminate].
      injection Hj as <-. unfold apart. simpl.
      assert (Hs : s ∈ segments_ p) by (apply list_elem_of_lookup; eauto).
      specialize (Hold s Hs). lia.
    + destruct (i - length (segments_ p))%nat;
        [|simpl in Hi; rewrite lookup_nil in Hi; discriminate].
      injection Hi as <-. unfold apart. simpl.
      assert (Hs : s' ∈ segments_ p) by (apply list_elem_of_lookup; eauto).
      specialize (Hold s' Hs). lia.
    + exfalso.
      destruct (i - length (segments_ p))%nat eqn:Ei;
        [|simpl in Hi; rewrite lookup_nil in Hi; discriminate].
      destruct (j - length (segments_ p))%nat eqn:Ej;
        [|simpl in Hj; rewrite lookup_nil in Hj; discriminate].
      lia.
  - intros d b Hd. simpl in Hd. destruct (decide (d = raw)) as [->|Hne].
    + exists (new_segment raw cap). split; [|reflexivity].
      apply elem_of_app. right. apply list_elem_of_singleton. reflexivity.
    + rewrite lookup_insert_ne in Hd by congruence.
      destruct (wf_blocks p Hwf d b Hd) as (s & Hs & Hds).
      exists s. split; [apply elem_of_app; auto | exact Hds].
  - intros a c Hc. simpl in Hc. destruct (wf_cells p Hwf a c Hc) as [Hdead Hused].
    split; [exact Hdead | apply used_slot_snoc; exact Hused].
Qed.

(** Reusing the head of the free list. *)
Lemma allocate_reuse_wf args raw p :
  wf p -> free_list_ p <> 0 ->
  exists next,
    cells (mem p) !! free_list_ p = Some (Node next) /\
    let p' :=
      {| segments_ := segments_ p;
         free_list_ := next;
         policy := policy p;
         next_pages_hint_ := next_pages_hint_ p;
         live_count_ := wrap (live_count_ p + 1);
         mem := mark_in_use (free_list_ p) (placement_new (free_list_ p) args (mem p)) |} in
    allocate args raw p = Some (p', free_list_ p) /\ wf p'.
Proof.
  intros Hwf Hhead.
  destruct (wf_free p Hwf) as (fl & Hchain & Hnodup & Hall).
  destruct fl as [|a fl]; [simpl in Hchain; contradiction|].
  destruct Hchain as (-> & _ & next & Hnext & Hrest).
  apply NoDup_cons in Hnodup as [Hnotin Hnodup].
  exists next. split; [exact Hnext|]. cbv zeta. split.
  - unfold allocate. destruct (Z.eqb_spec (free_list_ p) 0); [contradiction|].
    simpl. rewrite Hnext. reflexivity.
  - pose proof (wf_segments p Hwf) as Hok.
    split; simpl policy; simpl segments_; simpl next_pages_hint_; simpl free_list_;
      simpl mem; try (apply Hwf).
    + eapply Forall_impl; [exact Hok|]. intros s Hs.
      eapply seg_ok_blocks; [|exact Hs]. apply blocks_construct.
    + intros d b Hb. rewrite blocks_construct in Hb. exact (wf_blocks p Hwf d b Hb).
    + intros b c Hc. rewrite cells_construct in Hc.
      destruct (decide (b = free_list_ p)) as [->|Hne].
      * rewrite lookup_insert_eq in Hc. injection Hc as <-. split; [discriminate|].
        exact (proj2 (wf_cells p Hwf _ _ Hnext)).
      * rewrite lookup_insert_ne in Hc by congruence. exact (wf_cells p Hwf b c Hc).
    + exists fl. rewrite cells_construct. split; [|split; [exact Hnodup|]].
      * apply chain_insert_other; assumption.
      * intros b nx Hb. destruct (decide (b = free_list_ p)) as [->|Hne].
        -- rewrite lookup_insert_eq in Hb. discriminate.
        -- rewrite lookup_insert_ne in Hb by congruence.
           pose proof (Hall b nx Hb) as Hin.
           apply elem_of_cons in Hin as [->|Hin]; [contradiction | exact Hin].
Qed.

Lemma last_has_room_true p :
  last_has_room p = true ->
  exists l seg, segments_ p = l ++ [seg] /\ next_uninit seg < capacity seg.
Proof.
  unfold last_has_room. destruct (last (segments_ p)) as [seg|] eqn:E; [|discriminate].
  intros H. apply Z.ltb_lt in H. apply last_Some in E as [l ->]. eauto.
Qed.

(** [allocate] returns and keeps the invariant, on every call the contract allows. *)
Lemma allocate_wf args raw p :
  wf p -> admissible (Allocate args raw) p ->
  exists p' a, allocate args raw p = Some (p', a) /\ wf p'.
Proof.
  intros Hwf Hadm. destruct (decide (free_list_ p = 0)) as [Hnil|Hhead].
  - unfold allocate. rewrite Hnil. simpl.
    destruct (last_has_room p) eqn:Hroom.
    + destruct (last_has_room_true p Hroom) as (l & seg & Hsegs & Hlt).
      destruct (claim_uninit_wf args p l seg Hwf Hsegs Hlt) as (_ & Hclaim & Hwf').
      eauto.
    + simpl in Hadm. unfold needs_growth in Hadm. rewrite Hnil, Hroom in Hadm.
      destruct (Hadm eq_refl) as [Hfit Hfresh].
      destruct (add_segment_wf raw p Hwf Hfit Hfresh) as (Hwf1 & Hcap & _).
      destruct (claim_uninit_wf args (add_segment_ raw p) (segments_ p)
                  (new_segment raw _) Hwf1 eq_refl Hcap) as (_ & Hclaim & Hwf').
      eauto.
  - destruct (allocate_reuse_wf args raw p Hwf Hhead) as (next & _ & Halloc & Hwf').
    eauto.
Qed.

(** Returning a live object. *)
Lemma deallocate_wf ptr p :
  wf p -> is_Some (object_at (mem p) ptr) -> wf (deallocate ptr p).
Proof.
  intros Hwf [[a r] Hobj]. unfold object_at in Hobj.
  destruct (cells (mem p) !! ptr) as [[a' r'| |n]|] eqn:Hcell; try discriminate.
  unfold deallocate. destruct (Z.eqb_spec ptr 0) as [_|Hnz]; [exact Hwf|].
  destruct (wf_free p Hwf) as (fl & Hchain & Hnodup & Hall).
  assert (Hnotin : ptr ∉ fl).
  { intros Hin. destruct (chain_nodes _ _ _ _ Hchain Hin) as [next Hn]. congruence. }
  assert (Hcells : cells (set_cell ptr (Node (free_list_ p)) (destroy ptr (mem p)))
                   = <[ptr := Node (free_list_ p)]> (cells (mem p))).
  { unfold set_cell, destroy. simpl. apply insert_insert_eq. }
  split; simpl policy; simpl segments_; simpl next_pages_hint_; simpl free_list_;
    simpl mem; try (apply Hwf).
  - intros b c Hc. rewrite Hcells in Hc.
    destruct (decide (b = ptr)) as [->|Hne].
    + rewrite lookup_insert_eq in Hc. injection Hc as <-. split; [discriminate|].
      exact (proj2 (wf_cells p Hwf _ _ Hcell)).
    + rewrite lookup_insert_ne in Hc by congruence. exact (wf_cells p Hwf b c Hc).
  - exists (ptr :: fl). rewrite Hcells. split; [|split].
    + simpl. split; [reflexivity|]. split; [exact Hnz|].
      exists (free_list_ p). split; [apply lookup_insert_eq|].
      apply chain_insert_other; assumption.
    + apply NoDup_cons. split; assumption.
    + intros b nx Hb. destruct (decide (b = ptr)) as [->|Hne].
      * apply elem_of_cons. left. reflexivity.
      * rewrite lookup_insert_ne in Hb by congruence.
        apply elem_of_cons. right. eapply Hall; exact Hb.
Qed.

(** [clear]: every block goes, and every slot with it. *)
Lemma operator_delete_blocks (m : Memory Args) d d' b :
  blocks (operator_delete d m) !! d' = Some b -> blocks m !! d' = Some b /\ d' <> d.
Proof.
  unfold operator_delete. destruct (blocks m !! d) as [bytes|] eqn:E; simpl.
  - intros H. apply lookup_delete_Some in H as [Hne H]. auto.
  - intros H. split; [exact H | congruence].
Qed.

Lemma release_all_blocks (segs : list Segment) : forall (m : Memory Args) d b,
  blocks (foldl (fun m seg => operator_delete (data seg) m) m segs) !! d = Some b ->
  blocks m !! d = Some b /\ forall seg, seg ∈ segs -> data seg <> d.
Proof.
  induction segs as [|s rest IH]; intros m d b H; simpl in H.
  - split; [exact H|]. intros seg Hin. apply elem_of_nil in Hin. contradiction.
  - apply IH in H as [H Hrest]. apply operator_delete_blocks in H as [H Hne].
    split; [exact H|]. intros seg Hin.
    apply elem_of_cons in Hin as [->|Hin]; [congruence | auto].
Qed.

Lemma release_all_cells ss (segs : list Segment) : forall (m : Memory Args) a c,
  NoDup (data <$> segs) ->
  Forall (fun seg => blocks m !! data seg = Some (capacity seg * ss)) segs ->
  cells (foldl (fun m seg => operator_delete (data seg) m) m segs) !! a = Some c ->
  cells m !! a = Some c /\
  forall seg, seg ∈ segs -> outside (data seg) (capacity seg * ss) a.
Proof.
  induction segs as [|s rest IH]; intros m a c Hnd Hblk H; simpl in H.
  - split; [exact H|]. intros seg Hin. apply elem_of_nil in Hin. contradiction.
  - rewrite fmap_cons in Hnd. apply NoDup_cons in Hnd as [Hnotin Hnd].
    apply Forall_cons in Hblk as [Hs Hblk].
    assert (Hdel : operator_delete (data s) m =
                   {| cells := filter (fun kv => outside (data s) (capacity s * ss) (fst kv))
                                 (cells m);
                      blocks := delete (data s) (blocks m);
                      destroyed := destroyed m |}).
    { unfold operator_delete. rewrite Hs. reflexivity. }
    apply IH in H as [H Hrest]; [|exact Hnd|].
    + rewrite Hdel in H. simpl in H. apply map_lookup_filter_Some in H as [H Hout].
      split; [exact H|]. intros seg Hin.
      apply elem_of_cons in Hin as [->|Hin]; [exact Hout | auto].
    + rewrite Hdel. simpl. apply Forall_forall. intros seg Hin.
      rewrite Forall_forall in Hblk. rewrite lookup_delete_ne; [auto|].
      intros E. apply Hnotin. rewrite E. apply list_elem_of_fmap. eauto.
Qed.

Lemma segments_distinct p : wf p -> NoDup (data <$> segments_ p).
Proof.
  intros Hwf. apply NoDup_alt. intros i j d Hi Hj.
  rewrite list_lookup_fmap in Hi, Hj.
  destruct (segments_ p !! i) as [s|] eqn:Ei; [|discriminate].
  destruct (segments_ p !! j) as [s'|] eqn:Ej; [|discriminate].
  simpl in Hi, Hj. injection Hi as Hi. injection Hj as Hj.
  destruct (decide (i = j)) as [|Hne]; [assumption|exfalso].
  pose proof (wf_apart p Hwf i j s s' Ei Ej Hne) as Hap.
  pose proof (wf_segments p Hwf) as Hok. rewrite Forall_forall in Hok.
  pose proof (wf_slot p Hwf) as Hss.
  destruct (Hok s ltac:(apply list_elem_of_lookup; eauto)) as (_ & _ & Hc & _).
  destruct (Hok s' ltac:(apply list_elem_of_lookup; eauto)) as (_ & _ & Hc' & _).
  unfold apart in Hap. nia.
Qed.

Lemma clear_memory_empty p :
  wf p -> cells (mem (clear p)) = ∅ /\ blocks (mem (clear p)) = ∅.
Proof.
  intros Hwf. pose proof (wf_slot p Hwf) as Hss.
  pose proof (wf_segments p Hwf) as Hok.
  split; apply map_empty; intros k; simpl.
  - match goal with |- ?x = None => destruct x as [c|] eqn:E end; [exfalso|reflexivity].
    apply (release_all_cells (slot_size_ (policy p))) in E as [Hc Hout].
    + destruct (wf_cells p Hwf k c Hc) as [_ (s & i & Hin & Hi & Hk)].
      rewrite Forall_forall in Hok. destruct (Hok s Hin) as (_ & Hhw & _).
      apply (Hout s Hin). nia.
    + apply segments_distinct. exact Hwf.
    + eapply Forall_impl; [exact Hok|]. intros s (_ & _ & _ & _ & Hb). exact Hb.
  - match goal with |- ?x = None => destruct x as [b|] eqn:E end; [exfalso|reflexivity].
    apply release_all_blocks in E as [Hb Hnone].
    destruct (wf_blocks p Hwf k b Hb) as (s & Hin & Hd). exact (Hnone s Hin Hd).
Qed.

Lemma clear_wf p : wf p -> wf (clear p).
Proof.
  intros Hwf. destruct (clear_memory_empty p Hwf) as [Hcells Hblocks].
  pose proof (wf_base p Hwf) as Hb.
  unfold clear in *. simpl in Hcells, Hblocks.
  split; simpl; try (apply Hwf).
  - lia.
  - constructor.
  - intros i j s s' H. rewrite lookup_nil in H. discriminate.
  - intros d b H. rewrite Hblocks, lookup_empty in H. discriminate.
  - intros a c H. rewrite Hcells, lookup_empty in H. discriminate.
  - exists []. simpl. repeat split; [constructor|].
    intros a next H. rewrite Hcells, lookup_empty in H. discriminate.
Qed.

(** Every state the contract leads to satisfies the invariant. *)
Lemma step_wf o p p' r : wf p -> admissible o p -> step o p = Some (p', r) -> wf p'.
Proof.
  intros Hwf Hadm Hstep. destruct o as [args raw|ptr|]; simpl in Hstep.
  - destruct (allocate_wf args raw p Hwf Hadm) as (q & a & Halloc & Hq).
    rewrite Halloc in Hstep. simpl in Hstep. injection Hstep as <- _. exact Hq.
  - injection Hstep as <- _. destruct Hadm as [->|Hlive]; [exact Hwf|].
    apply deallocate_wf; assumption.
  - injection Hstep as <- _. apply clear_wf. exact Hwf.
Qed.

Lemma reachable_wf p : reachable p -> wf p.
Proof.
  induction 1 as [os_page sizeof_T alignof_T min_pages growth Hfit|o p p' r _ IH Hadm Hstep].
  - apply make_wf. exact Hfit.
  - eapply step_wf; eassumption.
Qed.

(** On an admissible call the pool never gets stuck. *)
Lemma step_total o p :
  reachable p -> admissible o p -> exists p' r, step o p = Some (p', r).
Proof.
  intros Hreach Hadm. destruct o as [args raw|ptr|]; simpl; eauto.
  destruct (allocate_wf args raw p (reachable_wf p Hreach) Hadm) as (q & a & Halloc & _).
  rewrite Halloc. simpl. eauto.
Qed.

Lemma reachable_live_range p : reachable p -> in_size_t (live_count_ p).
Proof.
  induction 1 as [os_page sizeof_T alignof_T min_pages growth Hfit|o p p' r _ IH Hadm Hstep].
  - split; [simpl; lia | reflexivity].
  - eapply step_live_range; eassumption.
Qed.

(** What [allocate] hands out is never the address of an object that is alive: a
    vacated slot holds a free-list node, and a slot at the high-water mark has never
    been constructed into. *)
Lemma allocate_fresh_or_vacated args raw p p' a :
  reachable p -> admissible (Allocate args raw) p ->
  allocate args raw p = Some (p', a) ->
  (free_list_ p <> 0 /\ exists next, cells (mem p) !! a = Some (Node next)) \/
  (free_list_ p = 0 /\ cells (mem p) !! a = None).
Proof.
  intros Hreach Hadm Halloc. pose proof (reachable_wf p Hreach) as Hwf.
  destruct (decide (free_list_ p = 0)) as [Hnil|Hhead].
  - right. split; [exact Hnil|]. revert Halloc. unfold allocate. rewrite Hnil. simpl.
    destruct (last_has_room p) eqn:Hroom.
    + destruct (last_has_room_true p Hroom) as (l & seg & Hsegs & Hlt).
      destruct (claim_uninit_wf args p l seg Hwf Hsegs Hlt) as (Hnone & Hclaim & _).
      rewrite Hclaim. intros [= _ <-]. exact Hnone.
    + simpl in Hadm. unfold needs_growth in Hadm. rewrite Hnil, Hroom in Hadm.
      destruct (Hadm eq_refl) as [Hfit Hfresh].
      destruct (add_segment_wf raw p Hwf Hfit Hfresh) as (Hwf1 & Hcap & _).
      destruct (claim_uninit_wf args (add_segment_ raw p) (segments_ p)
                  (new_segment raw _) Hwf1 eq_refl Hcap) as (Hnone & Hclaim & _).
      rewrite Hclaim. intros [= _ <-]. exact Hnone.
  - left. split; [exact Hhead|].
    destruct (allocate_reuse_wf args raw p Hwf Hhead) as (next & Hnext & Halloc' & _).
    rewrite Halloc' in Halloc. injection Halloc as _ <-. eauto.
Qed.

End FreeListInvariant.

(** * Counting the live objects of the free-list pool *)

Section FreeListCounting.
Context {Args : Type} `{!Constructor Args}.
Import FreeList.
Implicit Types (p : Pool Args) (cs : gmap Z (cell Args)).

(** A map whose keys are addresses has fewer entries than there are addresses. *)
Lemma keys_bound cs :
  (forall a c, cs !! a = Some c -> 0 < a < SIZE_MOD) -> Z.of_nat (size cs) < SIZE_MOD.
Proof.
  intros Hkeys.
  assert (Hsub : dom cs ⊆ list_to_set (C := gset Z) (seqZ 1 (SIZE_MOD - 1))).
  { intros a Ha. apply elem_of_dom in Ha as [c Hc]. apply elem_of_list_to_set.
    apply elem_of_seqZ. specialize (Hkeys a c Hc). lia. }
  apply subseteq_size in Hsub.
  rewrite size_dom, size_list_to_set, length_seqZ in Hsub by apply NoDup_seqZ.
  assert (H : 0 < SIZE_MOD) by reflexivity. lia.
Qed.

(** A duplicate-free list of keys that misses one key is shorter than the map. *)
Lemma keys_missing_one cs (fl : list Z) ptr :
  NoDup fl -> (forall a, a ∈ fl -> is_Some (cs !! a)) ->
  is_Some (cs !! ptr) -> ptr ∉ fl -> (length fl < size cs)%nat.
Proof.
  intros Hnd Hin Hptr Hnot.
  assert (Hsub : list_to_set (C := gset Z) fl ⊆ dom (delete ptr cs)).
  { intros a Ha. apply elem_of_list_to_set in Ha. apply elem_of_dom.
    rewrite lookup_delete_ne by (intros ->; contradiction). apply Hin. exact Ha. }
  apply subseteq_size in Hsub.
  rewrite size_dom, size_list_to_set, map_size_delete_Some in Hsub by assumption.
  assert (size cs <> 0%nat).
  { intros E. apply map_size_empty_iff in E. subst cs. destruct Hptr as [c Hc].
    rewrite lookup_empty in Hc. discriminate. }
  lia.
Qed.

Lemma chain_unique cs head l1 : forall l2,
  chain cs head l1 -> chain cs head l2 -> l1 = l2.
Proof.
  revert head. induction l1 as [|a l1 IH]; intros head [|b l2] H1 H2.
  - reflexivity.
  - simpl in H1. destruct H2 as (-> & Hnz & _). contradiction.
  - simpl in H2. destruct H1 as (-> & Hnz & _). contradiction.
  - destruct H1 as (-> & _ & n1 & Hn1 & H1). destruct H2 as (-> & _ & n2 & Hn2 & H2).
    rewrite Hn1 in Hn2. injection Hn2 as <-. f_equal. eapply IH; eauto.
Qed.

Lemma high_water_snoc (l : list Segment) seg :
  foldr (fun s acc => next_uninit s + acc) 0 (l ++ [seg])
  = foldr (fun s acc => next_uninit s + acc) 0 l + next_uninit seg.
Proof. induction l as [|s l IH]; simpl; [lia | rewrite IH; lia]. Qed.

Lemma cells_in_space p a c :
  wf p -> cells (mem p) !! a = Some c -> 0 < a < SIZE_MOD.
Proof.
  intros Hwf Hc. destruct (wf_cells p Hwf a c Hc) as [_ (s & i & Hin & Hi & ->)].
  pose proof (wf_segments p Hwf) as Hok. rewrite Forall_forall in Hok.
  destruct (Hok s Hin) as (Hd & Hhw & _ & Hfit & _).
  pose proof (wf_slot p Hwf). nia.
Qed.

Lemma live_fits p : wf p -> Z.of_nat (size (cells (mem p))) < SIZE_MOD.
Proof. intros Hwf. apply keys_bound. intros a c. apply cells_in_space. exact Hwf. Qed.

(** Taking a slot at the high-water mark adds a cell, a slot and a live object. *)
Lemma claim_uninit_counted args p l seg p' a :
  wf p -> counted p -> segments_ p = l ++ [seg] -> next_uninit seg < capacity seg ->
  claim_uninit args p = Some (p', a) ->
  counted p' /\ live_count_ p' = live_count_ p + 1.
Proof.
  intros Hwf (fl & Hchain & Hsize & Hlive & Hpos) Hsegs Hroom Hclaim.
  destruct (claim_uninit_wf args p l seg Hwf Hsegs Hroom) as (Hnone & Hclaim' & Hwf').
  rewrite Hclaim' in Hclaim. injection Hclaim as <- <-.
  pose proof (live_fits _ Hwf') as Hbound. simpl mem in Hbound.
  rewrite cells_construct, map_size_insert_None in Hbound by exact Hnone.
  assert (Hinc : wrap (live_count_ p + 1) = live_count_ p + 1).
  { apply wrap_small. lia. }
  split; [|exact Hinc].
  exists fl. simpl free_list_. simpl mem. simpl live_count_.
  unfold high_water_total in *. simpl segments_. rewrite Hsegs in Hsize, Hlive.
  rewrite high_water_snoc in *. simpl next_uninit.
  rewrite cells_construct, map_size_insert_None by exact Hnone.
  split; [|split; [lia|split; lia]].
  apply chain_insert_other; [|exact Hchain].
  intros Hin. destruct (chain_nodes _ _ _ _ Hchain Hin) as [next Hn]. congruence.
Qed.

Lemma add_segment_counted raw p : counted p -> counted (add_segment_ raw p).
Proof.
  intros (fl & Hchain & Hsize & Hlive & Hpos). exists fl. simpl.
  unfold high_water_total in *. simpl segments_.
  rewrite high_water_snoc. simpl. split; [exact Hchain | lia].
Qed.

(** [allocate] keeps the books and adds exactly one to the live count. *)
Lemma allocate_counted args raw p p' a :
  wf p -> counted p -> admissible (Allocate args raw) p ->
  allocate args raw p = Some (p', a) ->
  counted p' /\ live_count_ p' = live_count_ p + 1.
Proof.
  intros Hwf Hcnt Hadm Halloc.
  destruct (decide (free_list_ p = 0)) as [Hnil|Hhead].
  - revert Halloc. unfold allocate. rewrite Hnil. simpl.
    destruct (last_has_room p) eqn:Hroom; intros Hclaim.
    + destruct (last_has_room_true p Hroom) as (l & seg & Hsegs & Hlt).
      eapply claim_uninit_counted; eauto.
    + simpl in Hadm. unfold needs_growth in Hadm. rewrite Hnil, Hroom in Hadm.
      destruct (Hadm eq_refl) as [Hfit Hfresh].
      destruct (add_segment_wf raw p Hwf Hfit Hfresh) as (Hwf1 & Hcap & _).
      exact (claim_uninit_counted args (add_segment_ raw p) (segments_ p)
               (new_segment raw _) p' a Hwf1 (add_segment_counted raw p Hcnt)
               eq_refl Hcap Hclaim).
  - destruct (allocate_reuse_wf args raw p Hwf Hhead) as (next & Hnext & Halloc' & Hwf').
    rewrite Halloc' in Halloc. injection Halloc as <- _.
    destruct Hcnt as (fl & Hchain & Hsize & Hlive & Hpos).
    destruct fl as [|b fl]; [simpl in Hchain; contradiction|].
    destruct (wf_free p Hwf) as (fl0 & Hchain0 & Hnodup & _).
    rewrite <- (chain_unique _ _ _ _ Hchain Hchain0) in Hnodup.
    apply NoDup_cons in Hnodup as [Hnotin _].
    destruct Hchain as (-> & _ & next' & Hnext' & Hrest).
    rewrite Hnext in Hnext'. injection Hnext' as <-.
    pose proof (live_fits _ Hwf) as Hbound. simpl length in Hlive.
    assert (Hinc : wrap (live_count_ p + 1) = live_count_ p + 1).
    { apply wrap_small. lia. }
    split; [|exact Hinc].
    exists fl. simpl free_list_. simpl mem. simpl live_count_.
    unfold high_water_total in *. simpl segments_.
    rewrite cells_construct, map_size_insert_Some by eauto.
    split; [apply chain_insert_other; assumption|]. split; [exact Hsize|]. lia.
Qed.

Lemma step_counted o p p' r :
  wf p -> counted p -> admissible o p -> step o p = Some (p', r) -> counted p'.
Proof.
  intros Hwf Hcnt Hadm Hstep. destruct o as [args raw|ptr|]; simpl in Hstep.
  - (* allocate *)
    destruct (allocate args raw p) as [[q a]|] eqn:Halloc; simpl in Hstep; [|discriminate].
    injection Hstep as <- _. exact (proj1 (allocate_counted args raw p q a Hwf Hcnt Hadm Halloc)).
  - (* deallocate *)
    injection Hstep as <- _. destruct Hadm as [->|Hobj]; [exact Hcnt|].
    unfold deallocate. destruct (Z.eqb_spec ptr 0) as [_|Hnz]; [exact Hcnt|].
    destruct Hobj as [[a r'] Hobj]. unfold object_at in Hobj.
    destruct (cells (mem p) !! ptr) as [[a' r''| |n]|] eqn:Hcell; try discriminate.
    destruct Hcnt as (fl & Hchain & Hsize & Hlive & Hpos).
    destruct (wf_free p Hwf) as (fl0 & Hchain0 & Hnodup & _).
    rewrite <- (chain_unique _ _ _ _ Hchain Hchain0) in Hnodup.
    assert (Hnotin : ptr ∉ fl).
    { intros Hin. destruct (chain_nodes _ _ _ _ Hchain Hin) as [next Hn]. congruence. }
    assert (Hshort : (length fl < size (cells (mem p)))%nat).
    { apply (keys_missing_one _ fl ptr); [exact Hnodup | | eauto | exact Hnotin].
      intros b Hb. destruct (chain_nodes _ _ _ _ Hchain Hb) as [next Hn]. eauto. }
    pose proof (live_fits _ Hwf) as Hbound.
    assert (Hdec : wrap (live_count_ p - 1) = live_count_ p - 1).
    { apply wrap_small. lia. }
    exists (ptr :: fl). simpl free_list_. simpl mem. simpl live_count_.
    unfold high_water_total in *. simpl segments_.
    unfold set_cell, destroy. simpl cells.
    rewrite insert_insert_eq, map_size_insert_Some by eauto.
    split; [|split; [exact Hsize|]].
    + simpl. split; [reflexivity|]. split; [exact Hnz|].
      exists (free_list_ p). split; [apply lookup_insert_eq|].
      apply chain_insert_other; assumption.
    + rewrite Hdec. simpl length. lia.
  - (* clear *)
    injection Hstep as <- _. destruct (clear_memory_empty p Hwf) as [Hcells _].
    exists []. rewrite Hcells. simpl. rewrite map_size_empty.
    unfold high_water_total. simpl. repeat split; lia.
Qed.

Lemma reachable_counted p : reachable p -> counted p.
Proof.
  induction 1 as [os_page sizeof_T alignof_T min_pages growth Hfit|o p p' r Hreach IH Hadm Hstep].
  - exists []. simpl. rewrite map_size_empty. unfold high_water_total. simpl.
    repeat split; lia.
  - eapply step_counted; eauto using reachable_wf.
Qed.

Lemma free_chain_chain cs (fuel : nat) : forall head l,
  chain cs head l -> (length l <= fuel)%nat -> free_chain fuel cs head = l.
Proof.
  induction fuel as [|fuel IH]; intros head l Hchain Hlen.
  - destruct l; [reflexivity | simpl in Hlen; lia].
  - destruct l as [|a l]; simpl in Hchain.
    + subst head. reflexivity.
    + destruct Hchain as (-> & Hnz & next & Hnext & Hrest). simpl.
      destruct (Z.eqb_spec head 0); [contradiction|]. rewrite Hnext.
      f_equal. apply IH; [exact Hrest | simpl in Hlen; lia].
Qed.

(** In SegmentedObjectPool.hpp the live count is the sum of the high-water marks
    less the number of vacant slots on the free list, in every state the contract
    leads to. *)
Lemma live_count_invariant p :
  reachable p ->
  live p = high_water_total p - Z.of_nat (length (vacant p)).
Proof.
  intros Hreach.
  destruct (reachable_counted p Hreach) as (fl & Hchain & Hsize & Hlive & Hpos).
  unfold vacant, live. rewrite (free_chain_chain _ _ _ fl Hchain) by lia. exact Hlive.
Qed.

(** So the count goes up by exactly one on [allocate]. *)
Lemma allocate_live_exact args raw p p' a :
  reachable p -> admissible (Allocate args raw) p ->
  allocate args raw p = Some (p', a) -> live_count_ p' = live_count_ p + 1.
Proof.
  intros Hreach Hadm Halloc.
  exact (proj2 (allocate_counted args raw p p' a (reachable_wf p Hreach)
                  (reachable_counted p Hreach) Hadm Halloc)).
Qed.

End FreeListCounting.

(** * The free-flags pool: the scan and the hint *)

Section FreeFlagsScan.
Import FreeFlags.
Implicit Types (seg : Segment) (flags : list Z).

Lemma flag_at_insert_eq flags i v :
  0 <= i -> (Z.to_nat i < length flags)%nat -> flag_at (<[Z.to_nat i := v]> flags) i = v.
Proof. intros Hi Hlt. unfold flag_at. rewrite list_lookup_insert_eq by exact Hlt. reflexivity. Qed.

Lemma flag_at_insert_ne flags i k v :
  0 <= i -> 0 <= k -> k <> i -> flag_at (<[Z.to_nat i := v]> flags) k = flag_at flags k.
Proof.
  intros Hi Hk Hne. unfold flag_at. rewrite list_lookup_insert_ne by lia. reflexivity.
Qed.

Lemma flag_at_outside flags k : (length flags <= Z.to_nat k)%nat -> flag_at flags k = 0.
Proof. intros Hge. unfold flag_at. rewrite lookup_ge_None_2 by exact Hge. reflexivity. Qed.

(** The inner loop stops at the first flag set at or after its starting index. *)
Lemma scan_spec n : forall flags i,
  match scan flags i n with
  | Some j =>
      i <= j < i + Z.of_nat n /\ flag_at flags j = 1 /\
      forall k, i <= k < j -> flag_at flags k <> 1
  | None => forall k, i <= k < i + Z.of_nat n -> flag_at flags k <> 1
  end.
Proof.
  induction n as [|n IH]; intros flags i; simpl scan.
  - intros k Hk. lia.
  - destruct (Z.eqb_spec (flag_at flags i) 1) as [E|E].
    + split; [lia|]. split; [exact E|]. intros k Hk. lia.
    + specialize (IH flags (i + 1)). destruct (scan flags (i + 1) n) as [j|].
      * destruct IH as (Hj & Hset & Hbefore). split; [lia|]. split; [exact Hset|].
        intros k Hk. destruct (decide (k = i)) as [->|Hne]; [exact E | apply Hbefore; lia].
      * intros k Hk. destruct (decide (k = i)) as [->|Hne]; [exact E | apply IH; lia].
Qed.

Lemma find_free_spec seg :
  shape_ok seg ->
  match find_free seg with
  | Some j =>
      flagged seg j /\ free_hint seg <= j /\
      forall k, 0 <= k < j -> flag_at (free_flags seg) k <> 1
  | None => forall k, ~ flagged seg k
  end.
Proof.
  intros (Hlen & Hhint & Hbelow). unfold find_free.
  pose proof (scan_spec (Z.to_nat (capacity seg - free_hint seg)) (free_flags seg)
                (free_hint seg)) as Hscan.
  destruct (scan (free_flags seg) (free_hint seg) _) as [j|].
  - destruct Hscan as (Hj & Hset & Hbefore). split; [|split; [lia|]].
    + split; [lia | exact Hset].
    + intros k Hk. destruct (Z.lt_ge_cases k (free_hint seg)); [apply Hbelow | apply Hbefore]; lia.
  - intros k [Hk Hset]. destruct (Z.lt_ge_cases k (free_hint seg)) as [Hlt|Hge].
    + exact (Hbelow k ltac:(lia) Hset).
    + exact (Hscan k ltac:(lia) Hset).
Qed.

(** Step 1 of [allocate]: the lowest flagged slot of the first segment that has
    one; the segments scanned in vain get their hint reset. *)
Lemma reuse_spec ss (segs : list Segment) :
  Forall shape_ok segs ->
  match reuse ss segs with
  | (segs', Some a) =>
      exists l seg rest i,
        segs = l ++ seg :: rest /\ no_vacancy l /\ flagged seg i /\
        (forall k, 0 <= k < i -> flag_at (free_flags seg) k <> 1) /\
        a = slot_addr ss (data seg) i /\
        segs' = (reset_hint <$> l) ++ take_slot i seg :: rest
  | (segs', None) => no_vacancy segs /\ segs' = reset_hint <$> segs
  end.
Proof.
  induction segs as [|seg rest IH]; intros Hshape; simpl reuse.
  - split; [constructor | reflexivity].
  - apply Forall_cons in Hshape as [Hseg Hrest].
    pose proof (find_free_spec seg Hseg) as Hfind.
    destruct (find_free seg) as [i|].
    + destruct Hfind as (Hflag & _ & Hbefore).
      exists [], seg, rest, i.
      split; [reflexivity|]. split; [constructor|]. split; [exact Hflag|].
      split; [exact Hbefore|]. split; reflexivity.
    + specialize (IH Hrest). destruct (reuse ss rest) as [rest' [a|]].
      * destruct IH as (l & seg' & rest0 & i & -> & Hnv & Hflag & Hbefore & -> & ->).
        exists (seg :: l), seg', rest0, i.
        split; [reflexivity|]. split; [constructor; assumption|]. split; [exact Hflag|].
        split; [exact Hbefore|]. split; reflexivity.
      * destruct IH as [Hnv ->]. split; [constructor; assumption | reflexivity].
Qed.

Lemma shape_take_slot i seg :
  0 <= i -> (forall k, 0 <= k < i -> flag_at (free_flags seg) k <> 1) ->
  shape_ok seg -> shape_ok (take_slot i seg).
Proof.
  intros Hi Hbefore (Hlen & Hhint & _). unfold shape_ok, take_slot. simpl.
  rewrite length_insert. split; [exact Hlen|]. split; [apply wrap_range|].
  intros k Hk. pose proof (wrap_le (i + 1) ltac:(lia)) as Hle.
  destruct (decide (k = i)) as [->|Hne].
  - destruct (decide (Z.to_nat i < length (free_flags seg))%nat) as [Hin|Hout].
    + rewrite flag_at_insert_eq by assumption. discriminate.
    + rewrite flag_at_outside by (rewrite length_insert; lia). discriminate.
  - rewrite flag_at_insert_ne by lia. apply Hbefore. lia.
Qed.

Lemma shape_reset_hint seg : shape_ok seg -> shape_ok (reset_hint seg).
Proof.
  intros (Hlen & _ & _). unfold shape_ok, reset_hint. simpl.
  split; [exact Hlen|]. split; [lia|]. intros k Hk. lia.
Qed.

Lemma shape_mark_free index seg : 0 <= index -> shape_ok seg -> shape_ok (mark_free index seg).
Proof.
  intros Hi (Hlen & Hhint & Hbelow). unfold shape_ok, mark_free. simpl.
  rewrite length_insert. split; [exact Hlen|].
  destruct (Z.ltb_spec index (free_hint seg)) as [Hlt|Hge].
  - split; [exact Hi|]. intros k Hk. rewrite flag_at_insert_ne by lia. apply Hbelow. lia.
  - split; [exact Hhint|]. intros k Hk. rewrite flag_at_insert_ne by lia. apply Hbelow. lia.
Qed.

Lemma shape_new_segment d cap : shape_ok (new_segment d cap).
Proof.
  unfold shape_ok, new_segment. simpl. rewrite length_replicate.
  split; [reflexivity|]. split; [lia|]. intros k Hk. lia.
Qed.

Lemma shape_bump_last segs : Forall shape_ok segs -> Forall shape_ok (bump_last segs).
Proof.
  intros H. unfold bump_last. destruct (last segs) as [seg|] eqn:E; [|exact H].
  apply Forall_insert; [exact H|].
  rewrite Forall_forall in H.
  specialize (H seg ltac:(apply last_Some_elem_of; exact E)). exact H.
Qed.

Lemma shape_reuse ss segs : Forall shape_ok segs -> Forall shape_ok (fst (reuse ss segs)).
Proof.
  intros Hshape. pose proof (reuse_spec ss segs Hshape) as Hspec.
  destruct (reuse ss segs) as [segs' [a|]]; simpl.
  - destruct Hspec as (l & seg & rest & i & -> & _ & [Hi _] & Hbefore & _ & ->).
    apply Forall_app in Hshape as [Hl Hrest]. apply Forall_cons in Hrest as [Hseg Hrest].
    apply Forall_app. split.
    + apply Forall_fmap. eapply Forall_impl; [exact Hl|]. apply shape_reset_hint.
    + constructor; [|exact Hrest]. apply shape_take_slot; [lia | assumption | assumption].
  - destruct Hspec as [_ ->]. apply Forall_fmap.
    eapply Forall_impl; [exact Hshape|]. apply shape_reset_hint.
Qed.

Lemma shape_release ss addr : forall segs segs',
  0 < ss -> Forall shape_ok segs -> release ss addr segs = Some segs' ->
  Forall shape_ok segs'.
Proof.
  induction segs as [|seg rest IH]; intros segs' Hss Hshape H; simpl in H; [discriminate|].
  apply Forall_cons in Hshape as [Hseg Hrest].
  destruct (owns ss seg addr).
  - injection H as <-. constructor; [|exact Hrest]. apply shape_mark_free; [|exact Hseg].
    apply Z.div_pos; [apply wrap_range | exact Hss].
  - destruct (release ss addr rest) as [rest'|] eqn:E; simpl in H; [|discriminate].
    injection H as <-. constructor; [exact Hseg | eapply IH; eauto].
Qed.

End FreeFlagsScan.

Section FreeFlagsPool.
Context {Args : Type} `{!Constructor Args}.
Import FreeFlags.
Implicit Types (p : Pool Args) (seg : Segment).

Lemma last_has_room_reset segs p :
  last_has_room (with_segments (reset_hint <$> segs) p)
  = match last segs with
    | Some seg => next_uninit seg <? capacity seg
    | None => false
    end.
Proof.
  unfold last_has_room, with_segments. simpl. rewrite fmap_last.
  destruct (last segs); reflexivity.
Qed.

Lemma bump_last_snoc_flags l seg :
  bump_last (l ++ [seg]) =
    l ++ [{| data := data seg; capacity := capacity seg;
             next_uninit := wrap (next_uninit seg + 1);
             free_flags := free_flags seg; free_hint := free_hint seg |}].
Proof.
  unfold bump_last. rewrite last_snoc, length_app. simpl length.
  replace (pred (length l + 1)) with (length l + 0)%nat by lia.
  rewrite insert_app_r. reflexivity.
Qed.

(** Every call keeps the shape of the segments, whatever it is given. *)
Lemma allocate_shape args raw p :
  Forall shape_ok (segments_ p) -> Forall shape_ok (segments_ (fst (allocate args raw p))).
Proof.
  intros Hshape. unfold allocate.
  pose proof (shape_reuse (slot_size_ (policy p)) (segments_ p) Hshape) as Hreuse.
  destruct (reuse (slot_size_ (policy p)) (segments_ p)) as [segs [obj|]]; simpl in *.
  - exact Hreuse.
  - destruct (last_has_room (with_segments segs p)) eqn:Hroom; unfold claim_uninit.
    + destruct (last (segments_ (with_segments segs p))); simpl; [|exact Hreuse].
      apply shape_bump_last. exact Hreuse.
    + simpl. rewrite last_snoc. simpl. apply shape_bump_last.
      apply Forall_app. split; [exact Hreuse|]. constructor; [|constructor].
      apply shape_new_segment.
Qed.

Lemma deallocate_shape ptr p :
  0 < slot_size_ (policy p) ->
  Forall shape_ok (segments_ p) -> Forall shape_ok (segments_ (deallocate ptr p)).
Proof.
  intros Hss Hshape. unfold deallocate. destruct (ptr =? 0); [exact Hshape|].
  destruct (release (slot_size_ (policy p)) ptr (segments_ p)) as [segs|] eqn:E;
    [|exact Hshape].
  simpl. eapply shape_release; eauto.
Qed.

Lemma clear_shape p : Forall shape_ok (segments_ (clear p)).
Proof. constructor. Qed.

Lemma allocate_policy args raw p : policy (fst (allocate args raw p)) = policy p.
Proof.
  unfold allocate. destruct (reuse (slot_size_ (policy p)) (segments_ p)) as [segs [obj|]].
  - reflexivity.
  - destruct (last_has_room (with_segments segs p)); unfold claim_uninit.
    + destruct (last (segments_ (with_segments segs p))); reflexivity.
    + simpl. rewrite last_snoc. reflexivity.
Qed.

Lemma deallocate_policy ptr p : policy (deallocate ptr p) = policy p.
Proof.
  unfold deallocate. destruct (ptr =? 0); [reflexivity|].
  destruct (release (slot_size_ (policy p)) ptr (segments_ p)); reflexivity.
Qed.

(** In every state of the pool the slot size is positive and the segments have
    their shape, whether or not the callers kept the contract. *)
Lemma reachable_shape p :
  reachable p -> 0 < slot_size_ (policy p) /\ Forall shape_ok (segments_ p).
Proof.
  induction 1 as [os_page sizeof_T alignof_T min_pages growth Hfit
                 |p args raw _ [IHss IH]|p ptr _ [IHss IH]|p _ [IHss IH]].
  - pose proof (make_policy_spec os_page sizeof_T alignof_T min_pages growth Hfit) as Hpol.
    cbv zeta in Hpol. destruct Hpol as (_ & Hptr & _). unfold sizeof_ptr in Hptr.
    split; [simpl policy; lia | constructor].
  - rewrite allocate_policy. split; [exact IHss | apply allocate_shape; exact IH].
  - rewrite deallocate_policy. split; [exact IHss | apply deallocate_shape; assumption].
  - split; [exact IHss | apply clear_shape].
Qed.

(** The three exits of [allocate] in the free-flags revision. *)
Lemma allocate_resolution_flags args raw p :
  Forall shape_ok (segments_ p) ->
  let ss := slot_size_ (policy p) in
  let p' := fst (allocate args raw p) in
  let a := snd (allocate args raw p) in
  (forall seg i, seg ∈ segments_ p -> flagged seg i ->
     exists l seg' rest i',
       segments_ p = l ++ seg' :: rest /\ no_vacancy l /\ flagged seg' i' /\
       a = slot_addr ss (data seg') i' /\
       segments_ p' = (reset_hint <$> l) ++ take_slot i' seg' :: rest) /\
  (no_vacancy (segments_ p) -> forall l seg,
     segments_ p = l ++ [seg] -> next_uninit seg < capacity seg ->
     a = slot_addr ss (data seg) (next_uninit seg) /\
     segments_ p' =
       (reset_hint <$> l) ++
       [{| data := data seg; capacity := capacity seg;
           next_uninit := wrap (next_uninit seg + 1);
           free_flags := free_flags seg; free_hint := 0 |}]) /\
  (no_vacancy (segments_ p) -> last_has_room p = false ->
     a = slot_addr ss raw 0 /\
     exists cap,
       segments_ p' =
         (reset_hint <$> segments_ p) ++
         [{| data := raw; capacity := cap; next_uninit := wrap (0 + 1);
             free_flags := replicate (Z.to_nat cap) 0; free_hint := 0 |}]) /\
  object_at (mem p') a = Some (args, false) /\
  live_count_ p' = wrap (live_count_ p + 1).
Proof.
  intros Hshape ss p' a. subst p' a. unfold allocate.
  pose proof (reuse_spec ss (segments_ p) Hshape) as Hspec. fold ss.
  destruct (reuse ss (segments_ p)) as [segs [obj|]].
  - (* a flagged slot was found *)
    destruct Hspec as (l & seg' & rest & i' & Hsegs & Hnv & Hflag & _ & -> & ->).
    assert (Hvac : ~ no_vacancy (segments_ p)).
    { intros H. unfold no_vacancy in H. rewrite Hsegs in H. apply Forall_app in H as [_ H].
      apply Forall_cons in H as [H _]. exact (H i' Hflag). }
    simpl. split; [|split; [|split; [|split]]].
    + intros _ _ _ _. exists l, seg', rest, i'. auto.
    + intros H. contradiction.
    + intros H. contradiction.
    + apply object_at_construct.
    + reflexivity.
  - (* nothing is flagged *)
    destruct Hspec as [Hnv ->].
    assert (Hnone : forall seg i, seg ∈ segments_ p -> flagged seg i -> False).
    { intros seg i Hin Hflag. unfold no_vacancy in Hnv. rewrite Forall_forall in Hnv.
      exact (Hnv seg Hin i Hflag). }
    rewrite last_has_room_reset.
    destruct (last (segments_ p)) as [seg|] eqn:Elast.
    + apply last_Some in Elast as [l Hsegs].
      destruct (Z.ltb_spec (next_uninit seg) (capacity seg)) as [Hlt|Hge].
      * (* the newest segment has room *)
        unfold claim_uninit. simpl segments_. rewrite Hsegs, fmap_app.
        change (reset_hint <$> [seg]) with [reset_hint seg]. rewrite last_snoc.
        simpl. rewrite bump_last_snoc_flags. simpl.
        split; [intros s i Hin Hf; exfalso; rewrite <- Hsegs in Hin; eauto|].
        split.
        { intros _ l' seg'' Heq _. apply app_inj_tail in Heq as [-> ->]. auto. }
        split.
        { intros _ Hroom. exfalso. unfold last_has_room in Hroom.
          rewrite Hsegs, last_snoc in Hroom. apply Z.ltb_ge in Hroom. lia. }
        split; [apply object_at_construct | reflexivity].
      * (* the newest segment is full *)
        unfold claim_uninit. simpl segments_. rewrite last_snoc.
        simpl. rewrite bump_last_snoc_flags. simpl.
        split; [intros s i Hin Hf; exfalso; eauto|].
        split.
        { intros _ l' seg'' Heq Hlt. exfalso. rewrite Hsegs in Heq.
          apply app_inj_tail in Heq as [_ ->]. lia. }
        split; [intros _ _; split; [reflexivity | eexists; reflexivity]|].
        split; [apply object_at_construct | reflexivity].
    + (* there is no segment yet *)
      apply last_None in Elast.
      unfold claim_uninit. simpl segments_. rewrite last_snoc.
      simpl. rewrite bump_last_snoc_flags. simpl.
      split; [intros s i Hin Hf; exfalso; eauto|].
      split.
      { intros _ l' seg'' Heq _. exfalso. rewrite Elast in Heq.
        destruct l'; discriminate. }
      split; [intros _ _; split; [reflexivity | eexists; reflexivity]|].
      split; [apply object_at_construct | reflexivity].
Qed.

Lemma find_free_none seg :
  shape_ok seg -> (forall i, ~ flagged seg i) -> find_free seg = None.
Proof.
  intros Hshape Hnone. pose proof (find_free_spec seg Hshape) as Hspec.
  destruct (find_free seg) as [j|]; [|reflexivity].
  destruct Hspec as [Hflag _]. exfalso. exact (Hnone j Hflag).
Qed.

Lemma find_free_marked i seg :
  shape_ok seg -> (forall k, ~ flagged seg k) -> 0 <= i < capacity seg ->
  find_free (mark_free i seg) = Some i.
Proof.
  intros Hshape Hnone Hi.
  assert (Hlen : (Z.to_nat i < length (free_flags seg))%nat)
    by (destruct Hshape as [-> _]; lia).
  pose proof (find_free_spec (mark_free i seg)
                (shape_mark_free i seg ltac:(lia) Hshape)) as Hspec.
  destruct (find_free (mark_free i seg)) as [j|].
  - destruct Hspec as [[Hj Hset] _]. simpl in Hj, Hset.
    destruct (decide (j = i)) as [->|Hne]; [reflexivity|exfalso].
    rewrite flag_at_insert_ne in Hset by lia. apply (Hnone j). split; assumption.
  - exfalso. apply (Hspec i). split; [exact Hi|]. simpl.
    apply flag_at_insert_eq; [lia | exact Hlen].
Qed.

(** Segments without a flagged slot are passed over, their hints reset. *)
Lemma reuse_skip ss l tl :
  Forall shape_ok l -> no_vacancy l ->
  reuse ss (l ++ tl) = ((reset_hint <$> l) ++ fst (reuse ss tl), snd (reuse ss tl)).
Proof.
  induction l as [|seg l IH]; intros Hshape Hnv.
  - simpl. destruct (reuse ss tl); reflexivity.
  - apply Forall_cons in Hshape as [Hseg Hshape]. apply Forall_cons in Hnv as [Hnone Hnv].
    simpl. rewrite (find_free_none seg Hseg Hnone), (IH Hshape Hnv). reflexivity.
Qed.

Lemma release_app ss addr l seg rest :
  Forall (fun s => owns ss s addr = false) l -> owns ss seg addr = true ->
  release ss addr (l ++ seg :: rest)
  = Some (l ++ mark_free (wrap (addr - data seg) / ss) seg :: rest).
Proof.
  intros Hl Hseg. induction l as [|s l IH]; simpl.
  - rewrite Hseg. reflexivity.
  - apply Forall_cons in Hl as [Hs Hl]. rewrite Hs, (IH Hl). reflexivity.
Qed.

Lemma owns_slot ss seg i :
  0 < ss -> 0 <= data seg -> 0 <= i < capacity seg ->
  data seg + capacity seg * ss < SIZE_MOD ->
  owns ss seg (data seg + i * ss) = true /\
  wrap (data seg + i * ss - data seg) / ss = i.
Proof.
  intros Hss Hd Hi Hfit. unfold owns.
  rewrite (wrap_small (capacity seg * ss)) by nia.
  rewrite (wrap_small (data seg + capacity seg * ss)) by nia.
  split.
  - apply andb_true_intro. split; [apply Z.leb_le; nia | apply Z.ltb_lt; nia].
  - replace (data seg + i * ss - data seg) with (i * ss) by ring.
    rewrite wrap_small by nia. apply Z.div_mul. lia.
Qed.

(** Recycle the object in slot [i] of a segment while nothing else is vacant: the
    next [allocate] returns that slot. *)
Lemma deallocate_allocate_flags args raw p l seg rest i :
  let ss := slot_size_ (policy p) in
  0 < ss -> Forall shape_ok (segments_ p) -> no_vacancy (segments_ p) ->
  segments_ p = l ++ seg :: rest ->
  0 <= i < capacity seg -> 0 < data seg -> data seg + capacity seg * ss < SIZE_MOD ->
  Forall (fun s => 0 <= data s /\ 0 <= capacity s /\ ~ within ss s (data seg + i * ss)) l ->
  snd (allocate args raw (deallocate (data seg + i * ss) p)) = data seg + i * ss.
Proof.
  intros ss Hss Hshape Hnv Hsegs Hi Hd Hfit Hbefore.
  destruct (owns_slot ss seg i Hss ltac:(lia) Hi Hfit) as [Howns Hindex].
  assert (Hl : Forall (fun s => owns ss s (data seg + i * ss) = false) l).
  { eapply Forall_impl; [exact Hbefore|]. intros s (Hds & Hcs & Hout).
    destruct (owns ss s (data seg + i * ss)) eqn:E; [|reflexivity].
    exfalso. apply Hout. apply owns_within; (assumption || lia). }
  unfold no_vacancy in Hnv. rewrite Hsegs in Hshape, Hnv.
  apply Forall_app in Hshape as [Hshl Hshape]. apply Forall_cons in Hshape as [Hshseg _].
  apply Forall_app in Hnv as [Hnvl Hnv]. apply Forall_cons in Hnv as [Hnvseg _].
  unfold deallocate. destruct (Z.eqb_spec (data seg + i * ss) 0) as [E|_]; [nia|].
  fold ss. rewrite Hsegs, (release_app ss _ l seg rest Hl Howns), Hindex.
  unfold allocate. simpl policy. simpl segments_. fold ss.
  rewrite (reuse_skip ss l _ Hshl Hnvl). simpl reuse.
  rewrite (find_free_marked i seg Hshseg Hnvseg Hi). simpl.
  apply (slot_addr_exact ss (data seg) i (capacity seg)); lia.
Qed.

End FreeFlagsPool.

(** * Histories of the free-list pool *)

Section FreeListHistory.
Context {Args : Type} `{!Constructor Args}.
Import FreeList.
Implicit Types (p : Pool Args) (h : list Z).

Lemma handed_reachable h p : handed h p -> reachable p.
Proof.
  induction 1 as [os_page sizeof_T alignof_T min_pages growth Hfit
                 |h p args raw p' a _ IH Hadm Halloc
                 |h p ptr _ IH Hadm
                 |h p _ IH].
  - apply reach_make. exact Hfit.
  - apply (reach_step (Allocate args raw) p p' (Some a) IH Hadm).
    simpl. rewrite Halloc. reflexivity.
  - exact (reach_step (Deallocate ptr) p _ None IH Hadm eq_refl).
  - exact (reach_step Clear p _ None IH I eq_refl).
Qed.

Lemma allocate_cells args raw p p' a :
  allocate args raw p = Some (p', a) ->
  cells (mem p') = <[a := Live args false]> (cells (mem p)).
Proof.
  unfold allocate. destruct (negb (free_list_ p =? 0)).
  - destruct (cells (mem p) !! free_list_ p) as [[| |next]|]; try discriminate.
    intros [= <- <-]. apply cells_construct.
  - assert (Hclaim : forall q, claim_uninit args q = Some (p', a) ->
                       cells (mem p') = <[a := Live args false]> (cells (mem q))).
    { intros q. unfold claim_uninit. destruct (last (segments_ q)); simpl; [|discriminate].
      intros [= <- <-]. apply cells_construct. }
    destruct (last_has_room p); intros H; apply Hclaim in H; exact H.
Qed.

Lemma deallocate_cells_keys ptr p a :
  is_Some (cells (mem p) !! a) -> is_Some (cells (mem (deallocate ptr p)) !! a).
Proof.
  intros Ha. unfold deallocate. destruct (ptr =? 0); [exact Ha|]. simpl.
  rewrite insert_insert_eq. destruct (decide (a = ptr)) as [->|Hne].
  - rewrite lookup_insert_eq. eauto.
  - rewrite lookup_insert_ne by congruence. exact Ha.
Qed.

(** Every address handed out since the last [clear] still has its slot storage. *)
Lemma handed_cells h p : handed h p -> forall a, a ∈ h -> is_Some (cells (mem p) !! a).
Proof.
  induction 1 as [os_page sizeof_T alignof_T min_pages growth Hfit
                 |h p args raw p' a0 _ IH Hadm Halloc
                 |h p ptr _ IH Hadm
                 |h p _ IH]; intros a Hin.
  - apply elem_of_nil in Hin. contradiction.
  - rewrite (allocate_cells _ _ _ _ _ Halloc).
    destruct (decide (a = a0)) as [->|Hne].
    + rewrite lookup_insert_eq. eauto.
    + rewrite lookup_insert_ne by congruence. apply IH.
      apply elem_of_cons in Hin as [?|?]; [contradiction | assumption].
  - apply deallocate_cells_keys. apply IH. exact Hin.
  - apply elem_of_nil in Hin. contradiction.
Qed.

(** SegmentedObjectPool.hpp never hands out the address of an object that is
    alive. *)
Lemma allocate_never_aliases args raw p p' a :
  reachable p -> admissible (Allocate args raw) p ->
  allocate args raw p = Some (p', a) -> object_at (mem p) a = None.
Proof.
  intros Hreach Hadm Halloc. unfold object_at.
  destruct (allocate_fresh_or_vacated args raw p p' a Hreach Hadm Halloc)
    as [[_ [next ->]]|[_ ->]]; reflexivity.
Qed.

End FreeListHistory.

(** * Reuse after [deallocate] *)

(** C8: if the object at address A is deallocated, the next [allocate] returns
    exactly A (in SegmentedObjectPool.hpp whatever else is vacant, the list being
    last-in first-out; in the free-flags revision when no other slot is vacant); and
    if no vacant slot is tracked at all, [allocate] returns a slot never used before:
    its address has not been handed out since the last [clear], and nothing was
    ever constructed there. *)
Theorem C8_reuse_after_deallocate (Args : Type) `{!Constructor Args}
    (h : list Z) (pl : FreeList.Pool Args) (A : Z) (args : Args) (raw : Z)
    (pf : FreeFlags.Pool Args) (l : list FreeFlags.Segment) (seg : FreeFlags.Segment)
    (rest : list FreeFlags.Segment) (i : Z) :
  FreeList.handed h pl ->
  FreeList.admissible (FreeList.Allocate args raw) pl ->
  A <> 0 ->
  FreeFlags.reachable pf ->
  FreeFlags.no_vacancy (FreeFlags.segments_ pf) ->
  FreeFlags.segments_ pf = l ++ seg :: rest ->
  0 <= i < FreeFlags.capacity seg ->
  0 < FreeFlags.data seg ->
  FreeFlags.data seg + FreeFlags.capacity seg * slot_size_ (FreeFlags.policy pf) < SIZE_MOD ->
  Forall (fun s => 0 <= FreeFlags.data s /\ 0 <= FreeFlags.capacity s /\
                   ~ FreeFlags.within (slot_size_ (FreeFlags.policy pf)) s
                       (FreeFlags.data seg + i * slot_size_ (FreeFlags.policy pf))) l ->
  (exists p', FreeList.allocate args raw (FreeList.deallocate A pl) = Some (p', A)) /\
  (exists p' a,
     FreeList.allocate args raw pl = Some (p', a) /\
     (FreeList.free_list_ pl = 0 -> (a ∉ h) /\ cells (FreeList.mem pl) !! a = None)) /\
  snd (FreeFlags.allocate args raw
         (FreeFlags.deallocate
            (FreeFlags.data seg + i * slot_size_ (FreeFlags.policy pf)) pf))
  = FreeFlags.data seg + i * slot_size_ (FreeFlags.policy pf).
Proof.
  intros Hh Hadm HA Hflags Hnv Hsegs Hi Hd Hfit Hbefore.
  destruct (reachable_shape pf Hflags) as [Hss Hshape].
  split; [|split].
  - (* the recycled slot is the head of the list *)
    unfold FreeList.deallocate. destruct (Z.eqb_spec A 0) as [|_]; [contradiction|].
    unfold FreeList.allocate. simpl FreeList.free_list_.
    destruct (Z.eqb_spec A 0) as [|_]; [contradiction|].
    simpl. unfold set_cell. simpl. rewrite lookup_insert_eq. eauto.
  - (* nothing vacant: the slot at the high-water mark *)
    pose proof (handed_reachable h pl Hh) as Hreach.
    destruct (allocate_wf args raw pl (reachable_wf pl Hreach) Hadm)
      as (p' & a & Halloc & _).
    exists p', a. split; [exact Halloc|]. intros Hnil.
    destruct (allocate_fresh_or_vacated args raw pl p' a Hreach Hadm Halloc)
      as [[Hne _]|[_ Hnone]]; [contradiction|].
    split; [|exact Hnone]. intros Hin.
    destruct (handed_cells h pl Hh a Hin) as [c Hc]. congruence.
  - (* the flag of the recycled slot is the only one set *)
    exact (deallocate_allocate_flags args raw pf l seg rest i
             Hss Hshape Hnv Hsegs Hi Hd Hfit Hbefore).
Qed.

Lemma flag_at_replicate n i : FreeFlags.flag_at (replicate n 0) i = 0.
Proof.
  unfold FreeFlags.flag_at.
  destruct (replicate n 0 !! Z.to_nat i) as [x|] eqn:E; [|reflexivity].
  apply lookup_replicate in E as [-> _]. reflexivity.
Qed.

Lemma C8_reuse_after_deallocate_witness :
  let p0 := bullet_pool 0 growth_one in
  let p2 := FreeList.run [FreeList.Allocate [10; 20] (2 ^ 32); FreeList.Allocate [] 0] p0 in
  let pf := fst (FreeFlags.allocate [10; 20] (2 ^ 32) bullet_flags_pool) in
  FreeList.handed [2 ^ 32 + 24; 2 ^ 32] p2 /\
  (exists p', FreeList.allocate [50; 60] 0 (FreeList.deallocate (2 ^ 32) p2)
              = Some (p', 2 ^ 32)) /\
  (exists p' a, FreeList.allocate [50; 60] 0 p2 = Some (p', a) /\
                (FreeList.free_list_ p2 = 0 ->
                 (a ∉ [2 ^ 32 + 24; 2 ^ 32]) /\ cells (FreeList.mem p2) !! a = None)) /\
  snd (FreeFlags.allocate [50; 60] 0 (FreeFlags.deallocate (2 ^ 32 + 0 * 24) pf))
  = 2 ^ 32 + 0 * 24.
Proof.
  intros p0 p2 pf.
  set (p1 := FreeList.run [FreeList.Allocate [10; 20] (2 ^ 32)] p0).
  assert (Hfit : params_fit 4096 24 8 0).
  { unfold params_fit. repeat split; try reflexivity; discriminate. }
  assert (H0 : FreeList.handed [] p0) by (apply FreeList.handed_make; exact Hfit).
  assert (Hadm0 : FreeList.admissible (FreeList.Allocate [10; 20] (2 ^ 32)) p0).
  { intros _. split; [reflexivity|]. split; [reflexivity|].
    split; [apply Z.leb_le; vm_compute; reflexivity|].
    intros d b H. simpl in H. rewrite lookup_empty in H. discriminate H. }
  assert (H1 : FreeList.handed [2 ^ 32] p1).
  { apply (FreeList.handed_allocate [] p0 [10; 20] (2 ^ 32) p1 (2 ^ 32) H0 Hadm0).
    reflexivity. }
  assert (Hadm1 : FreeList.admissible (FreeList.Allocate [] 0) p1).
  { intros H. vm_compute in H. discriminate H. }
  assert (H2 : FreeList.handed [2 ^ 32 + 24; 2 ^ 32] p2).
  { apply (FreeList.handed_allocate [2 ^ 32] p1 [] 0 p2 (2 ^ 32 + 24) H1 Hadm1).
    reflexivity. }
  assert (Hadm2 : FreeList.admissible (FreeList.Allocate [50; 60] 0) p2).
  { intros H. vm_compute in H. discriminate H. }
  pose (seg := {| FreeFlags.data := 2 ^ 32; FreeFlags.capacity := 512;
                  FreeFlags.next_uninit := 1;
                  FreeFlags.free_flags := replicate 512 0;
                  FreeFlags.free_hint := 0 |}).
  assert (Hsegs : FreeFlags.segments_ pf = [] ++ seg :: []) by (vm_compute; reflexivity).
  assert (Hflags : FreeFlags.reachable pf).
  { apply FreeFlags.reach_allocate, FreeFlags.reach_make. exact Hfit. }
  assert (Hnv : FreeFlags.no_vacancy (FreeFlags.segments_ pf)).
  { rewrite Hsegs. constructor; [|constructor]. intros k [_ Hk].
    change (FreeFlags.flag_at (replicate 512 0) k = 1) in Hk.
    rewrite flag_at_replicate in Hk. discriminate Hk. }
  split; [exact H2|].
  exact (C8_reuse_after_deallocate (list Z) [2 ^ 32 + 24; 2 ^ 32] p2 (2 ^ 32) [50; 60] 0
           pf [] seg [] 0 H2 Hadm2 ltac:(discriminate) Hflags Hnv Hsegs
           ltac:(split; [discriminate | reflexivity]) ltac:(reflexivity)
           ltac:(reflexivity) (Forall_nil_2 _)).
Defined.

(** * Further properties of the headers *)

(** ** namespace detail and the constructor *)

(** X1: [detail::gcd(a, b)] is the greatest common divisor of its arguments: it
    divides both, and every common divisor divides it.  With a zero argument the
    loop returns the other one. *)
Theorem detail_gcd_is_greatest (a b : Z) :
  0 <= a -> 0 <= b ->
  (detail.gcd a b | a) /\ (detail.gcd a b | b) /\ 0 <= detail.gcd a b /\
  (forall d, (d | a) -> (d | b) -> (d | detail.gcd a b)) /\
  detail.gcd a 0 = a /\ detail.gcd 0 b = b.
Proof.
  intros Ha Hb.
  rewrite (gcd_spec a b Ha Hb), (gcd_spec a 0 Ha (Z.le_refl 0)),
    (gcd_spec 0 b (Z.le_refl 0) Hb).
  split; [apply Z.gcd_divide_l|]. split; [apply Z.gcd_divide_r|].
  split; [apply Z.gcd_nonneg|]. split; [intros d; apply Z.gcd_greatest|].
  split; [rewrite (Z.gcd_0_r a) | rewrite (Z.gcd_0_l b)]; lia.
Qed.

Lemma detail_gcd_is_greatest_witness :
  detail.gcd 4096 24 = 8 /\ (detail.gcd 4096 24 | 4096) /\ (detail.gcd 4096 24 | 24).
Proof.
  split; [reflexivity|].
  pose proof (detail_gcd_is_greatest 4096 24 ltac:(lia) ltac:(lia)) as (H1 & H2 & _).
  split; assumption.
Defined.

(** X2: [detail::lcm(a, b)] is the least common multiple of two positive arguments
    whenever that multiple fits [size_t]: dividing by the gcd before multiplying
    keeps the intermediate product from overflowing. *)
Theorem detail_lcm_is_least (a b : Z) :
  0 < a -> 0 < b -> Z.lcm a b < SIZE_MOD ->
  (a | detail.lcm a b) /\ (b | detail.lcm a b) /\ 0 < detail.lcm a b /\
  forall m, 0 < m -> (a | m) -> (b | m) -> detail.lcm a b <= m.
Proof.
  intros Ha Hb Hfit. rewrite lcm_spec by assumption.
  assert (Hpos : 0 < Z.lcm a b).
  { pose proof (Z.lcm_nonneg a b).
    assert (Z.lcm a b <> 0) by (intros E; apply Z.lcm_eq_0 in E; lia). lia. }
  split; [apply Z.divide_lcm_l|]. split; [apply Z.divide_lcm_r|].
  split; [exact Hpos|].
  intros m Hm Ham Hbm. apply Z.divide_pos_le; [exact Hm|].
  apply Z.lcm_least; assumption.
Qed.

Lemma detail_lcm_is_least_witness :
  detail.lcm 4096 24 = 12288 /\ (4096 | detail.lcm 4096 24) /\ (24 | detail.lcm 4096 24).
Proof.
  split; [reflexivity|].
  pose proof (detail_lcm_is_least 4096 24 ltac:(lia) ltac:(lia) ltac:(reflexivity))
    as (H1 & H2 & _).
  split; assumption.
Defined.

(** X3: [detail::round_up(x, align)] with a non-zero alignment returns the least
    multiple of [align] that is not below [x] (as long as that multiple fits
    [size_t]), and a rounded value is left as it is; with [align = 0] it returns [x]. *)
Theorem detail_round_up_is_least (x align : Z) :
  0 <= x -> 0 < align -> x + align <= SIZE_MOD ->
  let r := detail.round_up x align in
  (align | r) /\ x <= r /\
  (forall m, (align | m) -> x <= m -> r <= m) /\
  detail.round_up r align = r /\
  detail.round_up x 0 = x.
Proof.
  intros Hx Ha Hfit r.
  destruct (round_up_spec x align Hx Ha Hfit) as [[Hle Hlt] Hdiv]. fold r in Hle, Hlt, Hdiv.
  split; [exact Hdiv|]. split; [exact Hle|]. split; [|split; [|reflexivity]].
  - intros m [k ->] Hm. destruct Hdiv as [j Hj].
    destruct (Z.le_gt_cases j k) as [Hjk|Hjk]; [nia|].
    assert (k + 1 <= j) by lia. nia.
  - unfold detail.round_up at 1. destruct (Z.eqb_spec align 0); [lia|].
    apply Z.mod_divide in Hdiv; [|lia]. rewrite Hdiv. reflexivity.
Qed.

Lemma detail_round_up_is_least_witness :
  detail.round_up 20 8 = 24 /\ (8 | detail.round_up 20 8) /\
  detail.round_up (detail.round_up 20 8) 8 = detail.round_up 20 8.
Proof.
  split; [reflexivity|].
  pose proof (detail_round_up_is_least 20 8 ltac:(lia) ltac:(lia) ltac:(discriminate))
    as (H1 & _ & _ & H2 & _).
  split; assumption.
Defined.
Lemma detail_round_up_aux x align :
  0 <= x -> 0 < align -> x + align <= SIZE_MOD ->
  (align | detail.round_up x align) /\ x <= detail.round_up x align /\
  forall m, (align | m) -> x <= m -> detail.round_up x align <= m.
Proof.
  intros Hx Ha Hfit.
  destruct (round_up_spec x align Hx Ha Hfit) as [[Hle Hlt] Hdiv].
  split; [exact Hdiv|]. split; [exact Hle|].
  intros m [k ->] Hm. destruct Hdiv as [j Hj].
  destruct (Z.le_gt_cases j k) as [Hjk|Hjk]; [nia|].
  assert (k + 1 <= j) by lia. nia.
Qed.
(** X4: the constructor sizes a slot so that it holds a [T] and a pointer, is a
    multiple of [alignof(T)], and is the least such size; the growth factor it stores
    is never below 1.0, whatever was passed. *)
Theorem constructor_slot_and_growth (Args : Type)
    (os_page sizeof_T alignof_T min_pages : Z) (growth : Growth) :
  params_fit os_page sizeof_T alignof_T min_pages ->
  let pol := FreeList.policy (@FreeList.make Args os_page sizeof_T alignof_T min_pages growth) in
  sizeof_T <= slot_size_ pol /\ sizeof_ptr <= slot_size_ pol /\
  (alignof_T | slot_size_ pol) /\
  (forall s, sizeof_T <= s -> sizeof_ptr <= s -> (alignof_T | s) -> slot_size_ pol <= s) /\
  page_size_ pol = os_page /\
  (1 <= factor (growth_factor_ pol))%Q.
Proof.
  intros Hfit pol.
  destruct Hfit as (Hpage & HsT & HaT & Hround & _).
  destruct (detail_round_up_aux (Z.max sizeof_T sizeof_ptr) alignof_T
              ltac:(lia) HaT Hround) as (Hdiv & Hle & Hleast).
  subst pol. simpl. repeat split.
  - lia.
  - lia.
  - exact Hdiv.
  - intros s H1 H2 H3. apply Hleast; [exact H3 | lia].
  - unfold clamp_growth. destruct (Qlt_le_dec 1 (factor growth)) as [H|H].
    + apply Qlt_le_weak. exact H.
    + simpl. apply Qle_refl.
Qed.

Lemma constructor_slot_and_growth_witness :
  params_fit 4096 24 8 0 /\
  slot_size_ (FreeList.policy (bullet_pool 0 growth_one)) = 24 /\
  (8 | slot_size_ (FreeList.policy (bullet_pool 0 growth_one))).
Proof.
  assert (Hfit : params_fit 4096 24 8 0).
  { unfold params_fit. repeat split; try reflexivity; discriminate. }
  split; [exact Hfit|]. split; [reflexivity|].
  exact (proj1 (proj2 (proj2
    (constructor_slot_and_growth (list Z) 4096 24 8 0 growth_one Hfit)))).
Defined.

(** X5: as long as [lcm(page_size, slot_size)] and the requested minimum plus the
    slot size fit [size_t], [compute_min_pages] returns the least positive multiple
    of [lcm(page_size, slot_size) / page_size] that is not below the requested
    minimum (the unit itself when no minimum is requested). *)
Theorem compute_min_pages_is_least (ps ss user : Z) :
  0 < ps -> 0 < ss -> Z.lcm ps ss < SIZE_MOD -> 0 <= user -> user + ss < SIZE_MOD ->
  let unit := detail.lcm ps ss / ps in
  let base := compute_min_pages ps ss user in
  0 < unit /\ 0 < base /\ (unit | base) /\ user <= base /\
  (forall m, 0 < m -> (unit | m) -> user <= m -> base <= m) /\
  compute_min_pages ps ss 0 = unit.
Proof.
  intros Hps Hss Hfit Hu Hus unit base. subst unit base. unfold compute_min_pages.
  rewrite lcm_spec by lia.
  assert (Hg : 0 < Z.gcd ps ss).
  { pose proof (Z.gcd_nonneg ps ss).
    assert (Z.gcd ps ss <> 0) by (intros E; apply Z.gcd_eq_0_l in E; lia). lia. }
  destruct (Z.gcd_divide_l ps ss) as [P HP], (Z.gcd_divide_r ps ss) as [S HS].
  remember (Z.gcd ps ss) as g eqn:Eg.
  assert (HPpos : 0 < P) by nia. assert (HSpos : 0 < S) by nia.
  assert (Hl : Z.lcm ps ss = S * ps).
  { unfold Z.lcm. rewrite <- Eg.
    replace (ss / g) with S by (apply Z.div_unique_exact; lia).
    rewrite Z.abs_eq by nia. lia. }
  rewrite Hl, Z.div_mul by lia.
  assert (HSle : S <= ss) by nia.
  change (0 <? 0) with false. cbv iota.
  destruct (Z.ltb_spec 0 user) as [Hpos|Hzero].
  - rewrite (wrap_small (user + S)) by lia.
    rewrite (wrap_small (user + S - 1)) by lia.
    set (k := (user + S - 1) / S).
    pose proof (Z.div_mod (user + S - 1) S ltac:(lia)) as Hdm.
    pose proof (Z.mod_pos_bound (user + S - 1) S HSpos) as Hmb.
    fold k in Hdm.
    assert (Hk : 1 <= k) by (apply Z.div_le_lower_bound; lia).
    rewrite wrap_small by nia.
    split; [lia|]. split; [nia|]. split; [exists k; lia|]. split; [nia|].
    split; [|reflexivity].
    intros m Hm [j ->] Hle.
    destruct (Z.le_gt_cases k j) as [Hkj|Hkj]; [nia|].
    assert (j + 1 <= k) by lia. nia.
  - split; [lia|]. split; [lia|]. split; [exists 1; lia|]. split; [lia|].
    split; [|reflexivity].
    intros m Hm [j ->] _. assert (1 <= j) by nia. nia.
Qed.

Lemma compute_min_pages_is_least_witness :
  compute_min_pages 4096 24 0 = 3 /\ compute_min_pages 4096 24 4 = 6 /\
  (detail.lcm 4096 24 / 4096 | compute_min_pages 4096 24 4) /\
  4 <= compute_min_pages 4096 24 4.
Proof.
  split; [reflexivity|]. split; [reflexivity|].
  pose proof (compute_min_pages_is_least 4096 24 4 ltac:(lia) ltac:(lia)
                ltac:(reflexivity) ltac:(lia) ltac:(reflexivity))
    as (_ & _ & H1 & H2 & _).
  split; assumption.
Defined.

(** X6: [add_segment_] gives the first segment the base page count; every later
    segment gets the least multiple of the base that is not below the scaled count
    [static_cast<size_t>(hint * growth_factor_)] nor below [hint + base], where
    [hint] is the page count of the segment before. *)
Theorem add_segment_page_count (Args : Type) (p : FreeList.Pool Args) (raw : Z) :
  0 < pages_per_segment_base_ (FreeList.policy p) ->
  0 <= FreeList.next_pages_hint_ p ->
  growth_fits (FreeList.policy p) (FreeList.next_pages_hint_ p) ->
  let base := pages_per_segment_base_ (FreeList.policy p) in
  let hint := FreeList.next_pages_hint_ p in
  let target := wrap (scale (growth_factor_ (FreeList.policy p)) hint) in
  let n := FreeList.next_pages_hint_ (FreeList.add_segment_ raw p) in
  (FreeList.segments_ p = [] -> n = base) /\
  (FreeList.segments_ p <> [] ->
     (base | n) /\ target <= n /\ hint + base <= n /\
     forall m, (base | m) -> target <= m -> hint + base <= m -> n <= m).
Proof.
  intros Hb Hh Hfit base hint target n. subst base hint target n. simpl.
  split.
  - intros ->. reflexivity.
  - intros Hne. rewrite bool_decide_eq_false_2 by exact Hne. simpl.
    pose proof (grown_pages_spec (FreeList.policy p) (FreeList.next_pages_hint_ p)
                  Hb Hh Hfit) as Hspec.
    cbv zeta in Hspec. destruct Hspec as (H1 & H2 & H3 & H4).
    split; [exact H4|]. split; [exact H2|]. split; [exact H1|].
    intros m [j ->] Hm1 Hm2. destruct H4 as [k Hk].
    rewrite Hk in *.
    destruct (Z.le_gt_cases k j) as [Hkj|Hkj]; [nia|].
    assert (j + 1 <= k) by lia. nia.
Qed.

Lemma add_segment_page_count_witness :
  let p := FreeList.add_segment_ (2 ^ 32) (bullet_pool 0 (growth_int 3)) in
  FreeList.next_pages_hint_ p = 3 /\
  FreeList.next_pages_hint_ (FreeList.add_segment_ (2 ^ 33) p) = 9 /\
  (3 | FreeList.next_pages_hint_ (FreeList.add_segment_ (2 ^ 33) p)).
Proof.
  intros p. split; [reflexivity|]. split; [reflexivity|].
  assert (Hfit : growth_fits (FreeList.policy p) (FreeList.next_pages_hint_ p)).
  { unfold growth_fits. apply Z.leb_le. vm_compute. reflexivity. }
  assert (Hb : 0 < pages_per_segment_base_ (FreeList.policy p)).
  { apply Z.ltb_lt. vm_compute. reflexivity. }
  assert (Hh : 0 <= FreeList.next_pages_hint_ p).
  { apply Z.leb_le. vm_compute. reflexivity. }
  assert (Hne : FreeList.segments_ p <> []) by (simpl; discriminate).
  exact (proj1 (proj2 (add_segment_page_count (list Z) p (2 ^ 33) Hb Hh Hfit) Hne)).
Defined.
(** ** SegmentedObjectPool.hpp: what the pool hands out *)

Section FreeListFacts.
Context {Args : Type} `{!Constructor Args}.
Import FreeList.
Implicit Types (p : Pool Args) (cs : gmap Z (cell Args)).

Lemma allocate_step args raw p p' a :
  allocate args raw p = Some (p', a) -> step (Allocate args raw) p = Some (p', Some a).
Proof. intros H. simpl. rewrite H. reflexivity. Qed.

Lemma allocate_reachable args raw p p' a :
  reachable p -> admissible (Allocate args raw) p ->
  allocate args raw p = Some (p', a) -> reachable p'.
Proof.
  intros Hreach Hadm Halloc.
  exact (reach_step _ p p' (Some a) Hreach Hadm (allocate_step _ _ _ _ _ Halloc)).
Qed.

Lemma deallocate_reachable ptr p :
  reachable p -> admissible (Deallocate ptr) p -> reachable (deallocate ptr p).
Proof. intros Hreach Hadm. exact (reach_step _ p _ None Hreach Hadm eq_refl). Qed.

Lemma allocate_policy_list args raw p p' a :
  allocate args raw p = Some (p', a) -> policy p' = policy p.
Proof.
  unfold allocate. destruct (negb (free_list_ p =? 0)).
  - destruct (cells (mem p) !! free_list_ p) as [[| |next]|]; try discriminate.
    intros [= <- _]. reflexivity.
  - destruct (last_has_room p); unfold claim_uninit; simpl;
      match goal with |- context [last ?l] => destruct (last l) end; simpl;
      try discriminate; intros [= <- _]; reflexivity.
Qed.

(** An object that is alive sits in a slot below the high-water mark of a segment
    whose block the pool holds. *)
Lemma object_in_slot p a :
  wf p -> is_Some (object_at (mem p) a) ->
  exists seg i,
    seg ∈ segments_ p /\ 0 <= i < next_uninit seg /\ next_uninit seg <= capacity seg /\
    a = data seg + i * slot_size_ (policy p) /\
    blocks (mem p) !! data seg = Some (capacity seg * slot_size_ (policy p)) /\
    0 < data seg /\ data seg + capacity seg * slot_size_ (policy p) <= SIZE_MOD.
Proof.
  intros Hwf [[x r] Hobj]. unfold object_at in Hobj.
  destruct (cells (mem p) !! a) as [c|] eqn:Hc; [|discriminate].
  destruct (wf_cells p Hwf a c Hc) as [_ (seg & i & Hin & Hi & ->)].
  pose proof (wf_segments p Hwf) as Hok. rewrite Forall_forall in Hok.
  destruct (Hok seg Hin) as (Hd & Hhw & _ & Hfit & Hblk).
  exists seg, i. repeat split; try assumption; lia.
Qed.

(** The free list as the model's [vacant] reads it. *)
Lemma vacant_chain p :
  reachable p ->
  chain (cells (mem p)) (free_list_ p) (vacant p) /\ NoDup (vacant p) /\
  (forall a next, cells (mem p) !! a = Some (Node next) -> a ∈ vacant p) /\
  live_count_ p = high_water_total p - Z.of_nat (length (vacant p)) /\
  Z.of_nat (size (cells (mem p))) = high_water_total p.
Proof.
  intros Hreach. pose proof (reachable_wf p Hreach) as Hwf.
  destruct (reachable_counted p Hreach) as (fl & Hchain & Hsize & Hlive & Hpos).
  destruct (wf_free p Hwf) as (fl0 & Hchain0 & Hnodup & Hall).
  rewrite <- (chain_unique _ _ _ _ Hchain Hchain0) in Hnodup, Hall.
  assert (E : vacant p = fl).
  { unfold vacant. apply free_chain_chain; [exact Hchain | lia]. }
  rewrite E. repeat split; assumption.
Qed.

End FreeListFacts.

(** X7: in SegmentedObjectPool.hpp every pointer [allocate] returns is non-null and
    addresses a whole slot, below the high-water mark of one of the pool's segments,
    inside the block that segment holds. *)
Theorem allocate_returns_slot_of_pool (Args : Type) `{!Constructor Args}
    (p p' : FreeList.Pool Args) (args : Args) (raw a : Z) :
  FreeList.reachable p ->
  FreeList.admissible (FreeList.Allocate args raw) p ->
  FreeList.allocate args raw p = Some (p', a) ->
  exists seg i,
    seg ∈ FreeList.segments_ p' /\
    0 <= i < next_uninit seg /\ next_uninit seg <= capacity seg /\
    a = data seg + i * slot_size_ (FreeList.policy p') /\
    blocks (FreeList.mem p') !! data seg
      = Some (capacity seg * slot_size_ (FreeList.policy p')) /\
    0 < a /\ a + slot_size_ (FreeList.policy p') <= SIZE_MOD.
Proof.
  intros Hreach Hadm Halloc.
  pose proof (reachable_wf p' (allocate_reachable _ _ _ _ _ Hreach Hadm Halloc)) as Hwf.
  assert (Hobj : is_Some (object_at (FreeList.mem p') a)).
  { unfold object_at. rewrite (allocate_cells _ _ _ _ _ Halloc), lookup_insert_eq. eauto. }
  destruct (object_in_slot p' a Hwf Hobj) as (seg & i & Hin & Hi & Hhw & -> & Hblk & Hd & Hfit).
  exists seg, i. pose proof (FreeList.wf_slot p' Hwf).
  repeat split; try assumption; nia.
Qed.

(** X8: two different objects that are alive in the pool never overlap: their slots
    are [slot_size_] bytes each and disjoint. *)
Theorem live_objects_do_not_overlap (Args : Type) `{!Constructor Args}
    (p : FreeList.Pool Args) (a b : Z) :
  FreeList.reachable p ->
  is_Some (object_at (FreeList.mem p) a) ->
  is_Some (object_at (FreeList.mem p) b) ->
  a <> b ->
  a + slot_size_ (FreeList.policy p) <= b \/ b + slot_size_ (FreeList.policy p) <= a.
Proof.
  intros Hreach Ha Hb Hne. pose proof (reachable_wf p Hreach) as Hwf.
  destruct (object_in_slot p a Hwf Ha) as (s & i & Hs & Hi & Hci & -> & _ & _ & _).
  destruct (object_in_slot p b Hwf Hb) as (s' & j & Hs' & Hj & Hcj & -> & _ & _ & _).
  pose proof (FreeList.wf_slot p Hwf) as Hss.
  apply list_elem_of_lookup in Hs as [k Hk]. apply list_elem_of_lookup in Hs' as [k' Hk'].
  destruct (decide (k = k')) as [->|Hkk].
  - rewrite Hk in Hk'. injection Hk' as <-.
    assert (i <> j) by (intros ->; contradiction). nia.
  - destruct (FreeList.wf_apart p Hwf k k' s s' Hk Hk' Hkk) as [H|H]; nia.
Qed.

(** X9: [allocate] leaves every object that is alive as it is: the pointer it
    returns is not the address of such an object, and the object is the same after
    the call. *)
Theorem allocate_leaves_live_objects (Args : Type) `{!Constructor Args}
    (p p' : FreeList.Pool Args) (args : Args) (raw a q : Z) :
  FreeList.reachable p ->
  FreeList.admissible (FreeList.Allocate args raw) p ->
  FreeList.allocate args raw p = Some (p', a) ->
  is_Some (object_at (FreeList.mem p) q) ->
  q <> a /\ object_at (FreeList.mem p') q = object_at (FreeList.mem p) q.
Proof.
  intros Hreach Hadm Halloc Hq.
  pose proof (allocate_never_aliases _ _ _ _ _ Hreach Hadm Halloc) as Hfree.
  assert (Hne : q <> a).
  { intros ->. rewrite Hfree in Hq. destruct Hq as [x Hx]. discriminate Hx. }
  split; [exact Hne|]. unfold object_at.
  rewrite (allocate_cells _ _ _ _ _ Halloc), lookup_insert_ne by congruence.
  reflexivity.
Qed.
(** The README's walk-through is a run the contract allows. *)
Lemma bullet_params_fit : params_fit 4096 24 8 0.
Proof. unfold params_fit. repeat split; try reflexivity; discriminate. Qed.

Lemma readme_created_reachable : FreeList.reachable readme_created.
Proof.
  set (p0 := bullet_pool 0 growth_one).
  set (p1 := FreeList.run [FreeList.Allocate [10; 20] (2 ^ 32)] p0).
  assert (H0 : FreeList.reachable p0) by (apply FreeList.reach_make, bullet_params_fit).
  assert (Hadm0 : FreeList.admissible (FreeList.Allocate [10; 20] (2 ^ 32)) p0).
  { intros _. split; [reflexivity|]. split; [reflexivity|].
    split; [apply Z.leb_le; vm_compute; reflexivity|].
    intros d b H. simpl in H. rewrite lookup_empty in H. discriminate H. }
  assert (H1 : FreeList.reachable p1).
  { apply (allocate_reachable [10; 20] (2 ^ 32) p0 p1 (2 ^ 32) H0 Hadm0). reflexivity. }
  assert (Hadm1 : FreeList.admissible (FreeList.Allocate [] 0) p1).
  { intros H. vm_compute in H. discriminate H. }
  apply (allocate_reachable [] 0 p1 readme_created (2 ^ 32 + 24) H1 Hadm1). reflexivity.
Qed.

Lemma readme_created_objects :
  object_at (FreeList.mem readme_created) (2 ^ 32) = Some ([10; 20], false) /\
  object_at (FreeList.mem readme_created) (2 ^ 32 + 24) = Some ([], false).
Proof. split; vm_compute; reflexivity. Qed.

Lemma readme_created_full_admissible args raw :
  FreeList.admissible (FreeList.Allocate args raw) readme_created.
Proof. intros H. vm_compute in H. discriminate H. Qed.

Lemma readme_recycled_reachable : FreeList.reachable readme_recycled.
Proof.
  apply deallocate_reachable; [exact readme_created_reachable|].
  right. rewrite (proj1 readme_created_objects). eauto.
Qed.

Lemma allocate_returns_slot_of_pool_witness :
  exists p' seg i,
    FreeList.allocate [50; 60] 0 readme_created = Some (p', 2 ^ 32 + 48) /\
    seg ∈ FreeList.segments_ p' /\
    0 <= i < next_uninit seg /\ next_uninit seg <= capacity seg /\
    2 ^ 32 + 48 = data seg + i * slot_size_ (FreeList.policy p') /\
    blocks (FreeList.mem p') !! data seg
      = Some (capacity seg * slot_size_ (FreeList.policy p')) /\
    0 < 2 ^ 32 + 48 /\ 2 ^ 32 + 48 + slot_size_ (FreeList.policy p') <= SIZE_MOD.
Proof.
  set (p' := FreeList.run [FreeList.Allocate [50; 60] 0] readme_created).
  assert (Halloc : FreeList.allocate [50; 60] 0 readme_created = Some (p', 2 ^ 32 + 48))
    by reflexivity.
  destruct (allocate_returns_slot_of_pool (list Z) readme_created p' [50; 60] 0 (2 ^ 32 + 48)
              readme_created_reachable (readme_created_full_admissible _ _) Halloc)
    as (seg & i & H).
  exists p', seg, i. split; [exact Halloc | exact H].
Defined.

Lemma live_objects_do_not_overlap_witness :
  2 ^ 32 + slot_size_ (FreeList.policy readme_created) <= 2 ^ 32 + 24 \/
  2 ^ 32 + 24 + slot_size_ (FreeList.policy readme_created) <= 2 ^ 32.
Proof.
  apply (live_objects_do_not_overlap (list Z) readme_created (2 ^ 32) (2 ^ 32 + 24)
           readme_created_reachable).
  - rewrite (proj1 readme_created_objects). eauto.
  - rewrite (proj2 readme_created_objects). eauto.
  - discriminate.
Defined.

Lemma allocate_leaves_live_objects_witness :
  exists p',
    FreeList.allocate [50; 60] 0 readme_created = Some (p', 2 ^ 32 + 48) /\
    2 ^ 32 <> 2 ^ 32 + 48 /\
    object_at (FreeList.mem p') (2 ^ 32) = object_at (FreeList.mem readme_created) (2 ^ 32).
Proof.
  set (p' := FreeList.run [FreeList.Allocate [50; 60] 0] readme_created).
  assert (Halloc : FreeList.allocate [50; 60] 0 readme_created = Some (p', 2 ^ 32 + 48))
    by reflexivity.
  exists p'. split; [exact Halloc|].
  apply (allocate_leaves_live_objects (list Z) readme_created p' [50; 60] 0 (2 ^ 32 + 48)
           (2 ^ 32) readme_created_reachable (readme_created_full_admissible _ _) Halloc).
  rewrite (proj1 readme_created_objects). eauto.
Defined.
(** ** SegmentedObjectPool.hpp: counting and the free list *)

Section FreeListBooks.
Context {Args : Type} `{!Constructor Args}.
Import FreeList.
Implicit Types (p : Pool Args) (cs : gmap Z (cell Args)).

Lemma object_is_cell p a :
  is_Some (object_at (mem p) a) -> exists x r, cells (mem p) !! a = Some (Live x r).
Proof.
  intros [[x r] H]. unfold object_at in H.
  destruct (cells (mem p) !! a) as [[x' r'| |n]|]; try discriminate. eauto.
Qed.

(** The cells that are not alive are the nodes of the free list. *)
Lemma not_alive_is_vacant p :
  reachable p ->
  dom (filter (fun kv => ~ (is_live (snd kv) = true)) (cells (mem p)))
  = list_to_set (C := gset Z) (vacant p).
Proof.
  intros Hreach. pose proof (reachable_wf p Hreach) as Hwf.
  destruct (vacant_chain p Hreach) as (Hchain & Hnodup & Hall & _).
  apply set_eq. intros a. rewrite elem_of_dom, elem_of_list_to_set. split.
  - intros [c Hc]. apply map_lookup_filter_Some in Hc as [Hc Hnl]. simpl in Hnl.
    destruct c as [x r| |next].
    + exfalso. apply Hnl. reflexivity.
    + destruct (wf_cells p Hwf a Dead Hc) as [Hdead _]. contradiction.
    + eapply Hall. exact Hc.
  - intros Hin. destruct (chain_nodes _ _ _ _ Hchain Hin) as [next Hn].
    exists (Node next). apply map_lookup_filter_Some. split; [exact Hn|].
    simpl. discriminate.
Qed.

Lemma alive_size p :
  reachable p ->
  Z.of_nat (size (alive (mem p))) = high_water_total p - Z.of_nat (length (vacant p)).
Proof.
  intros Hreach.
  destruct (vacant_chain p Hreach) as (_ & Hnodup & _ & _ & Hsize).
  pose proof (not_alive_is_vacant p Hreach) as Hdom.
  apply (f_equal size) in Hdom. rewrite size_dom, size_list_to_set in Hdom by exact Hnodup.
  pose proof (map_filter_union_complement
                (fun kv : Z * cell Args => is_live (snd kv) = true) (cells (mem p))) as Hsplit.
  apply (f_equal size) in Hsplit.
  rewrite map_size_disj_union in Hsplit by apply map_disjoint_filter_complement.
  unfold alive. lia.
Qed.

Lemma live_counts_the_live_objects_aux p :
  reachable p -> live p = Z.of_nat (size (alive (mem p))).
Proof.
  intros Hreach. rewrite (alive_size p Hreach).
  exact (proj1 (proj2 (proj2 (proj2 (vacant_chain p Hreach))))).
Qed.

End FreeListBooks.

(** X10: in every state the contract leads to, [live()] is exactly the number of
    objects that are alive in the pool's slots. *)
Theorem live_counts_the_live_objects (Args : Type) `{!Constructor Args} (p : FreeList.Pool Args) :
  FreeList.reachable p ->
  FreeList.live p = Z.of_nat (size (alive (FreeList.mem p))).
Proof.
  intros Hreach. apply live_counts_the_live_objects_aux. exact Hreach.
Qed.

Lemma live_counts_the_live_objects_witness :
  FreeList.live readme_recycled = Z.of_nat (size (alive (FreeList.mem readme_recycled))) /\
  FreeList.live readme_recycled = 1.
Proof.
  split; [|vm_compute; reflexivity].
  exact (live_counts_the_live_objects (list Z) readme_recycled readme_recycled_reachable).
Defined.

(** X11: [deallocate] of an object that is alive runs its destructor once, ends that
    object, leaves every other object and the segments as they are, and takes
    exactly one off the live count, which was at least one. *)
Theorem deallocate_ends_one_object (Args : Type) `{!Constructor Args}
    (p : FreeList.Pool Args) (ptr : Z) :
  FreeList.reachable p ->
  is_Some (object_at (FreeList.mem p) ptr) ->
  let p' := FreeList.deallocate ptr p in
  1 <= FreeList.live p /\ FreeList.live p' = FreeList.live p - 1 /\
  object_at (FreeList.mem p') ptr = None /\
  (forall q, q <> ptr -> object_at (FreeList.mem p') q = object_at (FreeList.mem p) q) /\
  destroyed (FreeList.mem p') = ptr :: destroyed (FreeList.mem p) /\
  FreeList.segments_ p' = FreeList.segments_ p /\
  blocks (FreeList.mem p') = blocks (FreeList.mem p).
Proof.
  intros Hreach Hobj p'.
  pose proof (reachable_wf p Hreach) as Hwf.
  destruct (object_is_cell p ptr Hobj) as (x & r & Hcell).
  pose proof (cells_in_space p ptr _ Hwf Hcell) as Hptr.
  assert (Hreach' : FreeList.reachable p').
  { apply deallocate_reachable; [exact Hreach | right; exact Hobj]. }
  pose proof (live_counts_the_live_objects_aux p Hreach) as Hl.
  pose proof (live_counts_the_live_objects_aux p' Hreach') as Hl'.
  assert (Hcells : cells (FreeList.mem p') = <[ptr := Node (FreeList.free_list_ p)]> (cells (FreeList.mem p))).
  { subst p'. unfold FreeList.deallocate. destruct (Z.eqb_spec ptr 0); [lia|].
    unfold set_cell, destroy. simpl. apply insert_insert_eq. }
  assert (Halive : alive (FreeList.mem p') = delete ptr (alive (FreeList.mem p))).
  { unfold alive. rewrite Hcells.
    rewrite map_filter_insert_False by (simpl; discriminate).
    apply map_filter_delete. }
  assert (Hin : alive (FreeList.mem p) !! ptr = Some (Live x r)).
  { unfold alive. apply map_lookup_filter_Some. split; [exact Hcell | reflexivity]. }
  rewrite Halive, map_size_delete_Some in Hl' by eauto.
  assert (size (alive (FreeList.mem p)) <> 0%nat).
  { intros E. apply map_size_empty_iff in E. rewrite E, lookup_empty in Hin. discriminate. }
  subst p'. unfold FreeList.deallocate in *. destruct (Z.eqb_spec ptr 0); [lia|].
  unfold object_at, set_cell, destroy. simpl in *.
  split; [lia|]. split; [lia|]. split; [rewrite lookup_insert_eq; reflexivity|].
  split; [|repeat split].
  intros q Hq. rewrite !lookup_insert_ne by congruence. reflexivity.
Qed.
Lemma deallocate_ends_one_object_witness :
  FreeList.live readme_created = 2 /\
  FreeList.live readme_recycled = FreeList.live readme_created - 1 /\
  object_at (FreeList.mem readme_recycled) (2 ^ 32) = None /\
  destroyed (FreeList.mem readme_recycled) = 2 ^ 32 :: destroyed (FreeList.mem readme_created).
Proof.
  split; [vm_compute; reflexivity|].
  assert (Hobj : is_Some (object_at (FreeList.mem readme_created) (2 ^ 32))).
  { rewrite (proj1 readme_created_objects). eauto. }
  destruct (deallocate_ends_one_object (list Z) readme_created (2 ^ 32)
              readme_created_reachable Hobj) as (_ & H1 & H2 & _ & H3 & _).
  split; [exact H1|]. split; [exact H2 | exact H3].
Defined.

Section FreeListStack.
Context {Args : Type} `{!Constructor Args}.
Import FreeList.
Implicit Types (p : Pool Args) (cs : gmap Z (cell Args)).

Lemma vacant_deallocate p ptr :
  reachable p -> is_Some (object_at (mem p) ptr) ->
  vacant (deallocate ptr p) = ptr :: vacant p.
Proof.
  intros Hreach Hobj. pose proof (reachable_wf p Hreach) as Hwf.
  destruct (object_is_cell p ptr Hobj) as (x & r & Hcell).
  pose proof (cells_in_space p ptr _ Hwf Hcell) as Hptr.
  assert (Hreach' : reachable (deallocate ptr p)).
  { apply deallocate_reachable; [exact Hreach | right; exact Hobj]. }
  destruct (vacant_chain p Hreach) as (Hchain & _).
  destruct (vacant_chain _ Hreach') as (Hchain' & _).
  apply (chain_unique _ _ _ _ Hchain').
  unfold deallocate. destruct (Z.eqb_spec ptr 0); [lia|].
  unfold set_cell, destroy. simpl. split; [reflexivity|]. split; [lia|].
  exists (free_list_ p). split; [apply lookup_insert_eq|].
  assert (Hnotin : ptr ∉ vacant p).
  { intros Hin. destruct (chain_nodes _ _ _ _ Hchain Hin) as [next Hn]. congruence. }
  apply chain_insert_other; [exact Hnotin|].
  apply chain_insert_other; [exact Hnotin | exact Hchain].
Qed.

Lemma vacant_allocate p args raw a rest :
  reachable p -> vacant p = a :: rest ->
  exists p', allocate args raw p = Some (p', a) /\ vacant p' = rest.
Proof.
  intros Hreach Hvac. pose proof (reachable_wf p Hreach) as Hwf.
  destruct (vacant_chain p Hreach) as (Hchain & Hnodup & _).
  rewrite Hvac in Hchain, Hnodup.
  destruct Hchain as (Ea & Hnz & next & Hnext & Hrest). subst a.
  apply NoDup_cons in Hnodup as [Hnotin _].
  destruct (allocate_reuse_wf args raw p Hwf Hnz) as (next' & Hnext' & Halloc & _).
  cbv zeta in Halloc. rewrite Hnext in Hnext'. injection Hnext' as <-.
  eexists. split; [exact Halloc|].
  assert (Hadm : admissible (Allocate args raw) p).
  { intros Hgrow. unfold needs_growth in Hgrow.
    destruct (Z.eqb_spec (free_list_ p) 0); [contradiction | discriminate Hgrow]. }
  pose proof (allocate_reachable _ _ _ _ _ Hreach Hadm Halloc) as Hreach'.
  destruct (vacant_chain _ Hreach') as (Hchain' & _).
  apply (chain_unique _ _ _ _ Hchain').
  simpl. rewrite cells_construct. apply chain_insert_other; assumption.
Qed.

End FreeListStack.

(** X12: the free list of SegmentedObjectPool.hpp is a stack: [deallocate] of a live
    object puts its slot on top, and while the list is not empty [allocate] returns
    the slot on top and takes it off, whatever the segments have left. *)
Theorem free_list_is_last_in_first_out (Args : Type) `{!Constructor Args} (p : FreeList.Pool Args) :
  FreeList.reachable p ->
  (forall ptr, is_Some (object_at (FreeList.mem p) ptr) ->
     FreeList.vacant (FreeList.deallocate ptr p) = ptr :: FreeList.vacant p) /\
  (forall args raw a rest, FreeList.vacant p = a :: rest ->
     exists p', FreeList.allocate args raw p = Some (p', a) /\ FreeList.vacant p' = rest) /\
  (FreeList.vacant p = [] <-> FreeList.free_list_ p = 0).
Proof.
  intros Hreach. split; [|split].
  - intros ptr. apply vacant_deallocate. exact Hreach.
  - intros args raw a rest. apply vacant_allocate. exact Hreach.
  - destruct (vacant_chain p Hreach) as (Hchain & _).
    destruct (FreeList.vacant p) as [|b l] eqn:E; simpl in Hchain.
    + split; intros _; [exact Hchain | reflexivity].
    + destruct Hchain as (-> & Hnz & _). split; [discriminate | contradiction].
Qed.

Lemma free_list_is_last_in_first_out_witness :
  FreeList.vacant (FreeList.deallocate (2 ^ 32 + 24) readme_recycled)
    = (2 ^ 32 + 24) :: FreeList.vacant readme_recycled /\
  FreeList.vacant readme_recycled = [2 ^ 32].
Proof.
  split; [|vm_compute; reflexivity].
  apply (proj1 (free_list_is_last_in_first_out (list Z) readme_recycled
                  readme_recycled_reachable)).
  assert (E : object_at (FreeList.mem readme_recycled) (2 ^ 32 + 24) = Some ([], false))
    by (vm_compute; reflexivity).
  rewrite E. eauto.
Defined.
(** ** SegmentedObjectPool.hpp: blocks, capacity and [clear] *)

Section FreeListBlocks.
Context {Args : Type} `{!Constructor Args}.
Import FreeList.
Implicit Types (p : Pool Args) (m : Memory Args).

Lemma release_all_destroyed (segs : list Segment) : forall m,
  destroyed (foldl (fun m seg => operator_delete (data seg) m) m segs) = destroyed m.
Proof.
  induction segs as [|seg segs IH]; intros m; [reflexivity|].
  simpl. rewrite IH. unfold operator_delete.
  destruct (blocks m !! data seg); reflexivity.
Qed.

Lemma blocks_are_segments p d b :
  wf p ->
  blocks (mem p) !! d = Some b <->
  exists seg, seg ∈ segments_ p /\ data seg = d /\ b = capacity seg * slot_size_ (policy p).
Proof.
  intros Hwf. pose proof (wf_segments p Hwf) as Hok. rewrite Forall_forall in Hok. split.
  - intros Hb. destruct (wf_blocks p Hwf d b Hb) as (seg & Hin & <-).
    exists seg. split; [exact Hin|]. split; [reflexivity|].
    destruct (Hok seg Hin) as (_ & _ & _ & _ & Hblk). congruence.
  - intros (seg & Hin & <- & ->). destruct (Hok seg Hin) as (_ & _ & _ & _ & Hblk). exact Hblk.
Qed.

(** Segments that do not overlap have, between them, fewer slots than there are
    addresses. *)
Lemma slots_fit ss (segs : list Segment) :
  0 < ss ->
  Forall (fun s => 0 < data s /\ 0 <= capacity s /\ data s + capacity s * ss <= SIZE_MOD) segs ->
  (forall i j s s', segs !! i = Some s -> segs !! j = Some s' -> i <> j -> apart ss s s') ->
  exists X : gset Z,
    Z.of_nat (size X) = foldr (fun seg acc => capacity seg + acc) 0 segs /\
    forall x, x ∈ X -> exists s, s ∈ segs /\ data s <= x < data s + capacity s.
Proof.
  intros Hss. induction segs as [|s segs IH]; intros Hok Hapart.
  - exists ∅. split; [reflexivity|]. intros x Hx. apply elem_of_empty in Hx. contradiction.
  - apply Forall_cons in Hok as [(Hd & Hc & Hfit) Hok].
    destruct (IH Hok) as (X & Hsize & HX).
    { intros i j s1 s2 H1 H2 Hij. apply (Hapart (S i) (S j)); [exact H1 | exact H2 | lia]. }
    set (Y := list_to_set (C := gset Z) (seqZ (data s) (capacity s))).
    assert (Hdisj : Y ## X).
    { intros x HY HXx. apply elem_of_list_to_set, elem_of_seqZ in HY.
      destruct (HX x HXx) as (s' & Hin & Hx).
      apply list_elem_of_lookup in Hin as [j Hj].
      rewrite Forall_forall in Hok.
      destruct (Hok s' ltac:(eapply list_elem_of_lookup_2; exact Hj)) as (_ & Hc' & _).
      destruct (Hapart 0%nat (S j) s s' eq_refl Hj ltac:(lia)) as [H|H]; nia. }
    exists (Y ∪ X). split.
    + rewrite size_union by exact Hdisj. subst Y.
      rewrite size_list_to_set, length_seqZ by apply NoDup_seqZ. simpl. lia.
    + intros x Hx. apply elem_of_union in Hx as [Hx|Hx].
      * apply elem_of_list_to_set, elem_of_seqZ in Hx. exists s.
        split; [apply list_elem_of_here | lia].
      * destruct (HX x Hx) as (s' & Hin & Hb). exists s'.
        split; [apply list_elem_of_further; exact Hin | exact Hb].
Qed.

Lemma slots_total_fits p : wf p -> 0 <= slots_total p < SIZE_MOD.
Proof.
  intros Hwf. pose proof (wf_slot p Hwf) as Hss.
  pose proof (wf_segments p Hwf) as Hok.
  assert (Hok' : Forall (fun s => 0 < data s /\ 0 <= capacity s /\
                   data s + capacity s * slot_size_ (policy p) <= SIZE_MOD) (segments_ p)).
  { eapply Forall_impl; [exact Hok|]. intros s (H1 & H2 & H3 & H4 & _). lia. }
  destruct (slots_fit _ _ Hss Hok' (wf_apart p Hwf)) as (X & Hsize & HX).
  unfold slots_total. rewrite <- Hsize. split; [lia|].
  assert (Hsub : X ⊆ list_to_set (C := gset Z) (seqZ 1 (SIZE_MOD - 1))).
  { intros x Hx. apply elem_of_list_to_set, elem_of_seqZ.
    destruct (HX x Hx) as (s & Hin & Hb). rewrite Forall_forall in Hok'.
    destruct (Hok' s Hin) as (H1 & H2 & H3). nia. }
  apply subseteq_size in Hsub.
  rewrite size_list_to_set, length_seqZ in Hsub by apply NoDup_seqZ.
  assert (0 < SIZE_MOD) by reflexivity. lia.
Qed.

Lemma capacity_sum_wrap (segs : list Segment) : forall acc,
  Forall (fun s => 0 <= capacity s) segs -> 0 <= acc ->
  acc + foldr (fun seg a => capacity seg + a) 0 segs < SIZE_MOD ->
  foldl (fun c s => wrap (c + capacity s)) acc segs
  = acc + foldr (fun seg a => capacity seg + a) 0 segs.
Proof.
  induction segs as [|s segs IH]; intros acc Hok Hacc Hfit; simpl in *; [lia|].
  apply Forall_cons in Hok as [Hc Hok].
  assert (0 <= foldr (fun seg a => capacity seg + a) 0 segs).
  { clear -Hok. induction Hok; simpl; lia. }
  rewrite (wrap_small (acc + capacity s)) by lia.
  rewrite IH by (try assumption; lia). lia.
Qed.

Lemma high_water_le_slots (segs : list Segment) :
  Forall (fun s => 0 <= next_uninit s <= capacity s) segs ->
  0 <= foldr (fun seg acc => next_uninit seg + acc) 0 segs
    <= foldr (fun seg acc => capacity seg + acc) 0 segs.
Proof. induction 1; simpl; lia. Qed.

End FreeListBlocks.

(** X13: [capacity_total()] is the number of slots of all segments (the running sum
    never leaves [size_t]), and the live count never exceeds the slots handed out so
    far, which never exceed the capacity. *)
Theorem live_within_capacity (Args : Type) `{!Constructor Args} (p : FreeList.Pool Args) :
  FreeList.reachable p ->
  FreeList.capacity_total p = FreeList.slots_total p /\
  0 <= FreeList.live p /\
  FreeList.live p <= FreeList.high_water_total p /\
  FreeList.high_water_total p <= FreeList.capacity_total p.
Proof.
  intros Hreach. pose proof (reachable_wf p Hreach) as Hwf.
  pose proof (slots_total_fits p Hwf) as Hfit.
  pose proof (FreeList.wf_segments p Hwf) as Hok.
  assert (Hcap : FreeList.capacity_total p = FreeList.slots_total p).
  { unfold FreeList.capacity_total. rewrite capacity_sum_wrap.
    - reflexivity.
    - eapply Forall_impl; [exact Hok|]. intros s (_ & _ & H & _). lia.
    - lia.
    - exact (proj2 Hfit). }
  destruct (vacant_chain p Hreach) as (_ & _ & _ & Hlive & _).
  destruct (reachable_counted p Hreach) as (_ & _ & _ & _ & Hpos).
  pose proof (high_water_le_slots (FreeList.segments_ p)
                ltac:(eapply Forall_impl; [exact Hok|]; intros s (_ & H & _); exact H)) as Hhw.
  rewrite Hcap. unfold FreeList.live, FreeList.high_water_total, FreeList.slots_total in *.
  repeat split; lia.
Qed.

Lemma live_within_capacity_witness :
  FreeList.capacity_total readme_recycled = 512 /\
  FreeList.live readme_recycled <= FreeList.high_water_total readme_recycled /\
  FreeList.high_water_total readme_recycled <= FreeList.capacity_total readme_recycled.
Proof.
  split; [vm_compute; reflexivity|].
  destruct (live_within_capacity (list Z) readme_recycled readme_recycled_reachable)
    as (_ & _ & H1 & H2).
  split; assumption.
Defined.

(** X14: the blocks the pool holds are exactly the blocks of its segments, each of
    [capacity * slot_size_] bytes; [clear] releases every one of them, leaves no
    slot content behind and resets the counters and the free list. *)
Theorem clear_releases_every_block (Args : Type) `{!Constructor Args} (p : FreeList.Pool Args) :
  FreeList.reachable p ->
  (forall d b,
     blocks (FreeList.mem p) !! d = Some b <->
     exists seg, seg ∈ FreeList.segments_ p /\ data seg = d /\
                 b = capacity seg * slot_size_ (FreeList.policy p)) /\
  blocks (FreeList.mem (FreeList.clear p)) = ∅ /\
  cells (FreeList.mem (FreeList.clear p)) = ∅ /\
  FreeList.live (FreeList.clear p) = 0 /\
  FreeList.segments (FreeList.clear p) = 0 /\
  FreeList.capacity_total (FreeList.clear p) = 0 /\
  FreeList.vacant (FreeList.clear p) = [].
Proof.
  intros Hreach. pose proof (reachable_wf p Hreach) as Hwf.
  destruct (clear_memory_empty p Hwf) as [Hcells Hblocks].
  split; [intros d b; apply blocks_are_segments; exact Hwf|].
  split; [exact Hblocks|]. split; [exact Hcells|].
  split; [reflexivity|]. split; [reflexivity|]. split; [reflexivity|].
  unfold FreeList.vacant. rewrite Hcells. reflexivity.
Qed.

Lemma clear_releases_every_block_witness :
  blocks (FreeList.mem readme_recycled) !! (2 ^ 32) = Some 12288 /\
  blocks (FreeList.mem (FreeList.clear readme_recycled)) = ∅ /\
  cells (FreeList.mem (FreeList.clear readme_recycled)) = ∅.
Proof.
  split; [vm_compute; reflexivity|].
  destruct (clear_releases_every_block (list Z) readme_recycled readme_recycled_reachable)
    as (_ & H1 & H2 & _).
  split; assumption.
Defined.

(** X15: [clear] runs no destructor: the objects that are alive are dropped with
    their blocks, in all three revisions. *)
Theorem clear_runs_no_destructor (Args : Type)
    (pl : FreeList.Pool Args) (pf : FreeFlags.Pool Args) (ps : FreeStack.Pool Args) :
  destroyed (FreeList.mem (FreeList.clear pl)) = destroyed (FreeList.mem pl) /\
  destroyed (FreeFlags.mem (FreeFlags.clear pf)) = destroyed (FreeFlags.mem pf) /\
  destroyed (FreeStack.mem (FreeStack.clear ps)) = destroyed (FreeStack.mem ps).
Proof.
  split; [apply release_all_destroyed|]. split.
  - unfold FreeFlags.clear. simpl.
    generalize (FreeFlags.mem pf). induction (FreeFlags.segments_ pf) as [|seg segs IH];
      intros m; [reflexivity|].
    simpl. rewrite IH. unfold operator_delete.
    destruct (blocks m !! FreeFlags.data seg); reflexivity.
  - apply release_all_destroyed.
Qed.
(** ** SegmentedObjectPool.hpp: fresh slots and restart after [clear] *)

Section FreeListFresh.
Context {Args : Type} `{!Constructor Args}.
Import FreeList.
Implicit Types (p : Pool Args).

(** X16: when the free list is empty and the newest segment has room for [n] more
    objects, [n] calls of [allocate] in a row return [n] adjacent slots: each pointer
    is [slot_size_] bytes past the one before, starting at the high-water mark. *)
Theorem fresh_allocations_are_adjacent p (l : list Segment) (seg : Segment)
    (ops : list (op Args)) :
  reachable p ->
  free_list_ p = 0 ->
  segments_ p = l ++ [seg] ->
  Forall (fun o => is_allocate o = true) ops ->
  next_uninit seg + Z.of_nat (length ops) <= capacity seg ->
  returned ops p =
    Some ((fun k => data seg + (next_uninit seg + Z.of_nat k) * slot_size_ (policy p))
            <$> seq 0 (length ops)).
Proof.
  revert p l seg.
  induction ops as [|o ops IH]; intros p l seg Hreach Hnil Hsegs Hall Hroom; [reflexivity|].
  apply Forall_cons in Hall as [Ho Hall].
  destruct o as [args raw| |]; try discriminate Ho.
  simpl length in *. pose proof (reachable_wf p Hreach) as Hwf.
  assert (Hlt : next_uninit seg < capacity seg) by lia.
  destruct (claim_uninit_wf args p l seg Hwf Hsegs Hlt) as (_ & Hclaim & _).
  cbv zeta in Hclaim.
  assert (Hhas : last_has_room p = true).
  { unfold last_has_room. rewrite Hsegs, last_snoc. apply Z.ltb_lt. exact Hlt. }
  eassert (Halloc : allocate args raw p = Some _).
  { unfold allocate. rewrite Hnil, Hhas. simpl. exact Hclaim. }
  assert (Hadm : admissible (Allocate args raw) p).
  { intros Hgrow. unfold needs_growth in Hgrow. rewrite Hhas, andb_false_r in Hgrow.
    discriminate Hgrow. }
  pose proof (allocate_reachable _ _ _ _ _ Hreach Hadm Halloc) as Hreach'.
  cbn [returned step]. rewrite Halloc. cbn [mbind option_bind].
  rewrite (IH _ l {| data := data seg; capacity := capacity seg;
                     next_uninit := next_uninit seg + 1 |} Hreach' Hnil eq_refl Hall)
    by (simpl; lia).
  cbn [mbind option_bind]. f_equal. cbn [seq fmap list_fmap]. f_equal; [f_equal; lia|].
  rewrite <- fmap_S_seq, <- list_fmap_compose. apply list_fmap_ext.
  intros i k _. simpl. f_equal. lia.
Qed.

(** The page counts of successive growths depend on the sizing policy, the page
    count of the newest segment and on whether there is a segment at all. *)
Lemma growths_depend (raws : list Z) : forall p (q : Pool Args),
  policy p = policy q -> (segments_ p = [] <-> segments_ q = []) ->
  (segments_ p <> [] -> next_pages_hint_ p = next_pages_hint_ q) ->
  growths raws p = growths raws q.
Proof.
  induction raws as [|raw raws IH]; intros p q Hpol Hempty Hhint; [reflexivity|].
  rewrite !growths_cons.
  assert (E : next_pages_hint_ (add_segment_ raw p) = next_pages_hint_ (add_segment_ raw q)).
  { simpl. rewrite Hpol. destruct (decide (segments_ p = [])) as [Hp|Hp].
    - rewrite !bool_decide_eq_true_2 by tauto. reflexivity.
    - rewrite !bool_decide_eq_false_2 by tauto. rewrite (Hhint Hp). reflexivity. }
  rewrite E. f_equal. apply IH.
  - exact Hpol.
  - split; intros H; exfalso; eapply app_cons_not_nil; symmetry; exact H.
  - intros _. exact E.
Qed.

End FreeListFresh.

Lemma fresh_allocations_are_adjacent_witness :
  FreeList.returned
    [FreeList.Allocate [50; 60] 0; FreeList.Allocate [230; 170] 0;
     FreeList.Allocate [435; 520] 0] readme_created
  = Some [2 ^ 32 + 48; 2 ^ 32 + 72; 2 ^ 32 + 96].
Proof.
  exact (@fresh_allocations_are_adjacent (list Z) _ readme_created []
           {| data := 2 ^ 32; capacity := 512; next_uninit := 2 |}
           [FreeList.Allocate [50; 60] 0; FreeList.Allocate [230; 170] 0;
            FreeList.Allocate [435; 520] 0]
           readme_created_reachable eq_refl eq_refl
           ltac:(repeat constructor) ltac:(simpl; lia)).
Defined.

(** X17: after [clear] the pool sizes its segments as a newly constructed pool of
    the same parameters does: the first segment has the base page count again and
    the later ones grow from there. *)
Theorem clear_restarts_growth (Args : Type) (p : FreeList.Pool Args)
    (os_page sizeof_T alignof_T min_pages : Z) (growth : Growth) (raws : list Z) :
  FreeList.policy p = make_policy os_page sizeof_T alignof_T min_pages growth ->
  FreeList.growths raws (FreeList.clear p)
  = FreeList.growths raws (@FreeList.make Args os_page sizeof_T alignof_T min_pages growth) /\
  FreeList.next_pages_hint_ (FreeList.add_segment_ (hd 0 raws) (FreeList.clear p))
  = pages_per_segment_base_ (FreeList.policy p).
Proof.
  intros Hpol. split; [|reflexivity].
  apply growths_depend; simpl.
  - exact Hpol.
  - tauto.
  - intros H. contradiction.
Qed.

Lemma clear_restarts_growth_witness :
  FreeList.growths [2 ^ 33; 2 ^ 34] (FreeList.clear readme_recycled)
  = FreeList.growths [2 ^ 33; 2 ^ 34] (bullet_pool 0 growth_one) /\
  FreeList.growths [2 ^ 33; 2 ^ 34] (bullet_pool 0 growth_one) = [3; 6] /\
  FreeList.growths [2 ^ 34] readme_recycled = [6].
Proof.
  split; [|split; vm_compute; reflexivity].
  exact (proj1 (clear_restarts_growth (list Z) readme_recycled 4096 24 8 0 growth_one
                  [2 ^ 33; 2 ^ 34] eq_refl)).
Defined.
(** ** The stack revision: the atomic entry points and the order of reuse *)

Section FreeStackFacts.
Context {Args : Type} `{!Constructor Args}.
Import FreeStack.
Implicit Types (p : Pool Args).

Lemma set_lock_allocate args raw p :
  lock_ p = false ->
  (let '(p', r) := allocate args raw (set_lock true p) in (set_lock false p', r))
  = allocate args raw p.
Proof.
  destruct p as [fs segs pol hint n lk m]. simpl. intros ->.
  unfold allocate, last_has_room, claim_uninit, add_segment_, set_lock. simpl.
  destruct fs as [|obj rest]; [|reflexivity].
  destruct (last segs) as [seg|] eqn:E; simpl.
  - destruct (next_uninit seg <? capacity seg); simpl; rewrite ?last_snoc; reflexivity.
  - rewrite last_snoc. reflexivity.
Qed.

Lemma set_lock_deallocate ptr p :
  lock_ p = false -> set_lock false (deallocate ptr (set_lock true p)) = deallocate ptr p.
Proof.
  destruct p as [fs segs pol hint n lk m]. simpl. intros ->.
  unfold deallocate, set_lock. simpl. destruct (ptr =? 0); reflexivity.
Qed.

Lemma deallocate_each_stack (ptrs : list Z) : forall p,
  Forall (fun q => q <> 0) ptrs ->
  free_stack_ (deallocate_each ptrs p) = rev ptrs ++ free_stack_ p /\
  segments_ (deallocate_each ptrs p) = segments_ p.
Proof.
  induction ptrs as [|ptr ptrs IH]; intros p Hnz; [split; reflexivity|].
  apply Forall_cons in Hnz as [Hptr Hnz]. unfold deallocate_each in *. simpl.
  destruct (IH (deallocate ptr p) Hnz) as [E1 E2]. rewrite E1, E2.
  unfold deallocate. destruct (Z.eqb_spec ptr 0); [contradiction|]. simpl.
  split; [|reflexivity]. rewrite <- app_assoc. reflexivity.
Qed.

Lemma allocate_each_stack (calls : list (Args * Z)) : forall p l1 l2,
  free_stack_ p = l1 ++ l2 -> length calls = length l1 ->
  snd (allocate_each calls p) = l1 /\
  free_stack_ (fst (allocate_each calls p)) = l2 /\
  segments_ (fst (allocate_each calls p)) = segments_ p.
Proof.
  induction calls as [|[args raw] calls IH]; intros p l1 l2 Hfs Hlen.
  - destruct l1; [|discriminate Hlen]. repeat split. exact Hfs.
  - destruct l1 as [|a l1]; [discriminate Hlen|]. simpl in Hlen. injection Hlen as Hlen.
    eassert (Halloc : allocate args raw p = (_, a)).
    { unfold allocate. rewrite Hfs. reflexivity. }
    cbn [allocate_each]. rewrite Halloc.
    match goal with |- context [allocate_each calls ?q] =>
      destruct (IH q l1 l2 eq_refl Hlen) as (E1 & E2 & E3);
      destruct (allocate_each calls q) as [p2 l] end.
    simpl in *. subst l. repeat split; assumption.
Qed.

End FreeStackFacts.

(** X18: an atomic entry point called while the lock is free does what the plain
    call does and leaves the lock free; [atomic_deallocate(nullptr)] returns before
    touching the lock; called while the lock is held, by the calling thread itself,
    the spin loop has nobody to release it. *)
Theorem atomic_calls_are_the_plain_calls (Args : Type) `{!Constructor Args}
    (p : FreeStack.Pool Args) (args : Args) (raw ptr : Z) :
  FreeStack.atomic_allocate args raw p
    = (if FreeStack.lock_ p then None else Some (FreeStack.allocate args raw p)) /\
  FreeStack.atomic_deallocate ptr p
    = (if ptr =? 0 then Some p
       else if FreeStack.lock_ p then None else Some (FreeStack.deallocate ptr p)) /\
  FreeStack.atomic_clear p
    = (if FreeStack.lock_ p then None else Some (FreeStack.clear p)).
Proof.
  unfold FreeStack.atomic_allocate, FreeStack.atomic_deallocate, FreeStack.atomic_clear,
    FreeStack.with_lock.
  destruct (FreeStack.lock_ p) eqn:Hlock.
  - split; [reflexivity|]. split; [|reflexivity]. destruct (ptr =? 0); reflexivity.
  - split; [|split].
    + pose proof (set_lock_allocate args raw p Hlock) as E.
      destruct (FreeStack.allocate args raw (FreeStack.set_lock true p)) as [p' r].
      rewrite E. reflexivity.
    + destruct (ptr =? 0); [reflexivity|]. simpl.
      rewrite set_lock_deallocate by exact Hlock. reflexivity.
    + simpl. f_equal. destruct p as [fs segs pol hint n lk m]. simpl in Hlock. subst lk.
      reflexivity.
Qed.

(** X19: the stack revision reuses in last-in first-out order: after [deallocate]
    was called on a list of non-null pointers, as many [allocate] calls return these
    pointers in reverse order, and the segments are not touched. *)
Theorem free_stack_is_last_in_first_out (Args : Type) `{!Constructor Args} (p : FreeStack.Pool Args)
    (ptrs : list Z) (calls : list (Args * Z)) :
  Forall (fun q => q <> 0) ptrs ->
  length calls = length ptrs ->
  let p' := FreeStack.allocate_each calls (FreeStack.deallocate_each ptrs p) in
  snd p' = rev ptrs /\
  FreeStack.free_stack_ (fst p') = FreeStack.free_stack_ p /\
  FreeStack.segments_ (fst p') = FreeStack.segments_ p.
Proof.
  intros Hnz Hlen p'. subst p'.
  destruct (deallocate_each_stack ptrs p Hnz) as [Hfs Hsegs].
  destruct (allocate_each_stack calls _ (rev ptrs) (FreeStack.free_stack_ p) Hfs
              ltac:(rewrite length_rev; exact Hlen)) as (E1 & E2 & E3).
  split; [exact E1|]. split; [exact E2|]. rewrite E3. exact Hsegs.
Qed.

Lemma free_stack_is_last_in_first_out_witness :
  let p := fst (FreeStack.allocate_each [([10; 20], 2 ^ 32); ([], 0)] bullet_stack_pool) in
  snd (FreeStack.allocate_each [([50; 60], 0); ([230; 170], 0)]
         (FreeStack.deallocate_each [2 ^ 32; 2 ^ 32 + 24] p))
  = [2 ^ 32 + 24; 2 ^ 32].
Proof.
  intros p.
  exact (proj1 (free_stack_is_last_in_first_out (list Z) p [2 ^ 32; 2 ^ 32 + 24]
                  [([50; 60], 0); ([230; 170], 0)]
                  ltac:(repeat constructor; discriminate) eq_refl)).
Defined.
(** ** The free-flags revision: which slot is reused, and the flag vector *)

Section FreeFlagsFacts.
Context {Args : Type} `{!Constructor Args}.
Import FreeFlags.
Implicit Types (p : Pool Args) (seg : Segment).

Lemma capacity_reuse ss segs :
  Forall (fun s => 0 <= capacity s) segs ->
  Forall (fun s => 0 <= capacity s) (fst (reuse ss segs)).
Proof.
  induction 1 as [|seg rest Hseg Hrest IH]; simpl; [constructor|].
  destruct (find_free seg) as [i|]; simpl.
  - constructor; [exact Hseg | exact Hrest].
  - destruct (reuse ss rest) as [rest' found]. simpl in *.
    constructor; [exact Hseg | exact IH].
Qed.

Lemma capacity_bump_last segs :
  Forall (fun s => 0 <= capacity s) segs ->
  Forall (fun s => 0 <= capacity s) (bump_last segs).
Proof.
  intros H. unfold bump_last. destruct (last segs) as [seg|] eqn:E; [|exact H].
  apply Forall_insert; [exact H|].
  rewrite Forall_forall in H.
  exact (H seg ltac:(apply last_Some_elem_of; exact E)).
Qed.

Lemma capacity_release ss addr : forall segs segs',
  Forall (fun s => 0 <= capacity s) segs -> release ss addr segs = Some segs' ->
  Forall (fun s => 0 <= capacity s) segs'.
Proof.
  induction segs as [|seg rest IH]; intros segs' Hcap H; simpl in H; [discriminate|].
  apply Forall_cons in Hcap as [Hseg Hrest].
  destruct (owns ss seg addr).
  - injection H as <-. constructor; [exact Hseg | exact Hrest].
  - destruct (release ss addr rest) as [rest'|] eqn:E; simpl in H; [|discriminate].
    injection H as <-. constructor; [exact Hseg | eapply IH; eauto].
Qed.

Lemma seg_capacity_nonneg pol pages : 0 < slot_size_ pol -> 0 <= seg_capacity pol pages.
Proof.
  intros Hss. unfold seg_capacity, seg_bytes.
  apply Z.div_pos; [apply wrap_range | exact Hss].
Qed.

Lemma allocate_capacity args raw p :
  0 < slot_size_ (policy p) ->
  Forall (fun s => 0 <= capacity s) (segments_ p) ->
  Forall (fun s => 0 <= capacity s) (segments_ (fst (allocate args raw p))).
Proof.
  intros Hss Hcap. unfold allocate.
  pose proof (capacity_reuse (slot_size_ (policy p)) (segments_ p) Hcap) as Hreuse.
  destruct (reuse (slot_size_ (policy p)) (segments_ p)) as [segs [obj|]]; simpl in *.
  - exact Hreuse.
  - destruct (last_has_room (with_segments segs p)) eqn:Hroom; unfold claim_uninit.
    + destruct (last (segments_ (with_segments segs p))); simpl; [|exact Hreuse].
      apply capacity_bump_last. exact Hreuse.
    + simpl. rewrite last_snoc. simpl. apply capacity_bump_last.
      apply Forall_app. split; [exact Hreuse|]. constructor; [|constructor].
      simpl. apply seg_capacity_nonneg. exact Hss.
Qed.

Lemma reachable_capacity p :
  reachable p -> Forall (fun s => 0 <= capacity s) (segments_ p).
Proof.
  induction 1 as [os_page sizeof_T alignof_T min_pages growth Hfit
                 |p args raw Hreach IH|p ptr Hreach IH|p Hreach IH].
  - constructor.
  - apply allocate_capacity; [exact (proj1 (reachable_shape p Hreach)) | exact IH].
  - unfold deallocate. destruct (ptr =? 0); [exact IH|].
    destruct (release (slot_size_ (policy p)) ptr (segments_ p)) as [segs|] eqn:E;
      [|exact IH].
    simpl. eapply capacity_release; eauto.
  - constructor.
Qed.

(** The slot [deallocate] computes for an address a segment owns is one of the
    segment's slots. *)
Lemma owns_index ss seg addr :
  0 < ss -> 0 <= data seg -> 0 <= capacity seg -> owns ss seg addr = true ->
  0 <= wrap (addr - data seg) / ss < capacity seg.
Proof.
  intros Hss Hd Hc Howns. unfold owns in Howns.
  apply andb_true_iff in Howns as [Hlo Hhi].
  apply Z.leb_le in Hlo. apply Z.ltb_lt in Hhi.
  pose proof (wrap_range (capacity seg * ss)) as Hw.
  pose proof (wrap_le (capacity seg * ss) ltac:(nia)) as Hw'.
  pose proof (wrap_le (data seg + wrap (capacity seg * ss)) ltac:(lia)) as He.
  pose proof (wrap_range (data seg + wrap (capacity seg * ss))) as He'.
  rewrite (wrap_small (addr - data seg)) by lia.
  split; [apply Z.div_pos; lia|].
  apply Z.div_lt_upper_bound; [exact Hss | nia].
Qed.

End FreeFlagsFacts.

(** X20: when some slot is flagged free, [allocate] of the free-flags revision
    returns the flagged slot of lowest index in the first segment that has one (the
    scan starts at [free_hint], below which no flag is set), clears the flag of that
    slot and of no other, leaves [free_hint] of that segment behind the slot, and
    resets [free_hint] of the segments it scanned in vain. *)
Theorem flags_allocate_takes_lowest_vacant (Args : Type) `{!Constructor Args}
    (p : FreeFlags.Pool Args) (args : Args) (raw : Z) (seg : FreeFlags.Segment) (i : Z) :
  FreeFlags.reachable p ->
  seg ∈ FreeFlags.segments_ p ->
  FreeFlags.flagged seg i ->
  exists l seg' rest i' seg'',
    FreeFlags.segments_ p = l ++ seg' :: rest /\
    FreeFlags.no_vacancy l /\
    FreeFlags.flagged seg' i' /\
    (forall k, FreeFlags.flagged seg' k -> i' <= k) /\
    snd (FreeFlags.allocate args raw p)
      = slot_addr (slot_size_ (FreeFlags.policy p)) (FreeFlags.data seg') i' /\
    FreeFlags.segments_ (fst (FreeFlags.allocate args raw p))
      = ((fun s => {| FreeFlags.data := FreeFlags.data s;
                      FreeFlags.capacity := FreeFlags.capacity s;
                      FreeFlags.next_uninit := FreeFlags.next_uninit s;
                      FreeFlags.free_flags := FreeFlags.free_flags s;
                      FreeFlags.free_hint := 0 |}) <$> l) ++ seg'' :: rest /\
    FreeFlags.data seg'' = FreeFlags.data seg' /\
    FreeFlags.capacity seg'' = FreeFlags.capacity seg' /\
    FreeFlags.next_uninit seg'' = FreeFlags.next_uninit seg' /\
    FreeFlags.free_hint seg'' = wrap (i' + 1) /\
    FreeFlags.free_flags seg'' = <[Z.to_nat i' := 0]> (FreeFlags.free_flags seg') /\
    FreeFlags.flag_at (FreeFlags.free_flags seg'') i' = 0 /\
    (forall k, FreeFlags.flagged seg'' k <-> FreeFlags.flagged seg' k /\ k <> i').
Proof.
  intros Hreach Hin Hflag.
  destruct (reachable_shape p Hreach) as [_ Hshape].
  pose proof (reuse_spec (slot_size_ (FreeFlags.policy p)) (FreeFlags.segments_ p) Hshape)
    as Hspec.
  unfold FreeFlags.allocate.
  destruct (FreeFlags.reuse (slot_size_ (FreeFlags.policy p)) (FreeFlags.segments_ p))
    as [segs' [a|]].
  - destruct Hspec as (l & seg' & rest & i' & Hsegs & Hnv & Hfl & Hbefore & -> & ->).
    assert (Hlen : (Z.to_nat i' < length (FreeFlags.free_flags seg'))%nat).
    { rewrite Forall_forall in Hshape.
      destruct (Hshape seg') as (Hlen & _).
      { rewrite Hsegs. apply elem_of_app. right. apply list_elem_of_here. }
      rewrite Hlen. destruct Hfl as [Hi _]. lia. }
    assert (Hclear : FreeFlags.flag_at (<[Z.to_nat i' := 0]> (FreeFlags.free_flags seg')) i'
                     = 0).
    { apply flag_at_insert_eq; [apply Hfl | exact Hlen]. }
    exists l, seg', rest, i', (FreeFlags.take_slot i' seg').
    split; [exact Hsegs|]. split; [exact Hnv|]. split; [exact Hfl|]. split.
    { intros k [Hk Hk1]. destruct (Z.le_gt_cases i' k) as [H|H]; [exact H|].
      exfalso. apply (Hbefore k); [lia | exact Hk1]. }
    split; [reflexivity|]. split; [reflexivity|].
    unfold FreeFlags.take_slot, FreeFlags.flagged. simpl.
    split; [reflexivity|]. split; [reflexivity|]. split; [reflexivity|].
    split; [reflexivity|]. split; [reflexivity|]. split; [exact Hclear|].
    intros k. destruct (decide (k = i')) as [->|Hne].
    + rewrite Hclear. split; [intros [_ H]; discriminate H | intros [_ H]; contradiction].
    + split.
      * intros [Hk H]. rewrite flag_at_insert_ne in H by (try apply Hfl; lia). auto.
      * intros [[Hk H] _]. rewrite flag_at_insert_ne by (try apply Hfl; lia). auto.
  - destruct Hspec as [Hnv _]. exfalso. unfold FreeFlags.no_vacancy in Hnv.
    rewrite Forall_forall in Hnv. exact (Hnv seg Hin i Hflag).
Qed.

Lemma readme_flags_recycled_reachable : FreeFlags.reachable readme_flags_recycled.
Proof.
  do 2 apply FreeFlags.reach_deallocate. do 2 apply FreeFlags.reach_allocate.
  apply FreeFlags.reach_make. exact bullet_params_fit.
Qed.

Lemma readme_flags_recycled_segments :
  FreeFlags.segments_ readme_flags_recycled
  = [{| FreeFlags.data := 2 ^ 32; FreeFlags.capacity := 512; FreeFlags.next_uninit := 2;
        FreeFlags.free_flags := 1 :: 1 :: replicate 510 0; FreeFlags.free_hint := 0 |}].
Proof. vm_compute. reflexivity. Qed.

Lemma flags_allocate_takes_lowest_vacant_witness :
  exists l seg' rest i' seg'',
    FreeFlags.segments_ readme_flags_recycled = l ++ seg' :: rest /\
    FreeFlags.no_vacancy l /\
    FreeFlags.flagged seg' i' /\
    (forall k, FreeFlags.flagged seg' k -> i' <= k) /\
    snd (FreeFlags.allocate [50; 60] 0 readme_flags_recycled)
      = slot_addr (slot_size_ (FreeFlags.policy readme_flags_recycled))
          (FreeFlags.data seg') i' /\
    FreeFlags.segments_ (fst (FreeFlags.allocate [50; 60] 0 readme_flags_recycled))
      = ((fun s => {| FreeFlags.data := FreeFlags.data s;
                      FreeFlags.capacity := FreeFlags.capacity s;
                      FreeFlags.next_uninit := FreeFlags.next_uninit s;
                      FreeFlags.free_flags := FreeFlags.free_flags s;
                      FreeFlags.free_hint := 0 |}) <$> l) ++ seg'' :: rest /\
    FreeFlags.data seg'' = FreeFlags.data seg' /\
    FreeFlags.capacity seg'' = FreeFlags.capacity seg' /\
    FreeFlags.next_uninit seg'' = FreeFlags.next_uninit seg' /\
    FreeFlags.free_hint seg'' = wrap (i' + 1) /\
    FreeFlags.free_flags seg'' = <[Z.to_nat i' := 0]> (FreeFlags.free_flags seg') /\
    FreeFlags.flag_at (FreeFlags.free_flags seg'') i' = 0 /\
    (forall k, FreeFlags.flagged seg'' k <-> FreeFlags.flagged seg' k /\ k <> i').
Proof.
  apply (flags_allocate_takes_lowest_vacant (list Z) readme_flags_recycled [50; 60] 0
           {| FreeFlags.data := 2 ^ 32; FreeFlags.capacity := 512;
              FreeFlags.next_uninit := 2;
              FreeFlags.free_flags := 1 :: 1 :: replicate 510 0;
              FreeFlags.free_hint := 0 |} 1 readme_flags_recycled_reachable).
  - rewrite readme_flags_recycled_segments. apply list_elem_of_here.
  - split; [simpl; lia | reflexivity].
Defined.

(** X21: in the free-flags revision every segment has one flag per slot, and the
    index [deallocate] computes for an address inside a segment's range is below the
    segment's capacity: the flag vector is never indexed out of range. *)
Theorem flags_are_indexed_in_range (Args : Type) `{!Constructor Args} (p : FreeFlags.Pool Args)
    (seg : FreeFlags.Segment) (addr : Z) :
  FreeFlags.reachable p ->
  seg ∈ FreeFlags.segments_ p ->
  0 <= FreeFlags.data seg ->
  FreeFlags.owns (slot_size_ (FreeFlags.policy p)) seg addr = true ->
  Z.of_nat (length (FreeFlags.free_flags seg)) = FreeFlags.capacity seg /\
  0 <= FreeFlags.free_hint seg /\
  0 <= wrap (addr - FreeFlags.data seg) / slot_size_ (FreeFlags.policy p)
    < Z.of_nat (length (FreeFlags.free_flags seg)).
Proof.
  intros Hreach Hin Hd Howns.
  destruct (reachable_shape p Hreach) as [Hss Hshape].
  pose proof (reachable_capacity p Hreach) as Hcap.
  rewrite Forall_forall in Hshape, Hcap.
  destruct (Hshape seg Hin) as (Hlen & Hhint & _). specialize (Hcap seg Hin).
  assert (E : Z.of_nat (length (FreeFlags.free_flags seg)) = FreeFlags.capacity seg).
  { rewrite Hlen. lia. }
  split; [exact E|]. split; [exact Hhint|]. rewrite E.
  apply owns_index; assumption.
Qed.

Lemma flags_are_indexed_in_range_witness :
  let seg := {| FreeFlags.data := 2 ^ 32; FreeFlags.capacity := 512;
                FreeFlags.next_uninit := 2;
                FreeFlags.free_flags := 1 :: 1 :: replicate 510 0;
                FreeFlags.free_hint := 0 |} in
  Z.of_nat (length (FreeFlags.free_flags seg)) = 512 /\
  0 <= FreeFlags.free_hint seg /\
  0 <= wrap (2 ^ 32 + 12287 - 2 ^ 32) / slot_size_ (FreeFlags.policy readme_flags_recycled)
    < Z.of_nat (length (FreeFlags.free_flags seg)).
Proof.
  intros seg.
  apply (flags_are_indexed_in_range (list Z) readme_flags_recycled seg (2 ^ 32 + 12287)
           readme_flags_recycled_reachable).
  - rewrite readme_flags_recycled_segments. apply list_elem_of_here.
  - simpl. lia.
  - vm_compute. reflexivity.
Defined.
(** ** Alignment of what [allocate] returns *)

Section FreeListAligned.
Context {Args : Type} `{!Constructor Args}.
Import FreeList.
Implicit Types (p : Pool Args).

(** [allocate] keeps the blocks of the segments, or appends the block it was
    served. *)
Lemma allocate_bases args raw p p' a :
  wf p -> admissible (Allocate args raw) p -> allocate args raw p = Some (p', a) ->
  data <$> segments_ p' = data <$> segments_ p \/
  data <$> segments_ p' = (data <$> segments_ p) ++ [raw].
Proof.
  intros Hwf Hadm Halloc.
  destruct (decide (free_list_ p = 0)) as [Hnil|Hhead].
  - revert Halloc. unfold allocate. rewrite Hnil. simpl.
    destruct (last_has_room p) eqn:Hroom; intros Hclaim.
    + destruct (last_has_room_true p Hroom) as (l & seg & Hsegs & Hlt).
      destruct (claim_uninit_wf args p l seg Hwf Hsegs Hlt) as (_ & Hclaim' & _).
      rewrite Hclaim' in Hclaim. injection Hclaim as <- _. left. simpl.
      rewrite Hsegs, !fmap_app. reflexivity.
    + simpl in Hadm. unfold needs_growth in Hadm. rewrite Hnil, Hroom in Hadm.
      destruct (Hadm eq_refl) as [Hfit Hfresh].
      destruct (add_segment_wf raw p Hwf Hfit Hfresh) as (Hwf1 & Hcap & _).
      destruct (claim_uninit_wf args (add_segment_ raw p) (segments_ p)
                  (new_segment raw _) Hwf1 eq_refl Hcap) as (_ & Hclaim' & _).
      rewrite Hclaim' in Hclaim. injection Hclaim as <- _. right. simpl.
      rewrite !fmap_app. reflexivity.
  - destruct (allocate_reuse_wf args raw p Hwf Hhead) as (next & _ & Halloc' & _).
    rewrite Halloc' in Halloc. injection Halloc as <- _. left. reflexivity.
Qed.

End FreeListAligned.

(** X22: as long as [::operator new[]] serves blocks aligned to [alignof(T)], every
    pointer [allocate] returns is aligned to [alignof(T)]: the slot size is a
    multiple of the alignment and slots are laid out from the start of the block. *)
Theorem allocate_returns_aligned_pointer (Args : Type) `{!Constructor Args}
    (p p' : FreeList.Pool Args) (args : Args) (raw a : Z)
    (os_page sizeof_T alignof_T min_pages : Z) (growth : Growth) :
  FreeList.reachable p ->
  FreeList.admissible (FreeList.Allocate args raw) p ->
  FreeList.allocate args raw p = Some (p', a) ->
  params_fit os_page sizeof_T alignof_T min_pages ->
  FreeList.policy p = make_policy os_page sizeof_T alignof_T min_pages growth ->
  Forall (fun seg => (alignof_T | data seg)) (FreeList.segments_ p) ->
  (alignof_T | raw) ->
  (alignof_T | a) /\
  Forall (fun seg => (alignof_T | data seg)) (FreeList.segments_ p').
Proof.
  intros Hreach Hadm Halloc Hfit Hpol Hal Hraw.
  pose proof (reachable_wf p Hreach) as Hwf.
  pose proof (reachable_wf p' (allocate_reachable _ _ _ _ _ Hreach Hadm Halloc)) as Hwf'.
  assert (Hal' : Forall (fun seg => (alignof_T | data seg)) (FreeList.segments_ p')).
  { rewrite Forall_forall in Hal |- *. intros seg Hin.
    assert (Hd : data seg ∈ data <$> FreeList.segments_ p').
    { apply list_elem_of_fmap_2. exact Hin. }
    assert (Hold : forall d, d ∈ data <$> FreeList.segments_ p -> (alignof_T | d)).
    { intros d Hd'. apply list_elem_of_fmap in Hd' as (s0 & -> & Hs0). exact (Hal s0 Hs0). }
    destruct (allocate_bases _ _ _ _ _ Hwf Hadm Halloc) as [E|E]; rewrite E in Hd.
    - exact (Hold _ Hd).
    - apply elem_of_app in Hd as [Hd|Hd]; [exact (Hold _ Hd)|].
      apply list_elem_of_singleton in Hd. rewrite Hd. exact Hraw. }
  split; [|exact Hal'].
  assert (Hobj : is_Some (object_at (FreeList.mem p') a)).
  { unfold object_at. rewrite (allocate_cells _ _ _ _ _ Halloc), lookup_insert_eq. eauto. }
  destruct (object_in_slot p' a Hwf' Hobj) as (seg & i & Hin & _ & _ & -> & _).
  rewrite (allocate_policy_list _ _ _ _ _ Halloc), Hpol.
  pose proof (make_policy_spec os_page sizeof_T alignof_T min_pages growth Hfit) as Hspec.
  cbv zeta in Hspec. destruct Hspec as (_ & _ & _ & Hdiv & _).
  rewrite Forall_forall in Hal'.
  apply Z.divide_add_r; [exact (Hal' seg Hin)|]. apply Z.divide_mul_r. exact Hdiv.
Qed.

Lemma allocate_returns_aligned_pointer_witness :
  exists p',
    FreeList.allocate [50; 60] 0 readme_created = Some (p', 2 ^ 32 + 48) /\
    (8 | 2 ^ 32 + 48) /\
    Forall (fun seg => (8 | data seg)) (FreeList.segments_ p').
Proof.
  set (p' := FreeList.run [FreeList.Allocate [50; 60] 0] readme_created).
  assert (Halloc : FreeList.allocate [50; 60] 0 readme_created = Some (p', 2 ^ 32 + 48))
    by reflexivity.
  exists p'. split; [exact Halloc|].
  apply (allocate_returns_aligned_pointer (list Z) readme_created p' [50; 60] 0
           (2 ^ 32 + 48) 4096 24 8 0 growth_one
           readme_created_reachable (readme_created_full_admissible _ _) Halloc
           bullet_params_fit eq_refl).
  - assert (E : FreeList.segments_ readme_created
                = [{| data := 2 ^ 32; capacity := 512; next_uninit := 2 |}])
      by (vm_compute; reflexivity).
    rewrite E. constructor; [|constructor]. exists (2 ^ 29). reflexivity.
  - exists 0. reflexivity.
Defined.

(** ** The free-flags revision: what [deallocate] marks *)

Section FreeFlagsMark.
Import FreeFlags.

Lemma flagged_mark_free i seg k :
  shape_ok seg -> 0 <= capacity seg -> 0 <= i < capacity seg ->
  flagged (mark_free i seg) k <-> k = i \/ flagged seg k.
Proof.
  intros (Hlen & _) Hc Hi. unfold flagged, mark_free. simpl. split.
  - intros [Hk Hflag]. destruct (decide (k = i)) as [->|Hne]; [left; reflexivity|].
    right. split; [exact Hk|]. rewrite flag_at_insert_ne in Hflag by lia. exact Hflag.
  - intros [->|[Hk Hflag]].
    + split; [exact Hi|]. apply flag_at_insert_eq; lia.
    + split; [exact Hk|]. destruct (decide (k = i)) as [->|Hne].
      * apply flag_at_insert_eq; lia.
      * rewrite flag_at_insert_ne by lia. exact Hflag.
Qed.

End FreeFlagsMark.

(** X23: in the free-flags revision [deallocate] of the address of slot [i] of a
    segment, which no earlier segment's range contains, runs the destructor, flags
    slot [i] and no other slot, moves [free_hint] to [i] or leaves it below, and
    takes one off the live count. *)
Theorem flags_deallocate_marks_the_slot (Args : Type) `{!Constructor Args} (p : FreeFlags.Pool Args)
    (l : list FreeFlags.Segment) (seg : FreeFlags.Segment)
    (rest : list FreeFlags.Segment) (i : Z) :
  FreeFlags.reachable p ->
  FreeFlags.segments_ p = l ++ seg :: rest ->
  0 <= i < FreeFlags.capacity seg ->
  0 < FreeFlags.data seg ->
  FreeFlags.data seg + FreeFlags.capacity seg * slot_size_ (FreeFlags.policy p) < SIZE_MOD ->
  Forall (fun s => FreeFlags.owns (slot_size_ (FreeFlags.policy p)) s
                     (FreeFlags.data seg + i * slot_size_ (FreeFlags.policy p)) = false) l ->
  let addr := FreeFlags.data seg + i * slot_size_ (FreeFlags.policy p) in
  let p' := FreeFlags.deallocate addr p in
  FreeFlags.segments_ p' = l ++ FreeFlags.mark_free i seg :: rest /\
  (forall k, FreeFlags.flagged (FreeFlags.mark_free i seg) k
             <-> k = i \/ FreeFlags.flagged seg k) /\
  FreeFlags.free_hint (FreeFlags.mark_free i seg) <= i /\
  FreeFlags.live_count_ p' = wrap (FreeFlags.live_count_ p - 1) /\
  destroyed (FreeFlags.mem p') = addr :: destroyed (FreeFlags.mem p) /\
  object_at (FreeFlags.mem p') addr = None.
Proof.
  intros Hreach Hsegs Hi Hd Hfit Hearlier addr p'.
  destruct (reachable_shape p Hreach) as [Hss Hshape].
  pose proof (reachable_capacity p Hreach) as Hcap.
  rewrite Hsegs in Hshape, Hcap.
  apply Forall_app in Hshape as [_ Hshape]. apply Forall_cons in Hshape as [Hseg _].
  apply Forall_app in Hcap as [_ Hcap]. apply Forall_cons in Hcap as [Hc _].
  destruct (owns_slot (slot_size_ (FreeFlags.policy p)) seg i Hss ltac:(lia) Hi Hfit)
    as [Howns Hindex].
  assert (Hnz : addr <> 0) by (subst addr; nia).
  assert (Hrel : FreeFlags.release (slot_size_ (FreeFlags.policy p)) addr
                   (FreeFlags.segments_ p) = Some (l ++ FreeFlags.mark_free i seg :: rest)).
  { rewrite Hsegs. subst addr. rewrite (release_app _ _ l seg rest Hearlier Howns), Hindex.
    reflexivity. }
  subst p'. unfold FreeFlags.deallocate.
  destruct (Z.eqb_spec addr 0) as [|_]; [contradiction|]. rewrite Hrel. simpl.
  split; [reflexivity|]. split; [intros k; apply flagged_mark_free; assumption|].
  split; [destruct (Z.ltb_spec i (FreeFlags.free_hint seg)); lia|].
  split; [reflexivity|]. split; [reflexivity|].
  unfold object_at. simpl. rewrite lookup_insert_eq. reflexivity.
Qed.

Lemma readme_flags_created_reachable : FreeFlags.reachable readme_flags_created.
Proof.
  do 2 apply FreeFlags.reach_allocate. apply FreeFlags.reach_make. exact bullet_params_fit.
Qed.

Lemma flags_deallocate_marks_the_slot_witness :
  let seg := {| FreeFlags.data := 2 ^ 32; FreeFlags.capacity := 512;
                FreeFlags.next_uninit := 2;
                FreeFlags.free_flags := replicate 512 0; FreeFlags.free_hint := 0 |} in
  let ss := slot_size_ (FreeFlags.policy readme_flags_created) in
  let p' := FreeFlags.deallocate (2 ^ 32 + 1 * ss) readme_flags_created in
  FreeFlags.segments_ p' = [] ++ FreeFlags.mark_free 1 seg :: [] /\
  (forall k, FreeFlags.flagged (FreeFlags.mark_free 1 seg) k
             <-> k = 1 \/ FreeFlags.flagged seg k) /\
  FreeFlags.free_hint (FreeFlags.mark_free 1 seg) <= 1 /\
  FreeFlags.live_count_ p' = wrap (FreeFlags.live_count_ readme_flags_created - 1) /\
  destroyed (FreeFlags.mem p') = (2 ^ 32 + 1 * ss) :: destroyed (FreeFlags.mem readme_flags_created) /\
  object_at (FreeFlags.mem p') (2 ^ 32 + 1 * ss) = None.
Proof.
  intros seg ss p'.
  assert (Hsegs : FreeFlags.segments_ readme_flags_created = [] ++ seg :: [])
    by (vm_compute; reflexivity).
  exact (flags_deallocate_marks_the_slot (list Z) readme_flags_created [] seg [] 1
           readme_flags_created_reachable Hsegs
           ltac:(split; [discriminate | reflexivity]) ltac:(reflexivity)
           ltac:(reflexivity) (Forall_nil_2 _)).
Defined.
(** ** The free-flags revision under the caller's contract *)

Section MemoryAlive.
Context {Args : Type} `{!Constructor Args}.
Implicit Types (m : Memory Args).

Lemma alive_lookup m a c :
  alive m !! a = Some c <-> cells m !! a = Some c /\ is_live c = true.
Proof. unfold alive. rewrite map_lookup_filter_Some. reflexivity. Qed.

Lemma alive_construct a args m :
  object_at m a = None ->
  size (alive (mark_in_use a (placement_new a args m))) = S (size (alive m)).
Proof.
  intros Hnone. unfold alive. rewrite cells_construct.
  rewrite map_filter_insert_True by reflexivity.
  apply map_size_insert_None.
  match goal with |- ?x = None => destruct x as [c|] eqn:E end; [exfalso|reflexivity].
  apply map_lookup_filter_Some in E as [Hc Hl]. simpl in Hl.
  unfold object_at in Hnone. rewrite Hc in Hnone. destruct c; discriminate.
Qed.

Lemma alive_destroy ptr m x r :
  cells m !! ptr = Some (Live x r) ->
  size (alive m) = S (size (alive (destroy ptr m))).
Proof.
  intros Hc. unfold alive, destroy. simpl.
  rewrite map_filter_insert_False by (simpl; discriminate).
  rewrite map_filter_delete.
  assert (Hin : filter (fun kv : Z * cell Args => is_live (snd kv) = true) (cells m) !! ptr
                = Some (Live x r)).
  { apply map_lookup_filter_Some. split; [exact Hc | reflexivity]. }
  rewrite <- (insert_delete_id _ _ _ Hin) at 1.
  rewrite map_size_insert_None by apply lookup_delete_eq. reflexivity.
Qed.

End MemoryAlive.

Section FlagsSound.
Context {Args : Type} `{!Constructor Args}.
Import FreeFlags.
Implicit Types (p : Pool Args) (seg : Segment) (m : Memory Args).

Lemma carries_refl ss a s :
  next_uninit s <= capacity s -> carries ss a s s.
Proof. intros H. unfold carries. repeat split; try lia. Qed.

Lemma carries_reset ss a s :
  next_uninit s <= capacity s -> carries ss a s (reset_hint s).
Proof. intros H. unfold carries. simpl. repeat split; try lia. Qed.

Lemma carries_same ss a m segs :
  Forall (seg_ok ss m) segs -> Forall2 (carries ss a) segs segs.
Proof.
  intros H. apply Forall_Forall2_diag. eapply Forall_impl; [exact H|].
  intros s (_ & Hn & _). apply carries_refl. lia.
Qed.

Lemma carries_reset_all ss a m segs :
  Forall (seg_ok ss m) segs -> Forall2 (carries ss a) segs (reset_hint <$> segs).
Proof.
  intros H. apply Forall2_fmap_r. apply Forall_Forall2_diag.
  eapply Forall_impl; [exact H|]. intros s (_ & Hn & _). apply carries_reset. lia.
Qed.

(** A slot address names one slot of one segment. *)
Lemma slot_unique p seg seg' i i' :
  sound p -> seg ∈ segments_ p -> seg' ∈ segments_ p ->
  0 <= i < capacity seg -> 0 <= i' < capacity seg' ->
  data seg + i * slot_size_ (policy p) = data seg' + i' * slot_size_ (policy p) ->
  seg = seg' /\ i = i'.
Proof.
  intros Hs Hin Hin' Hi Hi' E. pose proof (sound_slot p Hs) as Hss.
  apply list_elem_of_lookup in Hin as [k Hk]. apply list_elem_of_lookup in Hin' as [k' Hk'].
  destruct (decide (k = k')) as [->|Hne].
  - rewrite Hk in Hk'. injection Hk' as <-. split; [reflexivity | nia].
  - exfalso. destruct (sound_apart p Hs k k' seg seg' Hk Hk' Hne) as [H|H]; nia.
Qed.

Lemma agrees_carried ss a segs segs' b (c : cell Args) :
  Forall2 (carries ss a) segs segs' -> b <> a ->
  slot_agrees ss segs b c -> slot_agrees ss segs' b c.
Proof.
  intros Hcar Hne (seg & i & Hin & Hi & -> & Hflag & Hnode).
  apply list_elem_of_lookup in Hin as [k Hk].
  destruct (Forall2_lookup_l _ _ _ _ _ Hcar Hk) as (seg' & Hk' & Hd & Hc & Hn & Hsame).
  exists seg', i. split; [eapply list_elem_of_lookup_2; exact Hk'|].
  split; [lia|]. split; [congruence|]. split; [|exact Hnode].
  rewrite (Hsame i) by (try lia; exact Hne). exact Hflag.
Qed.

Lemma agrees_in_space ss m segs a (c : cell Args) :
  0 < ss -> Forall (seg_ok ss m) segs -> slot_agrees ss segs a c -> 0 < a < SIZE_MOD.
Proof.
  intros Hss Hok (seg & i & Hin & Hi & -> & _).
  rewrite Forall_forall in Hok. destruct (Hok seg Hin) as (Hd & Hn & Hc & Hfit & _). nia.
Qed.

Lemma alive_fits ss m segs :
  0 < ss -> Forall (seg_ok ss m) segs ->
  (forall a c, cells m !! a = Some c -> slot_agrees ss segs a c) ->
  Z.of_nat (size (alive m)) < SIZE_MOD.
Proof.
  intros Hss Hok Hcells. apply keys_bound. intros a c Hc.
  apply alive_lookup in Hc as [Hc _].
  eapply agrees_in_space; [exact Hss | exact Hok | apply Hcells; exact Hc].
Qed.

(** The invariant after a call that keeps the extent of every segment. *)
Lemma sound_update p segs' m' live' a :
  sound p ->
  Forall2 (carries (slot_size_ (policy p)) a) (segments_ p) segs' ->
  Forall shape_ok segs' ->
  blocks m' = blocks (mem p) ->
  (forall s', s' ∈ segs' -> forall i, 0 <= i ->
     flag_at (free_flags s') i = 1 -> i < next_uninit s') ->
  (forall b c, cells m' !! b = Some c -> slot_agrees (slot_size_ (policy p)) segs' b c) ->
  live' = wrap (Z.of_nat (size (alive m'))) ->
  sound {| segments_ := segs'; policy := policy p;
           next_pages_hint_ := next_pages_hint_ p; live_count_ := live'; mem := m' |}.
Proof.
  intros Hs Hcar Hshape Hblocks Hflags Hcells Hlive.
  pose proof (sound_slot p Hs) as Hss.
  pose proof (sound_segments p Hs) as Hok. rewrite Forall_forall in Hok.
  assert (Hok' : Forall (seg_ok (slot_size_ (policy p)) m') segs').
  { apply Forall_forall. intros s' Hin'. pose proof Hin' as Hin''.
    apply list_elem_of_lookup in Hin' as [k Hk'].
    destruct (Forall2_lookup_r _ _ _ _ _ Hcar Hk') as (s & Hk & Hd & Hc & Hn & _).
    destruct (Hok s ltac:(eapply list_elem_of_lookup_2; exact Hk))
      as (H1 & H2 & H3 & H4 & H5 & _).
    unfold seg_ok. split; [lia|]. split; [lia|]. split; [lia|].
    split; [rewrite Hd, Hc; exact H4|].
    split; [rewrite Hd, Hc, Hblocks; exact H5|].
    exact (Hflags s' Hin''). }
  split; simpl; try (apply Hs).
  - exact Hshape.
  - exact Hok'.
  - intros i j s s' Hi Hj Hne.
    destruct (Forall2_lookup_r _ _ _ _ _ Hcar Hi) as (s0 & Hi0 & Hd0 & Hc0 & _).
    destruct (Forall2_lookup_r _ _ _ _ _ Hcar Hj) as (s1 & Hj0 & Hd1 & Hc1 & _).
    pose proof (sound_apart p Hs i j s0 s1 Hi0 Hj0 Hne) as Hap.
    unfold apart in *. rewrite Hd0, Hc0, Hd1, Hc1. exact Hap.
  - intros d b Hb. rewrite Hblocks in Hb.
    destruct (sound_blocks p Hs d b Hb) as (s & Hin & Hd).
    apply list_elem_of_lookup in Hin as [k Hk].
    destruct (Forall2_lookup_l _ _ _ _ _ Hcar Hk) as (s' & Hk' & Hd' & _).
    exists s'. split; [eapply list_elem_of_lookup_2; exact Hk' | congruence].
  - exact Hcells.
  - rewrite Hlive. apply wrap_small. split; [lia|].
    eapply alive_fits; [exact Hss | exact Hok' | exact Hcells].
Qed.

Lemma sound_alive_fits p : sound p -> Z.of_nat (size (alive (mem p))) < SIZE_MOD.
Proof.
  intros Hs.
  exact (alive_fits _ _ _ (sound_slot p Hs) (sound_segments p Hs) (sound_cells p Hs)).
Qed.

End FlagsSound.
Section FlagsAllocate.
Context {Args : Type} `{!Constructor Args}.
Import FreeFlags.
Implicit Types (p : Pool Args) (seg : Segment) (m : Memory Args).

Lemma to_nat_lt i n : 0 <= i < n -> (Z.to_nat i < Z.to_nat n)%nat.
Proof. lia. Qed.

(** Step 1 of [allocate] found a flagged slot. *)
Lemma take_sound args p segs' a0 :
  sound p -> reuse (slot_size_ (policy p)) (segments_ p) = (segs', Some a0) ->
  object_at (mem p) a0 = None /\
  sound (fst (construct_at a0 args (with_segments segs' p))).
Proof.
  intros Hs Hreuse. pose proof (sound_slot p Hs) as Hss.
  pose proof (sound_shape p Hs) as Hshape.
  pose proof (sound_segments p Hs) as Hok.
  pose proof (reuse_spec (slot_size_ (policy p)) (segments_ p) Hshape) as Hspec.
  pose proof (shape_reuse (slot_size_ (policy p)) (segments_ p) Hshape) as Hshape'.
  rewrite Hreuse in Hspec, Hshape'. simpl in Hshape'.
  destruct Hspec as (l & seg & rest & i & Hsegs & _ & [Hi Hfl] & _ & Ha & Hsegs').
  assert (Hin : seg ∈ segments_ p).
  { rewrite Hsegs. apply elem_of_app. right. apply list_elem_of_here. }
  rewrite Forall_forall in Hok.
  destruct (Hok seg Hin) as (Hd & Hn & Hc & Hfit & Hblk & Hbelow).
  pose proof (Hbelow i ltac:(lia) Hfl) as Hlt.
  rewrite (slot_addr_exact _ _ _ (capacity seg)) in Ha by lia.
  assert (Hlen : (Z.to_nat i < length (free_flags seg))%nat).
  { rewrite Forall_forall in Hshape. destruct (Hshape seg Hin) as (Hlen & _).
    rewrite Hlen. apply to_nat_lt. lia. }
  assert (Hnot : object_at (mem p) a0 = None).
  { unfold object_at. destruct (cells (mem p) !! a0) as [c|] eqn:E; [|reflexivity].
    destruct (sound_cells p Hs a0 c E) as (s0 & i0 & Hin0 & Hi0 & Ea & Hflag0 & _).
    destruct (Hok s0 Hin0) as (_ & Hn0 & _).
    destruct (slot_unique p s0 seg i0 i Hs Hin0 Hin ltac:(lia) ltac:(lia)
                ltac:(congruence)) as [-> ->].
    rewrite (proj1 Hflag0 Hfl). reflexivity. }
  split; [exact Hnot|]. simpl.
  assert (Hokl : Forall (seg_ok (slot_size_ (policy p)) (mem p)) (segments_ p))
    by (apply Forall_forall; exact Hok).
  rewrite Hsegs in Hokl. apply Forall_app in Hokl as [Hokl Hokr].
  apply Forall_cons in Hokr as [_ Hokr].
  apply (sound_update p segs' _ _ a0 Hs).
  - rewrite Hsegs, Hsegs'. apply Forall2_app; [eapply carries_reset_all; exact Hokl|].
    constructor; [|eapply carries_same; exact Hokr].
    unfold carries. simpl. split; [reflexivity|]. split; [reflexivity|]. split; [lia|].
    intros k Hk Hne. apply flag_at_insert_ne; [lia | exact Hk |].
    intros ->. apply Hne. symmetry. exact Ha.
  - exact Hshape'.
  - apply blocks_construct.
  - intros s' Hin' k Hk Hflag. rewrite Hsegs' in Hin'.
    apply elem_of_app in Hin' as [Hin'|Hin'].
    + apply list_elem_of_fmap in Hin' as (s & -> & Hs'). simpl in *.
      rewrite Forall_forall in Hokl. destruct (Hokl s Hs') as (_ & _ & _ & _ & _ & Hb).
      exact (Hb k Hk Hflag).
    + apply elem_of_cons in Hin' as [->|Hin'].
      * simpl in *. destruct (decide (k = i)) as [->|Hki].
        -- rewrite flag_at_insert_eq in Hflag by (try lia; exact Hlen). discriminate.
        -- rewrite flag_at_insert_ne in Hflag by lia. exact (Hbelow k Hk Hflag).
      * rewrite Forall_forall in Hokr. destruct (Hokr s' Hin') as (_ & _ & _ & _ & _ & Hb).
        exact (Hb k Hk Hflag).
  - intros b c Hcell. rewrite cells_construct in Hcell.
    destruct (decide (b = a0)) as [->|Hne].
    + rewrite lookup_insert_eq in Hcell. injection Hcell as <-.
      exists (take_slot i seg), i. split.
      { rewrite Hsegs'. apply elem_of_app. right. apply list_elem_of_here. }
      simpl. split; [lia|]. split; [exact Ha|]. split; [|discriminate].
      rewrite flag_at_insert_eq by (try lia; exact Hlen). split; discriminate.
    + rewrite lookup_insert_ne in Hcell by congruence.
      apply (agrees_carried _ a0 (segments_ p)); [|exact Hne | apply Hs; exact Hcell].
      rewrite Hsegs, Hsegs'. apply Forall2_app; [eapply carries_reset_all; exact Hokl|].
      constructor; [|eapply carries_same; exact Hokr].
      unfold carries. simpl. split; [reflexivity|]. split; [reflexivity|]. split; [lia|].
      intros k Hk Hne'. apply flag_at_insert_ne; [lia | exact Hk |].
      intros ->. apply Hne'. symmetry. exact Ha.
  - rewrite (sound_live p Hs), (alive_construct _ _ _ Hnot). f_equal. lia.
Qed.

(** Steps 2 and 3 of [allocate] take the slot at the high-water mark. *)
Lemma claim_sound args p l seg :
  sound p -> segments_ p = l ++ [seg] -> next_uninit seg < capacity seg ->
  let a := data seg + next_uninit seg * slot_size_ (policy p) in
  let seg' := {| data := data seg; capacity := capacity seg;
                 next_uninit := next_uninit seg + 1;
                 free_flags := free_flags seg; free_hint := free_hint seg |} in
  cells (mem p) !! a = None /\
  claim_uninit args p = construct_at a args (with_segments (l ++ [seg']) p) /\
  sound (fst (construct_at a args (with_segments (l ++ [seg']) p))).
Proof.
  intros Hs Hsegs Hroom a seg'. pose proof (sound_slot p Hs) as Hss.
  pose proof (sound_shape p Hs) as Hshape.
  pose proof (sound_segments p Hs) as Hok.
  assert (Hin : seg ∈ segments_ p).
  { rewrite Hsegs. apply elem_of_app. right. apply list_elem_of_here. }
  rewrite Forall_forall in Hok.
  destruct (Hok seg Hin) as (Hd & Hn & Hc & Hfit & Hblk & Hbelow).
  assert (Hnone : cells (mem p) !! a = None).
  { destruct (cells (mem p) !! a) as [c|] eqn:E; [exfalso|reflexivity].
    destruct (sound_cells p Hs a c E) as (s0 & i0 & Hin0 & Hi0 & Ea & _).
    destruct (Hok s0 Hin0) as (_ & Hn0 & _).
    destruct (slot_unique p s0 seg i0 (next_uninit seg) Hs Hin0 Hin ltac:(lia) ltac:(lia)
                ltac:(subst a; congruence)) as [-> ->]. lia. }
  assert (Hnot : object_at (mem p) a = None).
  { unfold object_at. rewrite Hnone. reflexivity. }
  split; [exact Hnone|]. split.
  { unfold claim_uninit. rewrite Hsegs, last_snoc.
    rewrite (slot_addr_exact _ _ _ (capacity seg)) by lia.
    rewrite bump_last_snoc_flags, (wrap_small (next_uninit seg + 1)) by nia.
    reflexivity. }
  simpl.
  assert (Hokl : Forall (seg_ok (slot_size_ (policy p)) (mem p)) (segments_ p))
    by (apply Forall_forall; exact Hok).
  rewrite Hsegs in Hokl. apply Forall_app in Hokl as [Hokl _].
  assert (Hcar : Forall2 (carries (slot_size_ (policy p)) a) (segments_ p) (l ++ [seg'])).
  { rewrite Hsegs. apply Forall2_app; [eapply carries_same; exact Hokl|].
    constructor; [|constructor]. unfold carries. simpl.
    split; [reflexivity|]. split; [reflexivity|]. split; [lia|]. reflexivity. }
  apply (sound_update p (l ++ [seg']) _ _ a Hs).
  - exact Hcar.
  - rewrite Hsegs in Hshape. apply Forall_app in Hshape as [Hl Hseg].
    apply Forall_cons in Hseg as [Hseg _].
    apply Forall_app. split; [exact Hl|]. constructor; [exact Hseg | constructor].
  - apply blocks_construct.
  - intros s' Hin' k Hk Hflag. apply elem_of_app in Hin' as [Hin'|Hin'].
    + rewrite Forall_forall in Hokl. destruct (Hokl s' Hin') as (_ & _ & _ & _ & _ & Hb).
      exact (Hb k Hk Hflag).
    + apply list_elem_of_singleton in Hin' as ->. simpl in *.
      pose proof (Hbelow k Hk Hflag). lia.
  - intros b c Hcell. rewrite cells_construct in Hcell.
    destruct (decide (b = a)) as [->|Hne].
    + rewrite lookup_insert_eq in Hcell. injection Hcell as <-.
      exists seg', (next_uninit seg). split.
      { apply elem_of_app. right. apply list_elem_of_here. }
      simpl. split; [lia|]. split; [reflexivity|]. split; [|discriminate].
      split; [|discriminate]. intros Hflag.
      pose proof (Hbelow (next_uninit seg) ltac:(lia) Hflag). lia.
    + rewrite lookup_insert_ne in Hcell by congruence.
      exact (agrees_carried _ a _ _ b c Hcar Hne (sound_cells p Hs b c Hcell)).
  - rewrite (sound_live p Hs), (alive_construct _ _ _ Hnot). f_equal. lia.
Qed.

(** Resetting the hints, as the scan of step 1 does when it finds nothing. *)
Lemma reset_sound p :
  sound p -> sound (with_segments (reset_hint <$> segments_ p) p).
Proof.
  intros Hs. pose proof (sound_slot p Hs) as Hss.
  pose proof (sound_segments p Hs) as Hok.
  assert (Hcar : Forall2 (carries (slot_size_ (policy p)) 0) (segments_ p)
                   (reset_hint <$> segments_ p)).
  { eapply carries_reset_all. exact Hok. }
  apply (sound_update p _ _ _ 0 Hs).
  - exact Hcar.
  - apply Forall_fmap. eapply Forall_impl; [exact (sound_shape p Hs)|].
    intros s. apply shape_reset_hint.
  - reflexivity.
  - intros s' Hin' k Hk Hflag. apply list_elem_of_fmap in Hin' as (s & -> & Hin).
    rewrite Forall_forall in Hok. destruct (Hok s Hin) as (_ & _ & _ & _ & _ & Hb).
    exact (Hb k Hk Hflag).
  - intros b c Hcell. pose proof (sound_cells p Hs b c Hcell) as Hag.
    pose proof (agrees_in_space _ _ _ _ _ Hss Hok Hag) as Hb.
    apply (agrees_carried _ 0 (segments_ p)); [exact Hcar | lia | exact Hag].
  - rewrite (sound_live p Hs). symmetry. apply wrap_small.
    split; [lia | apply sound_alive_fits; exact Hs].
Qed.

(** Appending a segment. *)
Lemma add_segment_sound raw p :
  sound p ->
  segment_fits (policy p) (bool_decide (segments_ p = [])) (next_pages_hint_ p) ->
  FreeList.fresh_block (mem p) raw (upcoming_bytes p) ->
  raw + upcoming_bytes p < SIZE_MOD ->
  let cap := seg_capacity (policy p)
               (next_pages (policy p) (bool_decide (segments_ p = []))
                  (next_pages_hint_ p)) in
  sound (add_segment_ raw p) /\ 0 < cap.
Proof.
  intros Hs Hfit (Hraw & Hspace & Hfresh) Hstrict cap.
  pose proof (sound_page p Hs) as Hps. pose proof (sound_slot p Hs) as Hss.
  pose proof (sound_base p Hs) as Hb. pose proof (sound_hint p Hs) as Hh.
  pose proof (next_pages_spec (policy p) _ _ Hps Hb Hh Hfit) as Hn. cbv zeta in Hn.
  set (n := next_pages (policy p) (bool_decide (segments_ p = [])) (next_pages_hint_ p))
    in *.
  destruct Hn as (Hn0 & Hmul & Hbytes & _).
  destruct (seg_capacity_exact (policy p) n) as (Hsb & Hexact & Hpage);
    [lia | lia | apply Hs | exact Hmul | lia | exact Hbytes |].
  fold cap in Hexact, Hpage. unfold upcoming_bytes in *. fold n in Hspace, Hfresh, Hstrict.
  assert (Hcap : 0 < cap) by nia.
  split; [|exact Hcap].
  pose proof (sound_segments p Hs) as Hok. rewrite Forall_forall in Hok.
  assert (Hold : forall s, s ∈ segments_ p ->
            raw + seg_bytes (policy p) n <= data s \/
            data s + capacity s * slot_size_ (policy p) <= raw).
  { intros s Hin. destruct (Hok s Hin) as (_ & _ & _ & _ & Hblk & _).
    exact (Hfresh _ _ Hblk). }
  split; simpl policy; simpl segments_; simpl next_pages_hint_; simpl mem;
    try (apply Hs).
  - fold n. lia.
  - apply Forall_app. split; [exact (sound_shape p Hs)|].
    constructor; [apply shape_new_segment | constructor].
  - apply Forall_app. split.
    + apply Forall_forall. intros s Hin.
      destruct (Hok s Hin) as (H1 & H2 & H3 & H4 & H5 & H6).
      unfold seg_ok. simpl. repeat split; try assumption; try lia.
      rewrite lookup_insert_ne; [exact H5|]. specialize (Hold s Hin). nia.
    + constructor; [|constructor]. unfold seg_ok. simpl. fold n cap.
      rewrite lookup_insert_eq. repeat split; try lia.
      * f_equal. lia.
      * intros i _ Hflag. rewrite flag_at_replicate in Hflag. discriminate.
  - intros i j s s' Hi Hj Hne. fold n cap in Hi, Hj.
    apply lookup_app_Some in Hi as [Hi|[Hgi Hi]];
      apply lookup_app_Some in Hj as [Hj|[Hgj Hj]].
    + exact (sound_apart p Hs i j s s' Hi Hj Hne).
    + destruct (j - length (segments_ p))%nat;
        [|simpl in Hj; rewrite lookup_nil in Hj; discriminate].
      injection Hj as <-. unfold apart. simpl.
      assert (Hin : s ∈ segments_ p) by (apply list_elem_of_lookup; eauto).
      specialize (Hold s Hin). lia.
    + destruct (i - length (segments_ p))%nat;
        [|simpl in Hi; rewrite lookup_nil in Hi; discriminate].
      injection Hi as <-. unfold apart. simpl.
      assert (Hin : s' ∈ segments_ p) by (apply list_elem_of_lookup; eauto).
      specialize (Hold s' Hin). lia.
    + exfalso.
      destruct (i - length (segments_ p))%nat eqn:Ei;
        [|simpl in Hi; rewrite lookup_nil in Hi; discriminate].
      destruct (j - length (segments_ p))%nat eqn:Ej;
        [|simpl in Hj; rewrite lookup_nil in Hj; discriminate].
      lia.
  - intros d b Hd. simpl in Hd. destruct (decide (d = raw)) as [->|Hne].
    + exists (new_segment raw cap). split; [|reflexivity].
      apply elem_of_app. right. apply list_elem_of_here.
    + rewrite lookup_insert_ne in Hd by congruence.
      destruct (sound_blocks p Hs d b Hd) as (s & Hin & Hds).
      exists s. split; [apply elem_of_app; auto | exact Hds].
  - intros a c Hc. simpl in Hc.
    destruct (sound_cells p Hs a c Hc) as (s & i & Hin & Hrest).
    exists s, i. split; [apply elem_of_app; auto | exact Hrest].
Qed.

End FlagsAllocate.
Section FlagsPlain.
Context {Args : Type} `{!Constructor Args}.

Lemma release_plain (segs : list FreeFlags.Segment) (m : Memory Args) :
  foldl (fun m seg => operator_delete (FreeFlags.data seg) m) m segs
  = foldl (fun m seg => operator_delete (data seg) m) m (plain <$> segs).
Proof. rewrite foldl_fmap. reflexivity. Qed.

End FlagsPlain.

Section FlagsCalls.
Context {Args : Type} `{!Constructor Args}.
Import FreeFlags.
Implicit Types (p : Pool Args) (seg : Segment) (m : Memory Args).

Lemma make_sound os_page sizeof_T alignof_T min_pages growth :
  params_fit os_page sizeof_T alignof_T min_pages ->
  sound (@make Args os_page sizeof_T alignof_T min_pages growth).
Proof.
  intros Hfit.
  pose proof (make_policy_spec os_page sizeof_T alignof_T min_pages growth Hfit) as Hpol.
  cbv zeta in Hpol. destruct Hpol as (Hps & Hptr & _ & _ & Hb & _ & Hdiv).
  unfold sizeof_ptr in Hptr.
  split; simpl policy; simpl segments_; simpl next_pages_hint_; try assumption; try lia.
  - constructor.
  - constructor.
  - intros i j s s' H. rewrite lookup_nil in H. discriminate.
  - intros d b H. simpl in H. rewrite lookup_empty in H. discriminate.
  - intros a c H. simpl in H. rewrite lookup_empty in H. discriminate.
  - reflexivity.
Qed.

(** [allocate] keeps the invariant and returns a slot in which no object is alive. *)
Lemma allocate_sound args raw p :
  sound p -> admissible_allocate raw p ->
  sound (fst (allocate args raw p)) /\
  object_at (mem p) (snd (allocate args raw p)) = None /\
  cells (mem (fst (allocate args raw p)))
    = <[snd (allocate args raw p) := Live args false]> (cells (mem p)).
Proof.
  intros Hs Hadm. unfold allocate.
  pose proof (reuse_spec (slot_size_ (policy p)) (segments_ p) (sound_shape p Hs)) as Hspec.
  destruct (reuse (slot_size_ (policy p)) (segments_ p)) as [segs' [a0|]] eqn:Hreuse.
  - destruct (take_sound args p segs' a0 Hs Hreuse) as [Hnot Hs'].
    split; [exact Hs'|]. split; [exact Hnot|]. simpl. apply cells_construct.
  - destruct Hspec as [_ ->]. pose proof (reset_sound p Hs) as Hs1.
    rewrite last_has_room_reset.
    assert (Hgrow : needs_growth p = true ->
      sound (fst (claim_uninit args
                    (add_segment_ raw (with_segments (reset_hint <$> segments_ p) p)))) /\
      object_at (mem p)
        (snd (claim_uninit args
                (add_segment_ raw (with_segments (reset_hint <$> segments_ p) p)))) = None /\
      cells (mem (fst (claim_uninit args
                    (add_segment_ raw (with_segments (reset_hint <$> segments_ p) p)))))
      = <[snd (claim_uninit args
                 (add_segment_ raw (with_segments (reset_hint <$> segments_ p) p)))
          := Live args false]> (cells (mem p))).
    { intros Hneeds. destruct (Hadm Hneeds) as (Hfit & Hfresh & Hstrict).
      set (p1 := with_segments (reset_hint <$> segments_ p) p) in *.
      assert (Hbd : bool_decide (segments_ p1 = []) = bool_decide (segments_ p = [])).
      { simpl. destruct (segments_ p); reflexivity. }
      assert (Hup : upcoming_bytes p1 = upcoming_bytes p).
      { unfold upcoming_bytes. rewrite Hbd. reflexivity. }
      destruct (add_segment_sound raw p1 Hs1) as [Hs2 Hcap].
      { rewrite Hbd. exact Hfit. }
      { rewrite Hup. exact Hfresh. }
      { rewrite Hup. exact Hstrict. }
      destruct (claim_sound args (add_segment_ raw p1) (segments_ p1)
                  (new_segment raw _) Hs2 eq_refl Hcap) as (Hnone & Hclaim & Hs3).
      cbv zeta in Hclaim, Hs3, Hnone. rewrite Hclaim.
      split; [exact Hs3|]. split.
      - unfold object_at. simpl in Hnone |- *. rewrite Hnone. reflexivity.
      - simpl. rewrite cells_construct. reflexivity. }
    destruct (last (segments_ p)) as [seg|] eqn:Hlast.
    + destruct (next_uninit seg <? capacity seg) eqn:Hroom.
      * apply Z.ltb_lt in Hroom. apply last_Some in Hlast as [l Hl].
        destruct (claim_sound args (with_segments (reset_hint <$> segments_ p) p)
                    (reset_hint <$> l) (reset_hint seg) Hs1) as (Hnone & Hclaim & Hs3).
        { simpl. rewrite Hl, fmap_app. reflexivity. }
        { simpl. exact Hroom. }
        cbv zeta in Hclaim, Hs3, Hnone. rewrite Hclaim.
        split; [exact Hs3|]. split.
        -- unfold object_at. simpl in Hnone |- *. rewrite Hnone. reflexivity.
        -- simpl. apply cells_construct.
      * apply Hgrow. unfold needs_growth. rewrite Hreuse. simpl.
        unfold last_has_room. rewrite Hlast, Hroom. reflexivity.
    + apply Hgrow. unfold needs_growth. rewrite Hreuse. simpl.
      unfold last_has_room. rewrite Hlast. reflexivity.
Qed.

(** [deallocate] of a live object finds its segment and flags its slot. *)
Lemma deallocate_sound ptr p :
  sound p -> is_Some (object_at (mem p) ptr) ->
  exists l seg rest i,
    segments_ p = l ++ seg :: rest /\ 0 <= i < next_uninit seg /\
    ptr = data seg + i * slot_size_ (policy p) /\
    flag_at (free_flags seg) i <> 1 /\
    deallocate ptr p =
      {| segments_ := l ++ mark_free i seg :: rest; policy := policy p;
         next_pages_hint_ := next_pages_hint_ p;
         live_count_ := wrap (live_count_ p - 1);
         mem := destroy ptr (mem p) |} /\
    sound (deallocate ptr p) /\ 1 <= live_count_ p.
Proof.
  intros Hs [[x r] Hobj]. unfold object_at in Hobj.
  destruct (cells (mem p) !! ptr) as [[x' r'| |n]|] eqn:Hcell; try discriminate.
  pose proof (sound_slot p Hs) as Hss.
  pose proof (sound_shape p Hs) as Hshape.
  pose proof (sound_segments p Hs) as Hok.
  destruct (sound_cells p Hs ptr _ Hcell) as (seg & i & Hin & Hi & Hptr & Hflag & _).
  assert (Hnf : flag_at (free_flags seg) i <> 1).
  { intros H. apply Hflag in H. discriminate H. }
  pose proof Hin as Hin'. apply list_elem_of_lookup in Hin' as [k Hk].
  pose proof (take_drop_middle _ _ _ Hk) as Hsplit. symmetry in Hsplit.
  set (l := take k (segments_ p)) in *. set (rest := drop (S k) (segments_ p)) in *.
  rewrite Forall_forall in Hok.
  destruct (Hok seg Hin) as (Hd & Hn & Hc & Hfit & Hblk & Hbelow).
  assert (Hearlier : Forall (fun s => owns (slot_size_ (policy p)) s ptr = false) l).
  { apply Forall_forall. intros s Hsl. subst l.
    apply elem_of_take in Hsl as (j & Hj & Hjk).
    destruct (Hok s ltac:(eapply list_elem_of_lookup_2; exact Hj)) as (Hd' & _ & Hc' & _).
    destruct (owns (slot_size_ (policy p)) s ptr) eqn:Ho; [exfalso|reflexivity].
    apply owns_within in Ho; [|lia..]. unfold within in Ho.
    destruct (sound_apart p Hs j k s seg Hj Hk ltac:(lia)) as [H|H]; nia. }
  destruct (owns_slot (slot_size_ (policy p)) seg i Hss ltac:(lia) ltac:(lia) Hfit)
    as [Howns Hindex].
  rewrite <- Hptr in Howns, Hindex.
  assert (Hnz : ptr <> 0) by nia.
  assert (Hdealloc : deallocate ptr p =
            {| segments_ := l ++ mark_free i seg :: rest; policy := policy p;
               next_pages_hint_ := next_pages_hint_ p;
               live_count_ := wrap (live_count_ p - 1);
               mem := destroy ptr (mem p) |}).
  { unfold deallocate. destruct (Z.eqb_spec ptr 0); [contradiction|].
    rewrite Hsplit at 1. rewrite (release_app _ _ l seg rest Hearlier Howns), Hindex.
    reflexivity. }
  assert (Hlen : (Z.to_nat i < length (free_flags seg))%nat).
  { rewrite Forall_forall in Hshape. destruct (Hshape seg Hin) as (Hlen & _).
    rewrite Hlen. apply to_nat_lt. lia. }
  assert (Hokl : Forall (seg_ok (slot_size_ (policy p)) (mem p)) (segments_ p))
    by (apply Forall_forall; exact Hok).
  rewrite Hsplit in Hokl. apply Forall_app in Hokl as [Hokl Hokr].
  apply Forall_cons in Hokr as [_ Hokr].
  assert (Hcar : Forall2 (carries (slot_size_ (policy p)) ptr) (segments_ p)
                   (l ++ mark_free i seg :: rest)).
  { rewrite Hsplit at 1. apply Forall2_app; [eapply carries_same; exact Hokl|].
    constructor; [|eapply carries_same; exact Hokr].
    unfold carries. simpl. split; [reflexivity|]. split; [reflexivity|]. split; [lia|].
    intros j Hj Hne. apply flag_at_insert_ne; [lia | exact Hj |].
    intros ->. apply Hne. symmetry. exact Hptr. }
  pose proof (alive_destroy ptr (mem p) x' r' Hcell) as Hsize.
  exists l, seg, rest, i. split; [exact Hsplit|]. split; [exact Hi|].
  split; [exact Hptr|]. split; [exact Hnf|]. split; [exact Hdealloc|].
  split; [|rewrite (sound_live p Hs); lia].
  rewrite Hdealloc. apply (sound_update p _ _ _ ptr Hs).
  - exact Hcar.
  - rewrite Hsplit in Hshape. apply Forall_app in Hshape as [Hl Hr].
    apply Forall_cons in Hr as [Hseg Hr]. apply Forall_app. split; [exact Hl|].
    constructor; [apply shape_mark_free; [lia | exact Hseg] | exact Hr].
  - reflexivity.
  - intros s' Hs' j Hj Hfl. apply elem_of_app in Hs' as [Hs'|Hs'].
    + rewrite Forall_forall in Hokl. destruct (Hokl s' Hs') as (_ & _ & _ & _ & _ & Hb).
      exact (Hb j Hj Hfl).
    + apply elem_of_cons in Hs' as [->|Hs'].
      * simpl in *. destruct (decide (j = i)) as [->|Hji]; [lia|].
        rewrite flag_at_insert_ne in Hfl by lia. exact (Hbelow j Hj Hfl).
      * rewrite Forall_forall in Hokr. destruct (Hokr s' Hs') as (_ & _ & _ & _ & _ & Hb).
        exact (Hb j Hj Hfl).
  - intros b c Hc'. simpl in Hc'. destruct (decide (b = ptr)) as [->|Hne].
    + rewrite lookup_insert_eq in Hc'. injection Hc' as <-.
      exists (mark_free i seg), i. split.
      { apply elem_of_app. right. apply list_elem_of_here. }
      simpl. split; [lia|]. split; [exact Hptr|]. split; [|discriminate].
      rewrite flag_at_insert_eq by (try lia; exact Hlen). split; reflexivity.
    + rewrite lookup_insert_ne in Hc' by congruence.
      exact (agrees_carried _ ptr _ _ b c Hcar Hne (sound_cells p Hs b c Hc')).
  - rewrite (sound_live p Hs). f_equal. lia.
Qed.

Lemma flags_segments_distinct p : sound p -> NoDup (data <$> segments_ p).
Proof.
  intros Hs. apply NoDup_alt. intros i j d Hi Hj.
  rewrite list_lookup_fmap in Hi, Hj.
  destruct (segments_ p !! i) as [s|] eqn:Ei; [|discriminate].
  destruct (segments_ p !! j) as [s'|] eqn:Ej; [|discriminate].
  simpl in Hi, Hj. injection Hi as Hi. injection Hj as Hj.
  destruct (decide (i = j)) as [|Hne]; [assumption|exfalso].
  pose proof (sound_apart p Hs i j s s' Ei Ej Hne) as Hap.
  pose proof (sound_segments p Hs) as Hok. rewrite Forall_forall in Hok.
  pose proof (sound_slot p Hs) as Hss.
  destruct (Hok s ltac:(apply list_elem_of_lookup; eauto)) as (_ & _ & Hc & _).
  destruct (Hok s' ltac:(apply list_elem_of_lookup; eauto)) as (_ & _ & Hc' & _).
  unfold apart in Hap. nia.
Qed.

Lemma clear_sound p :
  sound p ->
  cells (mem (clear p)) = ∅ /\ blocks (mem (clear p)) = ∅ /\ sound (clear p).
Proof.
  intros Hs. pose proof (sound_slot p Hs) as Hss.
  pose proof (sound_segments p Hs) as Hok.
  assert (Hcells : cells (mem (clear p)) = ∅).
  { apply map_empty. intros k. simpl. rewrite release_plain.
    match goal with |- ?x = None => destruct x as [c|] eqn:E end; [exfalso|reflexivity].
    apply (release_all_cells (slot_size_ (policy p))) in E as [Hc Hout].
    - destruct (sound_cells p Hs k c Hc) as (s & i & Hin & Hi & Hk & _).
      rewrite Forall_forall in Hok. destruct (Hok s Hin) as (_ & Hhw & _).
      apply (Hout (plain s)); [apply list_elem_of_fmap_2; exact Hin|]. simpl. nia.
    - rewrite <- list_fmap_compose. exact (flags_segments_distinct p Hs).
    - apply Forall_fmap. eapply Forall_impl; [exact Hok|].
      intros s (_ & _ & _ & _ & Hb & _). exact Hb. }
  assert (Hblocks : blocks (mem (clear p)) = ∅).
  { apply map_empty. intros k. simpl. rewrite release_plain.
    match goal with |- ?x = None => destruct x as [b|] eqn:E end; [exfalso|reflexivity].
    apply release_all_blocks in E as [Hb Hnone].
    destruct (sound_blocks p Hs k b Hb) as (s & Hin & Hd).
    apply (Hnone (plain s)); [apply list_elem_of_fmap_2; exact Hin | exact Hd]. }
  split; [exact Hcells|]. split; [exact Hblocks|].
  pose proof (sound_base p Hs) as Hb.
  split; simpl policy; simpl segments_; simpl next_pages_hint_; try (apply Hs).
  - lia.
  - constructor.
  - constructor.
  - intros i j s s' H. rewrite lookup_nil in H. discriminate.
  - intros d b H. rewrite Hblocks, lookup_empty in H. discriminate.
  - intros a c H. rewrite Hcells, lookup_empty in H. discriminate.
  - unfold alive. rewrite Hcells, map_filter_empty, map_size_empty. reflexivity.
Qed.

(** Every state the contract leads to satisfies the invariant. *)
Lemma kept_sound p : kept p -> sound p.
Proof.
  induction 1 as [os_page sizeof_T alignof_T min_pages growth Hfit
                 |p args raw _ IH Hadm|p ptr _ IH Hadm|p _ IH].
  - apply make_sound. exact Hfit.
  - exact (proj1 (allocate_sound args raw p IH Hadm)).
  - destruct Hadm as [->|Hobj]; [exact IH|].
    destruct (deallocate_sound ptr p IH Hobj) as (l & seg & rest & i & H).
    apply H.
  - exact (proj2 (proj2 (clear_sound p IH))).
Qed.

End FlagsCalls.
(** X24: in the free-flags revision, as long as the callers keep the contract,
    [allocate] never returns the address of an object that is alive: the pointer is
    the start of a slot below the high-water mark of one of the pool's segments,
    inside that segment's block, its flag is clear afterwards, the new object is
    built there from the arguments, and every object alive before is unchanged. *)
Theorem flags_allocate_never_aliases (Args : Type) `{!Constructor Args} (p : FreeFlags.Pool Args)
    (args : Args) (raw : Z) :
  FreeFlags.kept p ->
  FreeFlags.admissible_allocate raw p ->
  let p' := fst (FreeFlags.allocate args raw p) in
  let a := snd (FreeFlags.allocate args raw p) in
  object_at (FreeFlags.mem p) a = None /\
  object_at (FreeFlags.mem p') a = Some (args, false) /\
  (forall q, is_Some (object_at (FreeFlags.mem p) q) ->
     q <> a /\ object_at (FreeFlags.mem p') q = object_at (FreeFlags.mem p) q) /\
  0 < a /\
  exists seg i,
    seg ∈ FreeFlags.segments_ p' /\
    0 <= i < FreeFlags.next_uninit seg /\
    FreeFlags.next_uninit seg <= FreeFlags.capacity seg /\
    a = FreeFlags.data seg + i * slot_size_ (FreeFlags.policy p) /\
    blocks (FreeFlags.mem p') !! FreeFlags.data seg
      = Some (FreeFlags.capacity seg * slot_size_ (FreeFlags.policy p)) /\
    FreeFlags.flag_at (FreeFlags.free_flags seg) i <> 1.
Proof.
  intros Hkept Hadm p' a.
  destruct (allocate_sound args raw p (kept_sound p Hkept) Hadm) as (Hs' & Hnot & Hcells).
  fold p' a in Hs', Hnot, Hcells.
  assert (Hcell : cells (FreeFlags.mem p') !! a = Some (Live args false)).
  { rewrite Hcells. apply lookup_insert_eq. }
  split; [exact Hnot|]. split; [unfold object_at; rewrite Hcell; reflexivity|].
  split.
  { intros q Hq. assert (Hne : q <> a).
    { intros ->. rewrite Hnot in Hq. destruct Hq as [x Hx]. discriminate Hx. }
    split; [exact Hne|]. unfold object_at. rewrite Hcells, lookup_insert_ne by congruence.
    reflexivity. }
  destruct (FreeFlags.sound_cells p' Hs' a _ Hcell) as (seg & i & Hin & Hi & Ha & Hflag & _).
  pose proof (FreeFlags.sound_segments p' Hs') as Hok. rewrite Forall_forall in Hok.
  destruct (Hok seg Hin) as (Hd & Hn & Hc & Hfit & Hblk & _).
  pose proof (FreeFlags.sound_slot p' Hs') as Hss.
  subst p'. rewrite allocate_policy in *.
  split; [nia|]. exists seg, i. repeat split; try assumption; try lia.
  intros H. apply Hflag in H. discriminate H.
Qed.

Lemma readme_flags_created_kept : FreeFlags.kept readme_flags_created.
Proof.
  apply FreeFlags.kept_allocate.
  - apply FreeFlags.kept_allocate.
    + apply FreeFlags.kept_make. exact bullet_params_fit.
    + intros _. split; [reflexivity|]. split.
      * split; [reflexivity|]. split; [apply Z.leb_le; vm_compute; reflexivity|].
        intros d b H. simpl in H. rewrite lookup_empty in H. discriminate H.
      * apply Z.ltb_lt. vm_compute. reflexivity.
  - intros H. vm_compute in H. discriminate H.
Qed.

Lemma readme_flags_created_objects :
  object_at (FreeFlags.mem readme_flags_created) (2 ^ 32) = Some ([10; 20], false) /\
  object_at (FreeFlags.mem readme_flags_created) (2 ^ 32 + 24) = Some ([], false).
Proof. split; vm_compute; reflexivity. Qed.

Lemma readme_flags_recycled_kept : FreeFlags.kept readme_flags_recycled.
Proof.
  apply FreeFlags.kept_deallocate.
  - apply FreeFlags.kept_deallocate; [exact readme_flags_created_kept|].
    right. rewrite (proj1 readme_flags_created_objects). eauto.
  - right.
    assert (E : object_at (FreeFlags.mem (FreeFlags.deallocate (2 ^ 32) readme_flags_created))
                  (2 ^ 32 + 24) = Some ([], false)) by (vm_compute; reflexivity).
    rewrite E. eauto.
Qed.

Lemma readme_flags_recycled_admissible raw :
  FreeFlags.admissible_allocate raw readme_flags_recycled.
Proof. intros H. vm_compute in H. discriminate H. Qed.

Lemma flags_allocate_never_aliases_witness :
  snd (FreeFlags.allocate [50; 60] 0 readme_flags_recycled) = 2 ^ 32 /\
  object_at (FreeFlags.mem readme_flags_recycled)
    (snd (FreeFlags.allocate [50; 60] 0 readme_flags_recycled)) = None /\
  object_at (FreeFlags.mem (fst (FreeFlags.allocate [50; 60] 0 readme_flags_recycled)))
    (snd (FreeFlags.allocate [50; 60] 0 readme_flags_recycled)) = Some ([50; 60], false).
Proof.
  split; [vm_compute; reflexivity|].
  destruct (flags_allocate_never_aliases (list Z) readme_flags_recycled [50; 60] 0
              readme_flags_recycled_kept (readme_flags_recycled_admissible 0))
    as (H1 & H2 & _).
  split; assumption.
Defined.

(** X25: in the free-flags revision, under the contract, [live()] is the number of
    objects that are alive; the slot of such an object is below the high-water mark
    of a segment and its flag is clear; and two such objects never overlap. *)
Theorem flags_live_counts_the_live_objects (Args : Type) `{!Constructor Args}
    (p : FreeFlags.Pool Args) :
  FreeFlags.kept p ->
  FreeFlags.live p = Z.of_nat (size (alive (FreeFlags.mem p))) /\
  (forall a, is_Some (object_at (FreeFlags.mem p) a) ->
     exists seg i,
       seg ∈ FreeFlags.segments_ p /\ 0 <= i < FreeFlags.next_uninit seg /\
       a = FreeFlags.data seg + i * slot_size_ (FreeFlags.policy p) /\
       ~ FreeFlags.flagged seg i) /\
  (forall a b,
     is_Some (object_at (FreeFlags.mem p) a) -> is_Some (object_at (FreeFlags.mem p) b) ->
     a <> b ->
     a + slot_size_ (FreeFlags.policy p) <= b \/ b + slot_size_ (FreeFlags.policy p) <= a).
Proof.
  intros Hkept. pose proof (kept_sound p Hkept) as Hs.
  assert (Hslot : forall a, is_Some (object_at (FreeFlags.mem p) a) ->
            exists seg i,
              seg ∈ FreeFlags.segments_ p /\ 0 <= i < FreeFlags.next_uninit seg /\
              a = FreeFlags.data seg + i * slot_size_ (FreeFlags.policy p) /\
              FreeFlags.flag_at (FreeFlags.free_flags seg) i <> 1).
  { intros a [[x r] Hobj]. unfold object_at in Hobj.
    destruct (cells (FreeFlags.mem p) !! a) as [[x' r'| |n]|] eqn:Hcell; try discriminate.
    destruct (FreeFlags.sound_cells p Hs a _ Hcell) as (seg & i & Hin & Hi & Ha & Hflag & _).
    exists seg, i. repeat split; try assumption; try lia.
    intros H. apply Hflag in H. discriminate H. }
  split; [exact (FreeFlags.sound_live p Hs)|]. split.
  - intros a Ha. destruct (Hslot a Ha) as (seg & i & Hin & Hi & E & Hflag).
    exists seg, i. repeat split; try assumption; try lia. intros [_ H]. contradiction.
  - intros a b Ha Hb Hne.
    destruct (Hslot a Ha) as (s & i & Hin & Hi & -> & _).
    destruct (Hslot b Hb) as (s' & j & Hin' & Hj & -> & _).
    pose proof (FreeFlags.sound_slot p Hs) as Hss.
    pose proof (FreeFlags.sound_segments p Hs) as Hok. rewrite Forall_forall in Hok.
    destruct (Hok s Hin) as (_ & Hn & _). destruct (Hok s' Hin') as (_ & Hn' & _).
    apply list_elem_of_lookup in Hin as [k Hk]. apply list_elem_of_lookup in Hin' as [k' Hk'].
    destruct (decide (k = k')) as [->|Hkk].
    + rewrite Hk in Hk'. injection Hk' as <-.
      assert (i <> j) by (intros ->; contradiction). nia.
    + destruct (FreeFlags.sound_apart p Hs k k' s s' Hk Hk' Hkk) as [H|H]; nia.
Qed.

Lemma flags_live_counts_the_live_objects_witness :
  FreeFlags.live readme_flags_created
    = Z.of_nat (size (alive (FreeFlags.mem readme_flags_created))) /\
  FreeFlags.live readme_flags_created = 2.
Proof.
  split; [|vm_compute; reflexivity].
  exact (proj1 (flags_live_counts_the_live_objects (list Z) readme_flags_created
                  readme_flags_created_kept)).
Defined.

(** X26: in the free-flags revision, under the contract, [deallocate] of an object
    that is alive finds the segment of its slot, sets the flag of that slot, runs
    the destructor once, leaves every other object as it is, and takes exactly one
    off the live count, which was at least one. *)
Theorem flags_deallocate_ends_one_object (Args : Type) `{!Constructor Args}
    (p : FreeFlags.Pool Args) (ptr : Z) :
  FreeFlags.kept p ->
  is_Some (object_at (FreeFlags.mem p) ptr) ->
  let p' := FreeFlags.deallocate ptr p in
  1 <= FreeFlags.live p /\ FreeFlags.live p' = FreeFlags.live p - 1 /\
  object_at (FreeFlags.mem p') ptr = None /\
  (forall q, q <> ptr -> object_at (FreeFlags.mem p') q = object_at (FreeFlags.mem p) q) /\
  destroyed (FreeFlags.mem p') = ptr :: destroyed (FreeFlags.mem p) /\
  exists l seg rest i,
    FreeFlags.segments_ p = l ++ seg :: rest /\
    ptr = FreeFlags.data seg + i * slot_size_ (FreeFlags.policy p) /\
    ~ FreeFlags.flagged seg i /\
    FreeFlags.segments_ p' = l ++ FreeFlags.mark_free i seg :: rest /\
    FreeFlags.flagged (FreeFlags.mark_free i seg) i.
Proof.
  intros Hkept Hobj p'. pose proof (kept_sound p Hkept) as Hs.
  destruct (deallocate_sound ptr p Hs Hobj)
    as (l & seg & rest & i & Hsegs & Hi & Hptr & Hnf & Hd & Hs' & Hone).
  pose proof (sound_alive_fits p Hs) as Hfits.
  pose proof (FreeFlags.sound_live p Hs) as Hlive.
  pose proof (FreeFlags.sound_shape p Hs) as Hshape.
  pose proof (FreeFlags.sound_segments p Hs) as Hok.
  assert (Hin : seg ∈ FreeFlags.segments_ p).
  { rewrite Hsegs. apply elem_of_app. right. apply list_elem_of_here. }
  rewrite Forall_forall in Hshape, Hok.
  destruct (Hshape seg Hin) as (Hlen & _). destruct (Hok seg Hin) as (_ & Hn & _).
  subst p'. rewrite Hd. unfold FreeFlags.live, object_at, destroy. simpl.
  split; [exact Hone|]. split; [apply wrap_small; lia|].
  split; [rewrite lookup_insert_eq; reflexivity|].
  split; [intros q Hq; rewrite lookup_insert_ne by congruence; reflexivity|].
  split; [reflexivity|].
  exists l, seg, rest, i. split; [exact Hsegs|]. split; [exact Hptr|].
  split; [intros [_ H]; contradiction|]. split; [reflexivity|].
  split; [simpl; lia|]. simpl. apply flag_at_insert_eq; [lia|].
  rewrite Hlen. apply to_nat_lt. lia.
Qed.

Lemma flags_deallocate_ends_one_object_witness :
  FreeFlags.live readme_flags_created = 2 /\
  FreeFlags.live (FreeFlags.deallocate (2 ^ 32) readme_flags_created)
    = FreeFlags.live readme_flags_created - 1 /\
  object_at (FreeFlags.mem (FreeFlags.deallocate (2 ^ 32) readme_flags_created)) (2 ^ 32)
    = None.
Proof.
  split; [vm_compute; reflexivity|].
  assert (Hobj : is_Some (object_at (FreeFlags.mem readme_flags_created) (2 ^ 32))).
  { rewrite (proj1 readme_flags_created_objects). eauto. }
  destruct (flags_deallocate_ends_one_object (list Z) readme_flags_created (2 ^ 32)
              readme_flags_created_kept Hobj) as (_ & H1 & H2 & _).
  split; assumption.
Defined.

(** X27: in the free-flags revision, under the contract, the blocks the pool holds
    are exactly the blocks of its segments, and [clear] releases every one of them,
    leaves no slot content behind and resets the live count. *)
Theorem flags_clear_releases_every_block (Args : Type) `{!Constructor Args}
    (p : FreeFlags.Pool Args) :
  FreeFlags.kept p ->
  (forall d b,
     blocks (FreeFlags.mem p) !! d = Some b <->
     exists seg, seg ∈ FreeFlags.segments_ p /\ FreeFlags.data seg = d /\
                 b = FreeFlags.capacity seg * slot_size_ (FreeFlags.policy p)) /\
  blocks (FreeFlags.mem (FreeFlags.clear p)) = ∅ /\
  cells (FreeFlags.mem (FreeFlags.clear p)) = ∅ /\
  FreeFlags.live (FreeFlags.clear p) = 0 /\
  FreeFlags.segments_ (FreeFlags.clear p) = [].
Proof.
  intros Hkept. pose proof (kept_sound p Hkept) as Hs.
  destruct (clear_sound p Hs) as (Hcells & Hblocks & _).
  pose proof (FreeFlags.sound_segments p Hs) as Hok. rewrite Forall_forall in Hok.
  split; [|repeat split; assumption].
  intros d b. split.
  - intros Hb. destruct (FreeFlags.sound_blocks p Hs d b Hb) as (seg & Hin & <-).
    exists seg. split; [exact Hin|]. split; [reflexivity|].
    destruct (Hok seg Hin) as (_ & _ & _ & _ & Hblk & _). congruence.
  - intros (seg & Hin & <- & ->). destruct (Hok seg Hin) as (_ & _ & _ & _ & Hblk & _).
    exact Hblk.
Qed.

Lemma flags_clear_releases_every_block_witness :
  blocks (FreeFlags.mem readme_flags_recycled) !! (2 ^ 32) = Some 12288 /\
  blocks (FreeFlags.mem (FreeFlags.clear readme_flags_recycled)) = ∅ /\
  cells (FreeFlags.mem (FreeFlags.clear readme_flags_recycled)) = ∅.
Proof.
  split; [vm_compute; reflexivity|].
  destruct (flags_clear_releases_every_block (list Z) readme_flags_recycled
              readme_flags_recycled_kept) as (_ & H1 & H2 & _).
  split; assumption.
Defined.
(** ** The stack revision against SegmentedObjectPool.hpp *)

Section StackMirrors.
Context {Args : Type} `{!Constructor Args}.
Implicit Types (pl : FreeList.Pool Args) (ps : FreeStack.Pool Args).

Lemma vacant_nil pl :
  FreeList.reachable pl -> (FreeList.vacant pl = [] <-> FreeList.free_list_ pl = 0).
Proof.
  intros Hreach. destruct (vacant_chain pl Hreach) as (Hchain & _).
  destruct (FreeList.vacant pl) as [|b l] eqn:E; simpl in Hchain.
  - split; intros _; [exact Hchain | reflexivity].
  - destruct Hchain as (-> & Hnz & _). split; [discriminate | contradiction].
Qed.

Lemma mirrors_allocate args raw pl ps :
  FreeList.reachable pl -> FreeStack.mirrors pl ps ->
  FreeList.admissible (FreeList.Allocate args raw) pl ->
  exists pl' a,
    FreeList.allocate args raw pl = Some (pl', a) /\
    snd (FreeStack.allocate args raw ps) = a /\
    FreeStack.mirrors pl' (fst (FreeStack.allocate args raw ps)).
Proof.
  intros Hreach (Hsegs & Hpol & Hhint & Hlive & Hfs) Hadm.
  pose proof (reachable_wf pl Hreach) as Hwf.
  destruct (allocate_wf args raw pl Hwf Hadm) as (pl' & a & Halloc & _).
  pose proof (allocate_reachable _ _ _ _ _ Hreach Hadm Halloc) as Hreach'.
  exists pl', a. split; [exact Halloc|].
  destruct (FreeList.vacant pl) as [|b rest] eqn:Hvac.
  - (* nothing vacant: both take the slot at the high-water mark, or grow *)
    pose proof (proj1 (vacant_nil pl Hreach) Hvac) as Hnil.
    assert (Hvac' : FreeList.vacant pl' = []).
    { apply (vacant_nil pl' Hreach'). revert Halloc. unfold FreeList.allocate.
      rewrite Hnil. simpl.
      destruct (FreeList.last_has_room pl); unfold FreeList.claim_uninit; simpl;
        match goal with |- context [last ?l] => destruct (last l) end; simpl;
        try discriminate; intros [= <- _]; exact Hnil. }
    revert Halloc Hvac'. unfold FreeList.allocate, FreeStack.allocate.
    rewrite Hnil, Hfs. simpl.
    unfold FreeList.last_has_room, FreeStack.last_has_room. rewrite Hsegs.
    assert (Hdone : forall segs' hint' (m' ms' : Memory Args) (a' : Z),
              FreeList.vacant
                {| FreeList.segments_ := segs'; FreeList.free_list_ := FreeList.free_list_ pl;
                   FreeList.policy := FreeList.policy pl;
                   FreeList.next_pages_hint_ := hint';
                   FreeList.live_count_ := wrap (FreeList.live_count_ pl + 1);
                   FreeList.mem := m' |} = [] ->
              a' = a' /\
              FreeStack.mirrors
                {| FreeList.segments_ := segs'; FreeList.free_list_ := FreeList.free_list_ pl;
                   FreeList.policy := FreeList.policy pl;
                   FreeList.next_pages_hint_ := hint';
                   FreeList.live_count_ := wrap (FreeList.live_count_ pl + 1);
                   FreeList.mem := m' |}
                {| FreeStack.free_stack_ := []; FreeStack.segments_ := segs';
                   FreeStack.policy := FreeList.policy pl;
                   FreeStack.next_pages_hint_ := hint';
                   FreeStack.live_count_ := wrap (FreeList.live_count_ pl + 1);
                   FreeStack.lock_ := FreeStack.lock_ ps; FreeStack.mem := ms' |}).
    { intros segs' hint' m' ms' a' Hv. split; [reflexivity|].
      unfold FreeStack.mirrors. cbn [FreeStack.segments_ FreeStack.policy
        FreeStack.next_pages_hint_ FreeStack.live_count_ FreeStack.free_stack_
        FreeList.segments_ FreeList.policy FreeList.next_pages_hint_ FreeList.live_count_].
      rewrite Hv. repeat split; reflexivity. }
    destruct (last (FreeList.segments_ pl)) as [seg|] eqn:Hlast.
    + destruct (next_uninit seg <? capacity seg).
      * unfold FreeList.claim_uninit, FreeStack.claim_uninit. rewrite Hsegs, Hlast. simpl.
        intros [= <- <-] Hv. rewrite Hpol, Hlive, Hhint, ?Hfs. exact (Hdone _ _ _ _ _ Hv).
      * unfold FreeList.claim_uninit, FreeStack.claim_uninit. simpl.
        rewrite Hsegs, !last_snoc. simpl. intros [= <- <-] Hv.
        rewrite Hpol, Hlive, Hhint, ?Hfs. exact (Hdone _ _ _ _ _ Hv).
    + unfold FreeList.claim_uninit, FreeStack.claim_uninit. simpl.
      rewrite Hsegs, !last_snoc. simpl. intros [= <- <-] Hv.
      rewrite Hpol, Hlive, Hhint, ?Hfs. exact (Hdone _ _ _ _ _ Hv).
  - (* a vacant slot on top: both return it *)
    destruct (vacant_allocate pl args raw b rest Hreach Hvac) as (q & Hq & Hrest).
    rewrite Hq in Halloc. injection Halloc as <- <-.
    assert (Hhead : FreeList.free_list_ pl <> 0).
    { intros H. apply (vacant_nil pl Hreach) in H. congruence. }
    destruct (allocate_reuse_wf args raw pl Hwf Hhead) as (next & _ & Halloc' & _).
    cbv zeta in Halloc'. rewrite Hq in Halloc'. injection Halloc' as Eq _.
    unfold FreeStack.allocate. rewrite Hfs. simpl.
    split; [reflexivity|]. unfold FreeStack.mirrors. simpl.
    rewrite Hrest, Eq. simpl. rewrite Hsegs, Hpol, Hhint, Hlive. repeat split; reflexivity.
Qed.

Lemma mirrors_deallocate ptr pl ps :
  FreeList.reachable pl -> FreeStack.mirrors pl ps ->
  FreeList.admissible (FreeList.Deallocate ptr) pl ->
  FreeStack.mirrors (FreeList.deallocate ptr pl) (FreeStack.deallocate ptr ps).
Proof.
  intros Hreach Hm [->|Hobj]; [exact Hm|].
  pose proof (vacant_deallocate pl ptr Hreach Hobj) as Hvac.
  destruct Hm as (Hsegs & Hpol & Hhint & Hlive & Hfs).
  unfold FreeStack.mirrors. rewrite Hvac.
  unfold FreeList.deallocate, FreeStack.deallocate.
  destruct (Z.eqb_spec ptr 0) as [->|Hnz].
  - exfalso. destruct (object_is_cell pl 0 Hobj) as (x & r & Hcell).
    pose proof (cells_in_space pl 0 _ (reachable_wf pl Hreach) Hcell). lia.
  - simpl. rewrite Hsegs, Hpol, Hhint, Hlive, Hfs. repeat split; reflexivity.
Qed.

End StackMirrors.
Lemma allowed_cons {Args : Type} `{!Constructor Args}
    (o : FreeList.op Args) (rest : list (FreeList.op Args))
    (p q : FreeList.Pool Args) (r : option Z) :
  FreeList.admissible o p -> FreeList.step o p = Some (q, r) ->
  FreeList.allowed rest q -> FreeList.allowed (o :: rest) p.
Proof.
  intros Hadm Hstep Hrest. split; [exact Hadm|].
  intros p' r' H. rewrite Hstep in H. injection H as <- _. exact Hrest.
Qed.

(** X28: on every call sequence without [clear] that keeps the contract, the stack
    revision returns, call by call, the very pointers SegmentedObjectPool.hpp
    returns, when both start from states with the same segments and the same vacant
    slots in the same order (two newly constructed pools, for one). *)
Theorem stack_revision_agrees_until_clear (Args : Type) `{!Constructor Args}
    (pl : FreeList.Pool Args) (ps : FreeStack.Pool Args) (ops : list (FreeList.op Args)) :
  FreeList.reachable pl ->
  FreeStack.mirrors pl ps ->
  existsb FreeList.is_clear ops = false ->
  FreeList.allowed ops pl ->
  FreeList.returned ops pl = Some (FreeStack.returned ops ps).
Proof.
  revert pl ps.
  induction ops as [|o ops IH]; intros pl ps Hreach Hm Hclear Hall; [reflexivity|].
  simpl in Hclear. apply orb_false_elim in Hclear as [Ho Hclear].
  destruct Hall as [Hadm Hall].
  destruct o as [args raw|ptr|]; [| |discriminate Ho].
  - destruct (mirrors_allocate args raw pl ps Hreach Hm Hadm) as (pl' & a & Halloc & Ha & Hm').
    pose proof (allocate_reachable _ _ _ _ _ Hreach Hadm Halloc) as Hreach'.
    pose proof (Hall pl' (Some a) (allocate_step _ _ _ _ _ Halloc)) as Hall'.
    cbn [FreeList.returned FreeStack.returned FreeList.step FreeStack.step].
    rewrite Halloc. cbn [mbind option_bind].
    destruct (FreeStack.allocate args raw ps) as [ps' a'] eqn:Hs. simpl in Ha, Hm'. subst a'.
    rewrite (IH pl' ps' Hreach' Hm' Hclear Hall'). reflexivity.
  - pose proof (mirrors_deallocate ptr pl ps Hreach Hm Hadm) as Hm'.
    pose proof (deallocate_reachable ptr pl Hreach Hadm) as Hreach'.
    pose proof (Hall _ None eq_refl) as Hall'.
    cbn [FreeList.returned FreeStack.returned FreeList.step FreeStack.step mbind option_bind].
    rewrite (IH _ _ Hreach' Hm' Hclear Hall'). reflexivity.
Qed.

Lemma stack_revision_agrees_until_clear_witness :
  let ops := [FreeList.Allocate [10; 20] (2 ^ 32); FreeList.Allocate [] 0;
              FreeList.Deallocate (2 ^ 32); FreeList.Deallocate (2 ^ 32 + 24);
              FreeList.Allocate [50; 60] 0; FreeList.Allocate [230; 170] 0] in
  FreeList.returned ops (bullet_pool 0 growth_one)
    = Some (FreeStack.returned ops bullet_stack_pool) /\
  FreeStack.returned ops bullet_stack_pool = [2 ^ 32; 2 ^ 32 + 24; 2 ^ 32 + 24; 2 ^ 32].
Proof.
  intros ops. split; [|vm_compute; reflexivity].
  set (p0 := bullet_pool 0 growth_one).
  set (p1 := FreeList.run [FreeList.Allocate [10; 20] (2 ^ 32)] p0).
  set (p3 := readme_recycled).
  set (p4 := FreeList.deallocate (2 ^ 32 + 24) p3).
  set (p5 := FreeList.run [FreeList.Allocate [50; 60] 0] p4).
  set (p6 := FreeList.run [FreeList.Allocate [230; 170] 0] p5).
  assert (Hm : FreeStack.mirrors p0 bullet_stack_pool).
  { unfold FreeStack.mirrors. repeat split; vm_compute; reflexivity. }
  apply (stack_revision_agrees_until_clear (list Z) p0 bullet_stack_pool ops
           (FreeList.reach_make 4096 24 8 0 growth_one bullet_params_fit) Hm eq_refl).
  apply (allowed_cons _ _ p0 p1 (Some (2 ^ 32))); [|reflexivity|].
  { intros _. split; [reflexivity|]. split; [reflexivity|].
    split; [apply Z.leb_le; vm_compute; reflexivity|].
    intros d b H. simpl in H. rewrite lookup_empty in H. discriminate H. }
  apply (allowed_cons _ _ p1 readme_created (Some (2 ^ 32 + 24))); [|reflexivity|].
  { intros H. vm_compute in H. discriminate H. }
  apply (allowed_cons _ _ readme_created p3 None); [|reflexivity|].
  { right. rewrite (proj1 readme_created_objects). eauto. }
  apply (allowed_cons _ _ p3 p4 None); [|reflexivity|].
  { right.
    assert (E : object_at (FreeList.mem p3) (2 ^ 32 + 24) = Some ([], false))
      by (vm_compute; reflexivity).
    rewrite E. eauto. }
  apply (allowed_cons _ _ p4 p5 (Some (2 ^ 32 + 24))); [|reflexivity|].
  { intros H. vm_compute in H. discriminate H. }
  apply (allowed_cons _ _ p5 p6 (Some (2 ^ 32))); [|reflexivity|exact I].
  intros H. vm_compute in H. discriminate H.
Defined.
Lemma live_slot_of_allocate {Args : Type} `{!Constructor Args} (args : Args) (raw : Z)
    (p p' : FreeList.Pool Args) (a : Z) :
  FreeList.reachable p -> FreeList.admissible (FreeList.Allocate args raw) p ->
  FreeList.allocate args raw p = Some (p', a) -> 0 < a.
Proof.
  intros Hreach Hadm Halloc.
  pose proof (reachable_wf p' (allocate_reachable _ _ _ _ _ Hreach Hadm Halloc)) as Hwf.
  assert (Hcell : cells (FreeList.mem p') !! a = Some (Live args false)).
  { rewrite (allocate_cells _ _ _ _ _ Halloc). apply lookup_insert_eq. }
  pose proof (cells_in_space p' a _ Hwf Hcell). lia.
Qed.

(** X29: a call sequence that keeps the contract always runs to its end: no
    [allocate] of SegmentedObjectPool.hpp reads a free-list node from storage that
    holds none, every [allocate] call returns a pointer, and the state the sequence
    ends in is again one the contract leads to. *)
Theorem allowed_calls_complete (Args : Type) `{!Constructor Args} (p : FreeList.Pool Args)
    (ops : list (FreeList.op Args)) :
  FreeList.reachable p ->
  FreeList.allowed ops p ->
  exists p' rs,
    FreeList.exec ops p = Some p' /\
    FreeList.returned ops p = Some rs /\
    Z.of_nat (length rs) = FreeList.count FreeList.is_allocate ops /\
    Forall (fun a => a <> 0) rs /\
    FreeList.reachable p'.
Proof.
  revert p. induction ops as [|o ops IH]; intros p Hreach Hall.
  - exists p, []. repeat split; try reflexivity; [constructor | exact Hreach].
  - destruct Hall as [Hadm Hall].
    destruct (step_total o p Hreach Hadm) as (q & r & Hstep).
    pose proof (FreeList.reach_step o p q r Hreach Hadm Hstep) as Hreach'.
    destruct (IH q Hreach' (Hall q r Hstep)) as (p' & rs & Hexec & Hret & Hlen & Hnz & Hend).
    cbn [FreeList.exec FreeList.returned]. rewrite Hstep. cbn [mbind option_bind].
    rewrite Hexec, Hret. cbn [mbind option_bind]. rewrite count_cons.
    destruct o as [args raw|ptr|]; simpl in Hstep.
    + destruct (FreeList.allocate args raw p) as [[q' a]|] eqn:Halloc; [|discriminate].
      simpl in Hstep. injection Hstep as <- <-.
      pose proof (live_slot_of_allocate args raw p q' a Hreach Hadm Halloc) as Ha.
      exists p', (a :: rs). split; [reflexivity|]. split; [reflexivity|].
      split; [simpl length; simpl; lia|].
      split; [constructor; [lia | exact Hnz] | exact Hend].
    + injection Hstep as <- <-. exists p', rs. split; [reflexivity|].
      split; [reflexivity|]. split; [simpl; lia|]. split; assumption.
    + injection Hstep as <- <-. exists p', rs. split; [reflexivity|].
      split; [reflexivity|]. split; [simpl; lia|]. split; assumption.
Qed.

Lemma allowed_calls_complete_witness :
  exists p' rs,
    FreeList.exec [FreeList.Deallocate (2 ^ 32 + 24); FreeList.Allocate [50; 60] 0]
      readme_recycled = Some p' /\
    FreeList.returned [FreeList.Deallocate (2 ^ 32 + 24); FreeList.Allocate [50; 60] 0]
      readme_recycled = Some rs /\
    Z.of_nat (length rs)
      = FreeList.count FreeList.is_allocate
          [FreeList.Deallocate (2 ^ 32 + 24); FreeList.Allocate [50; 60] 0] /\
    Forall (fun a => a <> 0) rs /\
    FreeList.reachable p'.
Proof.
  set (p4 := FreeList.deallocate (2 ^ 32 + 24) readme_recycled).
  set (p5 := FreeList.run [FreeList.Allocate [50; 60] 0] p4).
  apply (allowed_calls_complete (list Z) readme_recycled _ readme_recycled_reachable).
  apply (allowed_cons _ _ readme_recycled p4 None); [|reflexivity|].
  { right.
    assert (E : object_at (FreeList.mem readme_recycled) (2 ^ 32 + 24) = Some ([], false))
      by (vm_compute; reflexivity).
    rewrite E. eauto. }
  apply (allowed_cons _ _ p4 p5 (Some (2 ^ 32 + 24))); [|reflexivity|exact I].
  intros H. vm_compute in H. discriminate H.
Defined.

(** * The resolution order of [allocate] *)

Section FreeFlagsMemory.
Context {Args : Type} `{!Constructor Args}.
Import FreeFlags.
Implicit Types (p : Pool Args) (seg : Segment).

(** What [allocate] of the free-flags revision does to the slot storage and to the
    blocks, whichever exit it takes. *)
Lemma allocate_memory_flags args raw p :
  Forall shape_ok (segments_ p) ->
  let p' := fst (allocate args raw p) in
  let a := snd (allocate args raw p) in
  cells (mem p') = <[a := Live args false]> (cells (mem p)) /\
  blocks (mem p')
    = (if needs_growth p then <[raw := upcoming_bytes p]> (blocks (mem p))
       else blocks (mem p)) /\
  destroyed (mem p') = destroyed (mem p).
Proof.
  intros Hshape p' a. subst p' a. unfold allocate, needs_growth.
  pose proof (reuse_spec (slot_size_ (policy p)) (segments_ p) Hshape) as Hspec.
  destruct (reuse (slot_size_ (policy p)) (segments_ p)) as [segs [obj|]]; simpl.
  - split; [apply cells_construct|].
    split; [apply blocks_construct | apply destroyed_construct].
  - destruct Hspec as [_ ->]. rewrite last_has_room_reset. unfold last_has_room.
    destruct (last (segments_ p)) as [seg|] eqn:Elast.
    + destruct (next_uninit seg <? capacity seg) eqn:Hroom; simpl.
      * unfold claim_uninit. simpl segments_. rewrite fmap_last, Elast. simpl.
        split; [apply cells_construct|].
        split; [apply blocks_construct | apply destroyed_construct].
      * unfold claim_uninit. simpl segments_. rewrite last_snoc. simpl.
        rewrite cells_construct, blocks_construct, destroyed_construct. simpl.
        unfold upcoming_bytes. apply last_Some in Elast as [l Hsegs]. rewrite Hsegs.
        rewrite fmap_app. simpl.
        rewrite !bool_decide_eq_false_2 by (intros E; destruct l; discriminate E)
          || (intros E; apply app_eq_nil in E as [_ E]; discriminate E).
        auto.
    + simpl. unfold claim_uninit. simpl segments_. rewrite last_snoc. simpl.
      rewrite cells_construct, blocks_construct, destroyed_construct. simpl.
      unfold upcoming_bytes. apply last_None in Elast. rewrite Elast. auto.
Qed.

End FreeFlagsMemory.

Section FreeListEmpty.
Context {Args : Type} `{!Constructor Args}.
Import FreeList.

Lemma vacant_none (p : Pool Args) : free_list_ p = 0 -> vacant p = [].
Proof.
  intros Hnil. unfold vacant. rewrite Hnil.
  destruct (size (cells (mem p))); reflexivity.
Qed.

End FreeListEmpty.

(** C3: every [allocate] call resolves in this order: (1) if the tracker holds a
    vacant slot, that slot is reused and the tracker no longer holds it; (2)
    otherwise, if the newest segment has a slot never constructed into, that slot is
    claimed; (3) otherwise a segment is appended and its first slot claimed.  In all
    three cases the element is constructed in place from the given arguments, its
    recycled flag is false whatever the constructor left there, no other object
    changes, and the live count goes up by one.  Stated for SegmentedObjectPool.hpp
    ([pl], under the caller's contract; a vacant slot is tracked when the free list
    is not null) and for the free-flags revision ([pf], in every state; a vacant
    slot is tracked when some flag is set; the count is exact under the contract). *)
Theorem C3_allocate_resolution_order (Args : Type) `{!Constructor Args}
    (pl : FreeList.Pool Args) (pf : FreeFlags.Pool Args) (args : Args) (raw : Z) :
  FreeList.reachable pl ->
  FreeList.admissible (FreeList.Allocate args raw) pl ->
  FreeFlags.reachable pf ->
  (exists p' a,
     FreeList.allocate args raw pl = Some (p', a) /\
     (FreeList.free_list_ pl <> 0 ->
        a = FreeList.free_list_ pl /\
        (exists next, cells (FreeList.mem pl) !! a = Some (Node next)) /\
        FreeList.vacant pl = a :: FreeList.vacant p' /\
        (a ∉ FreeList.vacant p') /\
        FreeList.segments_ p' = FreeList.segments_ pl /\
        blocks (FreeList.mem p') = blocks (FreeList.mem pl)) /\
     (FreeList.free_list_ pl = 0 -> forall l seg,
        FreeList.segments_ pl = l ++ [seg] -> next_uninit seg < capacity seg ->
        a = data seg + next_uninit seg * slot_size_ (FreeList.policy pl) /\
        FreeList.segments_ p' =
          l ++ [{| data := data seg; capacity := capacity seg;
                   next_uninit := next_uninit seg + 1 |}] /\
        FreeList.vacant p' = [] /\
        blocks (FreeList.mem p') = blocks (FreeList.mem pl)) /\
     (FreeList.free_list_ pl = 0 -> FreeList.last_has_room pl = false ->
        a = raw /\
        (exists cap, 0 < cap /\
           FreeList.segments_ p' =
             FreeList.segments_ pl ++
             [{| data := raw; capacity := cap; next_uninit := 1 |}]) /\
        FreeList.vacant p' = [] /\
        blocks (FreeList.mem p')
          = <[raw := FreeList.upcoming_bytes pl]> (blocks (FreeList.mem pl))) /\
     object_at (FreeList.mem pl) a = None /\
     object_at (FreeList.mem p') a = Some (args, false) /\
     (forall b, b <> a ->
        object_at (FreeList.mem p') b = object_at (FreeList.mem pl) b) /\
     FreeList.live_count_ p' = FreeList.live_count_ pl + 1) /\
  (let ss := slot_size_ (FreeFlags.policy pf) in
   let p' := fst (FreeFlags.allocate args raw pf) in
   let a := snd (FreeFlags.allocate args raw pf) in
   let scanned := fun seg =>
     {| FreeFlags.data := FreeFlags.data seg;
        FreeFlags.capacity := FreeFlags.capacity seg;
        FreeFlags.next_uninit := FreeFlags.next_uninit seg;
        FreeFlags.free_flags := FreeFlags.free_flags seg;
        FreeFlags.free_hint := 0 |} in
   (forall seg i, seg ∈ FreeFlags.segments_ pf -> FreeFlags.flagged seg i ->
      exists l seg' rest i' seg'',
        FreeFlags.segments_ pf = l ++ seg' :: rest /\ FreeFlags.no_vacancy l /\
        FreeFlags.flagged seg' i' /\
        a = slot_addr ss (FreeFlags.data seg') i' /\
        FreeFlags.segments_ p' = (scanned <$> l) ++ seg'' :: rest /\
        FreeFlags.data seg'' = FreeFlags.data seg' /\
        FreeFlags.capacity seg'' = FreeFlags.capacity seg' /\
        FreeFlags.next_uninit seg'' = FreeFlags.next_uninit seg' /\
        FreeFlags.free_hint seg'' = wrap (i' + 1) /\
        length (FreeFlags.free_flags seg'') = length (FreeFlags.free_flags seg') /\
        FreeFlags.flag_at (FreeFlags.free_flags seg'') i' = 0 /\
        (forall k, 0 <= k -> k <> i' ->
           FreeFlags.flag_at (FreeFlags.free_flags seg'') k
           = FreeFlags.flag_at (FreeFlags.free_flags seg') k) /\
        blocks (FreeFlags.mem p') = blocks (FreeFlags.mem pf)) /\
   (FreeFlags.no_vacancy (FreeFlags.segments_ pf) -> forall l seg,
      FreeFlags.segments_ pf = l ++ [seg] ->
      FreeFlags.next_uninit seg < FreeFlags.capacity seg ->
      a = slot_addr ss (FreeFlags.data seg) (FreeFlags.next_uninit seg) /\
      FreeFlags.segments_ p' =
        (scanned <$> l) ++
        [{| FreeFlags.data := FreeFlags.data seg;
            FreeFlags.capacity := FreeFlags.capacity seg;
            FreeFlags.next_uninit := wrap (FreeFlags.next_uninit seg + 1);
            FreeFlags.free_flags := FreeFlags.free_flags seg;
            FreeFlags.free_hint := 0 |}] /\
      blocks (FreeFlags.mem p') = blocks (FreeFlags.mem pf)) /\
   (FreeFlags.no_vacancy (FreeFlags.segments_ pf) ->
    FreeFlags.last_has_room pf = false ->
      a = slot_addr ss raw 0 /\
      (exists cap,
         FreeFlags.segments_ p' =
           (scanned <$> FreeFlags.segments_ pf) ++
           [{| FreeFlags.data := raw; FreeFlags.capacity := cap;
               FreeFlags.next_uninit := 1;
               FreeFlags.free_flags := replicate (Z.to_nat cap) 0;
               FreeFlags.free_hint := 0 |}]) /\
      blocks (FreeFlags.mem p')
        = <[raw := FreeFlags.upcoming_bytes pf]> (blocks (FreeFlags.mem pf))) /\
   object_at (FreeFlags.mem p') a = Some (args, false) /\
   (forall b, b <> a ->
      object_at (FreeFlags.mem p') b = object_at (FreeFlags.mem pf) b) /\
   FreeFlags.live_count_ p' = wrap (FreeFlags.live_count_ pf + 1) /\
   (FreeFlags.kept pf -> FreeFlags.admissible_allocate raw pf ->
      object_at (FreeFlags.mem pf) a = None /\
      FreeFlags.live_count_ p' = FreeFlags.live_count_ pf + 1)).
Proof.
  intros Hreach Hadm Hflags. split.
  - (* SegmentedObjectPool.hpp *)
    pose proof (reachable_wf pl Hreach) as Hwf.
    assert (Hcommon : forall p' a, FreeList.allocate args raw pl = Some (p', a) ->
              object_at (FreeList.mem pl) a = None /\
              object_at (FreeList.mem p') a = Some (args, false) /\
              (forall b, b <> a ->
                 object_at (FreeList.mem p') b = object_at (FreeList.mem pl) b) /\
              FreeList.live_count_ p' = FreeList.live_count_ pl + 1).
    { intros p' a Halloc.
      pose proof (allocate_cells _ _ _ _ _ Halloc) as Hcells.
      split; [exact (allocate_never_aliases _ _ _ _ _ Hreach Hadm Halloc)|].
      split; [unfold object_at; rewrite Hcells, lookup_insert_eq; reflexivity|].
      split; [|exact (allocate_live_exact _ _ _ _ _ Hreach Hadm Halloc)].
      intros b Hb. unfold object_at. rewrite Hcells, lookup_insert_ne by congruence.
      reflexivity. }
    destruct (decide (FreeList.free_list_ pl = 0)) as [Hnil|Hhead].
    + destruct (FreeList.last_has_room pl) eqn:Hroom.
      * (* the newest segment has a slot never constructed into *)
        destruct (last_has_room_true pl Hroom) as (l & seg & Hsegs & Hlt).
        destruct (claim_uninit_wf args pl l seg Hwf Hsegs Hlt) as (_ & Hclaim & _).
        eassert (Halloc : FreeList.allocate args raw pl = Some _).
        { unfold FreeList.allocate. rewrite Hnil, Hroom. simpl. exact Hclaim. }
        eexists _, _. split; [exact Halloc|].
        split; [intros H; contradiction|]. split.
        { intros _ l' seg' Hsegs' _. rewrite Hsegs in Hsegs'.
          apply app_inj_tail in Hsegs' as [-> ->].
          split; [reflexivity|]. split; [reflexivity|].
          split; [apply vacant_none; exact Hnil | apply blocks_construct]. }
        split; [intros _ H; discriminate|].
        exact (Hcommon _ _ Halloc).
      * (* grow, then take the first slot of the new segment *)
        pose proof Hadm as Hadm'.
        simpl in Hadm'. unfold FreeList.needs_growth in Hadm'.
        rewrite Hnil, Hroom in Hadm'.
        destruct (Hadm' eq_refl) as [Hfit Hfresh].
        destruct (add_segment_wf raw pl Hwf Hfit Hfresh) as (Hwf1 & Hcap & _).
        destruct (claim_uninit_wf args (FreeList.add_segment_ raw pl)
                    (FreeList.segments_ pl) (new_segment raw _) Hwf1 eq_refl Hcap)
          as (_ & Hclaim & _).
        simpl data in Hclaim. simpl next_uninit in Hclaim. simpl capacity in Hclaim.
        rewrite Z.mul_0_l, Z.add_0_r in Hclaim.
        eassert (Halloc : FreeList.allocate args raw pl = Some _).
        { unfold FreeList.allocate. rewrite Hnil, Hroom. simpl. exact Hclaim. }
        eexists _, _. split; [exact Halloc|].
        split; [intros H; contradiction|]. split.
        { intros _ l seg Hsegs Hlt. exfalso. unfold FreeList.last_has_room in Hroom.
          rewrite Hsegs, last_snoc in Hroom. apply Z.ltb_ge in Hroom. lia. }
        split.
        { intros _ _. split; [reflexivity|].
          split; [eexists; split; [exact Hcap | reflexivity]|].
          split; [apply vacant_none; exact Hnil|].
          simpl. rewrite blocks_construct. reflexivity. }
        exact (Hcommon _ _ Halloc).
    + (* a vacated slot is on the free list *)
      destruct (vacant_chain pl Hreach) as (Hchain & Hnodup & _).
      destruct (FreeList.vacant pl) as [|a0 rest] eqn:Hvac;
        [simpl in Hchain; contradiction|].
      destruct (vacant_allocate pl args raw a0 rest Hreach Hvac) as (p' & Halloc & Hrest).
      destruct Hchain as (Ea & _ & next & Hnext & _).
      apply NoDup_cons in Hnodup as [Hnotin _].
      exists p', a0. split; [exact Halloc|]. split.
      { intros _. split; [exact Ea|]. split; [eauto|].
        split; [rewrite Hrest; reflexivity|]. split; [rewrite Hrest; exact Hnotin|].
        destruct (allocate_reuse_wf args raw pl Hwf Hhead) as (n' & _ & Halloc' & _).
        cbv zeta in Halloc'. rewrite Halloc in Halloc'. injection Halloc' as -> _.
        split; [reflexivity | apply blocks_construct]. }
      split; [intros H; contradiction|]. split; [intros H; contradiction|].
      exact (Hcommon _ _ Halloc).
  - (* the free-flags revision *)
    destruct (reachable_shape pf Hflags) as [_ Hshape].
    pose proof (allocate_resolution_flags args raw pf Hshape) as Hres.
    pose proof (allocate_memory_flags args raw pf Hshape) as Hmem.
    cbv zeta in Hres, Hmem. cbv zeta.
    destruct Hres as (Hreuse & Hroom & Hgrow & Hobj & Hlive).
    destruct Hmem as (Hcells & Hblocks & _).
    pose proof (reuse_spec (slot_size_ (FreeFlags.policy pf)) (FreeFlags.segments_ pf)
                  Hshape) as Hspec.
    split; [|split; [|split; [|split; [|split; [|split]]]]].
    + intros seg i Hin Hflag.
      destruct (Hreuse seg i Hin Hflag) as (l & seg' & rest & i' & Hsegs & Hnv & Hfl & Ha & Hsegs').
      exists l, seg', rest, i', (FreeFlags.take_slot i' seg').
      assert (Hlen : (Z.to_nat i' < length (FreeFlags.free_flags seg'))%nat).
      { rewrite Forall_forall in Hshape.
        destruct (Hshape seg') as (Hlen & _).
        { rewrite Hsegs. apply elem_of_app. right. apply list_elem_of_here. }
        rewrite Hlen. destruct Hfl as [Hi _]. lia. }
      split; [exact Hsegs|]. split; [exact Hnv|]. split; [exact Hfl|].
      split; [exact Ha|]. split; [exact Hsegs'|].
      unfold FreeFlags.take_slot. simpl.
      split; [reflexivity|]. split; [reflexivity|]. split; [reflexivity|].
      split; [reflexivity|]. split; [apply length_insert|].
      split; [apply flag_at_insert_eq; [apply Hfl | exact Hlen]|].
      split; [intros k Hk Hne; apply flag_at_insert_ne; [apply Hfl | exact Hk | exact Hne]|].
      rewrite Hblocks. unfold FreeFlags.needs_growth.
      destruct (FreeFlags.reuse _ _) as [segs [obj|]]; [reflexivity|].
      exfalso. destruct Hspec as [Hnone _]. unfold FreeFlags.no_vacancy in Hnone.
      rewrite Forall_forall in Hnone. exact (Hnone seg Hin i Hflag).
    + intros Hnv l seg Hsegs Hlt.
      destruct (Hroom Hnv l seg Hsegs Hlt) as [Ha Hsegs'].
      split; [exact Ha|]. split; [exact Hsegs'|].
      rewrite Hblocks. unfold FreeFlags.needs_growth, FreeFlags.last_has_room.
      destruct (FreeFlags.reuse _ _) as [segs [obj|]]; [reflexivity|].
      rewrite Hsegs, last_snoc.
      destruct (Z.ltb_spec (FreeFlags.next_uninit seg) (FreeFlags.capacity seg));
        [reflexivity | lia].
    + intros Hnv Hfull.
      destruct (Hgrow Hnv Hfull) as [Ha [cap Hsegs']].
      split; [exact Ha|]. split; [exists cap; exact Hsegs'|].
      rewrite Hblocks. unfold FreeFlags.needs_growth. rewrite Hfull.
      destruct (FreeFlags.reuse _ _) as [segs [obj|]]; [|reflexivity].
      exfalso. destruct Hspec as (l & seg & rest & i & Hsegs & _ & Hfl & _).
      unfold FreeFlags.no_vacancy in Hnv. rewrite Hsegs in Hnv.
      apply Forall_app in Hnv as [_ Hnv]. apply Forall_cons in Hnv as [Hnv _].
      exact (Hnv i Hfl).
    + exact Hobj.
    + intros b Hb. unfold object_at. rewrite Hcells, lookup_insert_ne by congruence.
      reflexivity.
    + exact Hlive.
    + intros Hkept Hadmf.
      destruct (allocate_sound args raw pf (kept_sound pf Hkept) Hadmf)
        as (Hs' & Hnot & _).
      split; [exact Hnot|].
      rewrite (FreeFlags.sound_live _ Hs'), (FreeFlags.sound_live _ (kept_sound pf Hkept)).
      unfold alive. rewrite Hcells.
      rewrite map_filter_insert_True by reflexivity.
      rewrite map_size_insert_None; [lia|].
      match goal with |- ?x = None => destruct x as [c|] eqn:E end; [exfalso|reflexivity].
      apply map_lookup_filter_Some in E as [Hc Hl]. simpl in Hl.
      unfold object_at in Hnot. rewrite Hc in Hnot. destruct c; discriminate.
Qed.

Lemma C3_allocate_resolution_order_witness :
  params_fit 4096 24 8 0 /\
  (exists p' a,
     FreeList.allocate ([10; 20], true) (2 ^ 32) (FreeList.make 4096 24 8 0 growth_one)
       = Some (p', a) /\
     a = 2 ^ 32 /\
     object_at (FreeList.mem p') a = Some (([10; 20], true), false) /\
     FreeList.live_count_ p' = 1) /\
  snd (FreeFlags.allocate ([10; 20], true) (2 ^ 32) (FreeFlags.make 4096 24 8 0 growth_one))
    = 2 ^ 32 /\
  object_at
    (FreeFlags.mem
       (fst (FreeFlags.allocate ([10; 20], true) (2 ^ 32)
               (FreeFlags.make 4096 24 8 0 growth_one))))
    (2 ^ 32) = Some (([10; 20], true), false) /\
  (exists p' a,
     FreeList.allocate [50; 60] 0 readme_recycled = Some (p', a) /\
     a = 2 ^ 32 /\
     FreeList.vacant readme_recycled = a :: FreeList.vacant p' /\
     object_at (FreeList.mem p') a = Some ([50; 60], false) /\
     FreeList.live_count_ p' = 2) /\
  (exists i' seg'',
     FreeFlags.segments_ (fst (FreeFlags.allocate [50; 60] 0 readme_flags_recycled))
       = [seg''] /\
     snd (FreeFlags.allocate [50; 60] 0 readme_flags_recycled)
       = slot_addr 24 (2 ^ 32) i' /\
     FreeFlags.flag_at (FreeFlags.free_flags seg'') i' = 0).
Proof.
  assert (Hfit : params_fit 4096 24 8 0).
  { unfold params_fit. repeat split; try reflexivity; discriminate. }
  set (pl0 := @FreeList.make (list Z * bool) 4096 24 8 0 growth_one).
  set (pf0 := @FreeFlags.make (list Z * bool) 4096 24 8 0 growth_one).
  assert (Hadm0 : FreeList.admissible (FreeList.Allocate ([10; 20], true) (2 ^ 32)) pl0).
  { intros _. split; [reflexivity|]. split; [reflexivity|].
    split; [apply Z.leb_le; vm_compute; reflexivity|].
    intros d b H. simpl in H. rewrite lookup_empty in H. discriminate H. }
  destruct (C3_allocate_resolution_order (list Z * bool) pl0 pf0 ([10; 20], true) (2 ^ 32)
              (FreeList.reach_make 4096 24 8 0 growth_one Hfit) Hadm0
              (FreeFlags.reach_make 4096 24 8 0 growth_one Hfit))
    as [(p' & a & Halloc & _ & _ & Hgrow & _ & Hobj & _ & Hlive) Hflags].
  cbv zeta in Hflags. destruct Hflags as (_ & _ & Hgrow' & Hobj' & _).
  assert (Ea : snd (FreeFlags.allocate ([10; 20], true) (2 ^ 32) pf0) = 2 ^ 32).
  { exact (proj1 (Hgrow' (Forall_nil_2 _) eq_refl)). }
  rewrite Ea in Hobj'.
  assert (Hadm1 : FreeList.admissible (FreeList.Allocate [50; 60] 0) readme_recycled).
  { intros H. vm_compute in H. discriminate H. }
  destruct (C3_allocate_resolution_order (list Z) readme_recycled readme_flags_recycled
              [50; 60] 0 readme_recycled_reachable Hadm1 readme_flags_recycled_reachable)
    as [(q' & b & Hallocq & Hreuse & _ & _ & _ & Hobjq & _ & Hliveq) Hflagsq].
  cbv zeta in Hflagsq. destruct Hflagsq as (Hreuseq & _).
  assert (Hhead : FreeList.free_list_ readme_recycled = 2 ^ 32) by (vm_compute; reflexivity).
  destruct Hreuse as (Eb & _ & Hvac & _); [rewrite Hhead; discriminate|].
  rewrite Hhead in Eb.
  assert (Hcount : FreeList.live_count_ readme_recycled = 1) by (vm_compute; reflexivity).
  rewrite Hcount in Hliveq.
  split; [exact Hfit|]. split.
  { exists p', a. split; [exact Halloc|].
    split; [exact (proj1 (Hgrow eq_refl eq_refl))|].
    split; [exact Hobj | exact Hlive]. }
  split; [exact Ea|]. split; [exact Hobj'|]. split.
  { exists q', b. split; [exact Hallocq|]. split; [exact Eb|].
    split; [exact Hvac|]. split; [exact Hobjq | exact Hliveq]. }
  set (s0 := {| FreeFlags.data := 2 ^ 32; FreeFlags.capacity := 512;
                FreeFlags.next_uninit := 2;
                FreeFlags.free_flags := 1 :: 1 :: replicate 510 0;
                FreeFlags.free_hint := 0 |}).
  destruct (Hreuseq s0 0) as (l & seg' & rest & i' & seg'' & Hsegs & Hnv & Hfl & Ha & Hsegs'
                              & _ & _ & _ & _ & _ & Hzero & _).
  { rewrite readme_flags_recycled_segments. apply list_elem_of_here. }
  { split; [simpl; lia | reflexivity]. }
  rewrite readme_flags_recycled_segments in Hsegs.
  destruct l as [|s l]; [|destruct l; discriminate Hsegs].
  injection Hsegs as <- <-.
  assert (Ess : slot_size_ (FreeFlags.policy readme_flags_recycled) = 24)
    by (vm_compute; reflexivity).
  rewrite Ess in Ha.
  exists i', seg''. split; [exact Hsegs'|]. split; [exact Ha | exact Hzero].
Defined.
